(** * GeoTaichi: the linear contact model of the discrete-element engine

    A shallow embedding of [src/dem/contact/Linear.py]: the property table of
    [LinearModel], the force laws of [LinearSurfaceProperty] and the rebuild
    of the contact history from a saved contact list.

    Numbers.  Taichi floats are modelled by the real numbers [R]: the force
    law is read as the real arithmetic it approximates, and rounding is not
    part of the model.  A division whose divisor is zero is a fault of the
    model ([ZeroDivisionError]), so that the degenerate cases of the force
    law can be told apart from the regular ones. *)

From Stdlib Require Import Reals Lra String List.
From stdpp Require Import base option list gmap strings.

Open Scope R_scope.

(** ** Faults and the error monad *)

Inductive fault : Type :=
  | KeyError (key : string)
  | IndexError (i : nat)
  | ZeroDivisionError
  | RuntimeError (msg : string).

Inductive result (A : Type) : Type :=
  | Ok (a : A)
  | Raise (e : fault).

Arguments Ok {A} a.
Arguments Raise {A} e.

Definition bind {A B : Type} (r : result A) (k : A -> result B) : result B :=
  match r with
  | Ok a => k a
  | Raise e => Raise e
  end.

Notation "x <- r ;; k" := (bind r (fun x => k))
  (at level 100, r at next level, right associativity).

(** [store[i]] read in a fixed-size field: a fault outside the field. *)
Definition read {A : Type} (store : list A) (i : nat) : result A :=
  match store !! i with
  | Some a => Ok a
  | None => Raise (IndexError i)
  end.

(** [store[i].method(...)] or [store[i].field = ...]: the element at [i] is
    replaced by its updated value; a fault outside the field. *)
Definition write {A : Type} (store : list A) (i : nat) (f : A -> A) : result (list A) :=
  match store !! i with
  | Some a => Ok (<[i := f a]> store)
  | None => Raise (IndexError i)
  end.

(** ** Three-component vectors ([vec3f]) *)

Record vec3 : Type := Vec3 { vx : R; vy : R; vz : R }.

Definition ZEROVEC3f : vec3 := Vec3 0 0 0.

Definition vadd (a b : vec3) : vec3 := Vec3 (vx a + vx b) (vy a + vy b) (vz a + vz b).
Definition vsub (a b : vec3) : vec3 := Vec3 (vx a - vx b) (vy a - vy b) (vz a - vz b).
Definition vneg (a : vec3) : vec3 := Vec3 (- vx a) (- vy a) (- vz a).
Definition vscale (k : R) (a : vec3) : vec3 := Vec3 (k * vx a) (k * vy a) (k * vz a).
Definition vdot (a b : vec3) : R := vx a * vx b + vy a * vy b + vz a * vz b.
Definition vcross (a b : vec3) : vec3 :=
  Vec3 (vy a * vz b - vz a * vy b) (vz a * vx b - vx a * vz b) (vx a * vy b - vy a * vx b).
Definition vnorm (a : vec3) : R := sqrt (vdot a a).

(** Taichi's [v.normalized()]: [(1 / v.norm()) * v]. *)
Definition normalized (a : vec3) : result vec3 :=
  if Req_dec_T (vnorm a) 0 then Raise ZeroDivisionError
  else Ok (vscale (1 / vnorm a) a).

(** [v / k], component by component. *)
Definition vdiv (a : vec3) (k : R) : result vec3 :=
  if Req_dec_T k 0 then Raise ZeroDivisionError
  else Ok (Vec3 (vx a / k) (vy a / k) (vz a / k)).

(** Modelled from the spec: [Normalize] of [src/utils/VectorFunction.py],
    which is not among the sources.  The spec has the old overlap rotated
    "by normalizing its tangent-plane projection" and a zero-norm vector
    "handled locally by treating as zero contribution ... rather than
    propagating a division fault": the unit vector of [a], and the zero
    vector when [a] has no length. *)
Definition Normalize (a : vec3) : vec3 :=
  if Req_dec_T (vnorm a) 0 then ZEROVEC3f
  else vscale (1 / vnorm a) a.

(** Modelled from the spec: [EffectiveValue] of [src/utils/ScalarFunction.py],
    which is not among the sources.  The spec gives the "harmonic-style
    effective-value combination" as [2·k1·k2/(k1+k2)]. *)
Definition EffectiveValue (x y : R) : R := 2 * x * y / (x + y).

(** [DictIO.GetEssential(dictionary, key)] of [src/utils/ObjectIO.py], which
    is not among the sources: the entry under [key], which has to be there. *)
Definition GetEssential (dictionary : gmap string R) (key : string) : result R :=
  match dictionary !! key with
  | Some value => Ok value
  | None => Raise (KeyError key)
  end.

(** ** The stores the contact model works on *)

(** A discrete-element particle, with the fields the force laws read and
    the two accumulators they add to. *)
Module Particle.

Record t : Type := Build {
  x : vec3;
  v : vec3;
  w : vec3;
  m : R;
  rad : R;
  contact_force : vec3;
  contact_torque : vec3
}.

(** Modelled from the spec: [_update_contact_interaction] of the particle
    class, which is not among the sources.  The spec has force and moment
    "added — not overwritten — to each endpoint's total-contact-force and
    total-contact-moment accumulators". *)
Definition _update_contact_interaction (self : t) (cforce ctorque : vec3) : t :=
  {| x := x self; v := v self; w := w self; m := m self; rad := rad self;
     contact_force := vadd (contact_force self) cforce;
     contact_torque := vadd (contact_torque self) ctorque |}.

End Particle.

(** The first endpoint of a coupled contact: a body with a mass, a velocity
    and a force accumulator only. *)
Module CoupledParticle.

Record t : Type := Build {
  m : R;
  v : vec3;
  contact_force : vec3
}.

(** Modelled from the spec: the one-argument [_update_contact_interaction],
    which is not among the sources; the force is added to the accumulator. *)
Definition _update_contact_interaction (self : t) (cforce : vec3) : t :=
  {| m := m self; v := v self; contact_force := vadd (contact_force self) cforce |}.

End CoupledParticle.

(** A material point in contact with a wall: a position, a velocity, a mass
    and a force accumulator. *)
Module MPMParticle.

Record t : Type := Build {
  x : vec3;
  v : vec3;
  m : R;
  contact_force : vec3
}.

(** Modelled from the spec: the one-argument [_update_contact_interaction],
    which is not among the sources; the force is added to the accumulator. *)
Definition _update_contact_interaction (self : t) (cforce : vec3) : t :=
  {| x := x self; v := v self; m := m self;
     contact_force := vadd (contact_force self) cforce |}.

End MPMParticle.

(** A wall primitive.  Its class is not among the sources: [_get_velocity]
    is the velocity it reports and [processCircleShape] its partial-coverage
    computation, both taken as given.  The force laws never write to it. *)
Module Wall.

Record t : Type := Build {
  _get_velocity : vec3;
  processCircleShape : vec3 -> R -> R -> R
}.

End Wall.

(** A record of [cplist] (the spec's ContactRecord). *)
Module ContactRecord.

Record t : Type := Build {
  DstID : nat;
  normal_force : vec3;
  tangential_force : vec3;
  oldTangOverlap : vec3
}.

(** Modelled from the spec: [_set_contact] of the contact class, which is
    not among the sources; it stores the two forces and the overlap. *)
Definition _set_contact (self : t) (normal_force tangential_force tangOverTemp : vec3) : t :=
  {| DstID := DstID self; normal_force := normal_force;
     tangential_force := tangential_force; oldTangOverlap := tangOverTemp |}.

End ContactRecord.

(** A record of the contact list of a coupled contact, and of [hist_cplist]
    (the spec's HistoryRecord): a partner and an overlap. *)
Module HistoryRecord.

Record t : Type := Build {
  DstID : nat;
  oldTangOverlap : vec3
}.

(** Modelled from the spec: the one-argument [_set_contact], which is not
    among the sources; it stores the overlap. *)
Definition _set_contact (self : t) (tangOverTemp : vec3) : t :=
  {| DstID := DstID self; oldTangOverlap := tangOverTemp |}.

End HistoryRecord.

(** ** The property record of a material pair and its force laws *)

Module LinearSurfaceProperty.

Record t : Type := Build {
  kn : R;
  ks : R;
  mu : R;
  ndratio : R;
  sdratio : R
}.

Definition add_surface_property (self : t) (kn ks mu ndratio sdratio : R) : t :=
  {| kn := kn; ks := ks; mu := mu; ndratio := ndratio; sdratio := sdratio |}.

(** *** The force law shared by the assemblers

    From [vn = v_rel.dot(norm)] to the end of the friction branch the four
    assemblers of the source have the same text (lines 210-229, 250-269,
    294-313, 333-352).  It is written once here, stage by stage. *)

(** [normal_contact_force + normal_damping_force]. *)
Definition normal_scalar (self : t) (m_eff gapn vn : R) : R :=
  let normal_contact_force := - kn self * gapn in
  let normal_damping_force := -2 * ndratio self * sqrt (m_eff * kn self) * vn in
  normal_contact_force + normal_damping_force.

(** [vs = v_rel - v_rel.dot(norm) * norm]. *)
Definition tangential_velocity (v_rel norm : vec3) : vec3 :=
  vsub v_rel (vscale (vdot v_rel norm) norm).

(** [tangOverlapRot = tangOverlapOld - tangOverlapOld.dot(norm) * norm]. *)
Definition tangOverlapRot (tangOverlapOld norm : vec3) : vec3 :=
  vsub tangOverlapOld (vscale (vdot tangOverlapOld norm) norm).

(** [tangOverlapOld.norm() * Normalize(tangOverlapRot)]: the old overlap
    carried into this step. *)
Definition carried_overlap (tangOverlapOld norm : vec3) : vec3 :=
  vscale (vnorm tangOverlapOld) (Normalize (tangOverlapRot tangOverlapOld norm)).

(** [tangOverTemp = vs * dt[None] + tangOverlapOld.norm() * Normalize(tangOverlapRot)]. *)
Definition trial_overlap (vs : vec3) (dt : R) (tangOverlapOld norm : vec3) : vec3 :=
  vadd (vscale dt vs) (carried_overlap tangOverlapOld norm).

(** [trial_ft = -ks * tangOverTemp]. *)
Definition trial_force (self : t) (tangOverTemp : vec3) : vec3 :=
  vscale (- ks self) tangOverTemp.

(** [tang_damping_force = -2 * sdratio * ti.sqrt(m_eff * ks) * vs]. *)
Definition tangential_damping (self : t) (m_eff : R) (vs : vec3) : vec3 :=
  vscale (-2 * sdratio self * sqrt (m_eff * ks self)) vs.

(** [fric = miu * ti.abs(normal_contact_force + normal_damping_force)]. *)
Definition friction_limit (self : t) (normal : R) : R :=
  mu self * Rabs normal.

(** The friction branch: the tangential force and the overlap to store. *)
Definition return_mapping (self : t) (fric : R)
    (trial_ft tang_damping_force tangOverTemp : vec3) : result (vec3 * vec3) :=
  if Rgt_dec (vnorm trial_ft) fric then
    unit <- normalized trial_ft ;;
    let tangential_force := vscale fric unit in
    tangOverTemp <- vdiv (vneg tangential_force) (ks self) ;;
    Ok (tangential_force, tangOverTemp)
  else
    let tangential_force := vadd trial_ft tang_damping_force in
    Ok (tangential_force, tangOverTemp).

(** The whole block: [(normal_force, tangential_force, tangOverTemp)]. *)
Definition force_law (self : t) (m_eff gapn : R) (norm v_rel : vec3) (dt : R)
    (tangOverlapOld : vec3) : result (vec3 * vec3 * vec3) :=
  let vn := vdot v_rel norm in
  let vs := tangential_velocity v_rel norm in
  let normal_force := vscale (normal_scalar self m_eff gapn vn) norm in
  let tangOverTemp := trial_overlap vs dt tangOverlapOld norm in
  let trial_ft := trial_force self tangOverTemp in
  let tang_damping_force := tangential_damping self m_eff vs in
  let fric := friction_limit self (normal_scalar self m_eff gapn vn) in
  r <- return_mapping self fric trial_ft tang_damping_force tangOverTemp ;;
  Ok (normal_force, r.1, r.2).

(** The relative velocity at the contact point, as each assembler has it. *)

(** [v_rel = vel1 + w1.cross(cpos - pos1) - (vel2 + w2.cross(cpos - pos2))]. *)
Definition particle_particle_v_rel (p1 p2 : Particle.t) (cpos : vec3) : vec3 :=
  vsub (vadd (Particle.v p1) (vcross (Particle.w p1) (vsub cpos (Particle.x p1))))
       (vadd (Particle.v p2) (vcross (Particle.w p2) (vsub cpos (Particle.x p2)))).

(** [v_rel = vel1 - (vel2 + w2.cross(cpos - pos2))]. *)
Definition coupled_particle_v_rel (p1 : CoupledParticle.t) (p2 : Particle.t)
    (cpos : vec3) : vec3 :=
  vsub (CoupledParticle.v p1)
       (vadd (Particle.v p2) (vcross (Particle.w p2) (vsub cpos (Particle.x p2)))).

(** [v_rel = vel1 + w1.cross(cpos - pos1) - vel2]. *)
Definition particle_wall_v_rel (p1 : Particle.t) (wl : Wall.t) (cpos : vec3) : vec3 :=
  vsub (vadd (Particle.v p1) (vcross (Particle.w p1) (vsub cpos (Particle.x p1))))
       (Wall._get_velocity wl).

(** *** Particle-Particle *)

Definition _particle_particle_force_assemble (self : t) (nc end1 end2 : nat)
    (gapn : R) (norm cpos : vec3) (dt : R)
    (particle : list Particle.t) (cplist : list ContactRecord.t)
  : result (list Particle.t * list ContactRecord.t) :=
  p1 <- read particle end1 ;;
  p2 <- read particle end2 ;;
  let rad1 := Particle.rad p1 in let rad2 := Particle.rad p2 in
  let mass1 := Particle.m p1 in let mass2 := Particle.m p2 in
  let m_eff := EffectiveValue mass1 mass2 in
  let v_rel := particle_particle_v_rel p1 p2 cpos in
  c <- read cplist nc ;;
  f <- force_law self m_eff gapn norm v_rel dt (ContactRecord.oldTangOverlap c) ;;
  let normal_force := f.1.1 in
  let tangential_force := f.1.2 in
  let tangOverTemp := f.2 in
  let Ftotal := vadd normal_force tangential_force in
  let moment := vcross tangential_force norm in
  cplist <- write cplist nc
    (fun c => ContactRecord._set_contact c normal_force tangential_force tangOverTemp) ;;
  particle <- write particle end1
    (fun p => Particle._update_contact_interaction p Ftotal
                (vscale (rad1 + 0.5 * gapn) moment)) ;;
  particle <- write particle end2
    (fun p => Particle._update_contact_interaction p (vneg Ftotal)
                (vscale (rad2 + 0.5 * gapn) moment)) ;;
  Ok (particle, cplist).

Definition _coupled_particle_force_assemble (self : t) (nc end1 end2 : nat)
    (gapn : R) (norm cpos : vec3) (dt : R)
    (particle1 : list CoupledParticle.t) (particle2 : list Particle.t)
    (cplist : list HistoryRecord.t)
  : result (list CoupledParticle.t * list Particle.t * list HistoryRecord.t) :=
  p1 <- read particle1 end1 ;;
  p2 <- read particle2 end2 ;;
  let pos2 := Particle.x p2 in
  let mass1 := CoupledParticle.m p1 in let mass2 := Particle.m p2 in
  let m_eff := EffectiveValue mass1 mass2 in
  let v_rel := coupled_particle_v_rel p1 p2 cpos in
  c <- read cplist nc ;;
  f <- force_law self m_eff gapn norm v_rel dt (HistoryRecord.oldTangOverlap c) ;;
  let normal_force := f.1.1 in
  let tangential_force := f.1.2 in
  let tangOverTemp := f.2 in
  let Ftotal := vadd normal_force tangential_force in
  let resultant_momentum := vcross Ftotal (vsub cpos pos2) in
  cplist <- write cplist nc (fun c => HistoryRecord._set_contact c tangOverTemp) ;;
  particle1 <- write particle1 end1
    (fun p => CoupledParticle._update_contact_interaction p Ftotal) ;;
  particle2 <- write particle2 end2
    (fun p => Particle._update_contact_interaction p (vneg Ftotal) resultant_momentum) ;;
  Ok (particle1, particle2, cplist).

(** *** Particle-Wall *)

Definition _particle_wall_force_assemble (self : t) (nc end1 end2 : nat)
    (distance gapn : R) (norm cpos : vec3) (dt : R)
    (particle : list Particle.t) (wall : list Wall.t) (cplist : list ContactRecord.t)
  : result (list Particle.t * list ContactRecord.t) :=
  p1 <- read particle end1 ;;
  wl <- read wall end2 ;;
  let pos1 := Particle.x p1 in
  let m_eff := Particle.m p1 in
  let v_rel := particle_wall_v_rel p1 wl cpos in
  c <- read cplist nc ;;
  f <- force_law self m_eff gapn norm v_rel dt (ContactRecord.oldTangOverlap c) ;;
  let normal_force := f.1.1 in
  let tangential_force := f.1.2 in
  let tangOverTemp := f.2 in
  let fraction := Rabs (Wall.processCircleShape wl pos1 distance (- gapn)) in
  let Ftotal := vscale fraction (vadd normal_force tangential_force) in
  let resultant_momentum := vscale fraction (vcross Ftotal (vsub pos1 cpos)) in
  cplist <- write cplist nc
    (fun c => ContactRecord._set_contact c (vscale fraction normal_force)
                (vscale fraction tangential_force) tangOverTemp) ;;
  particle <- write particle end1
    (fun p => Particle._update_contact_interaction p Ftotal resultant_momentum) ;;
  Ok (particle, cplist).

(** [v_rel = vel1 - vel2]. *)
Definition mpm_wall_v_rel (p1 : MPMParticle.t) (wl : Wall.t) : vec3 :=
  vsub (MPMParticle.v p1) (Wall._get_velocity wl).

Definition _mpm_wall_force_assemble (self : t) (nc end1 end2 : nat)
    (distance gapn : R) (norm : vec3) (dt : R)
    (particle : list MPMParticle.t) (wall : list Wall.t) (cplist : list HistoryRecord.t)
  : result (list MPMParticle.t * list HistoryRecord.t) :=
  p1 <- read particle end1 ;;
  wl <- read wall end2 ;;
  let pos1 := MPMParticle.x p1 in
  let m_eff := MPMParticle.m p1 in
  let v_rel := mpm_wall_v_rel p1 wl in
  c <- read cplist nc ;;
  f <- force_law self m_eff gapn norm v_rel dt (HistoryRecord.oldTangOverlap c) ;;
  let normal_force := f.1.1 in
  let tangential_force := f.1.2 in
  let tangOverTemp := f.2 in
  let fraction := Wall.processCircleShape wl pos1 distance (- gapn) in
  let Ftotal := vscale fraction (vadd normal_force tangential_force) in
  cplist <- write cplist nc (fun c => HistoryRecord._set_contact c tangOverTemp) ;;
  particle <- write particle end1
    (fun p => MPMParticle._update_contact_interaction p Ftotal) ;;
  Ok (particle, cplist).

(** *** The stiffness of a partly covered wall contact *)

Section EquivalentStiffness.

(** [_get_center()] and [norm] of the wall class, which is not among the
    sources: the centre and the normal of a wall are parameters. *)
Variable _get_center : Wall.t -> vec3.
Variable norm : Wall.t -> vec3.

Definition _get_equivalent_stiffness (self : t) (end1 end2 : nat)
    (particle : list Particle.t) (wall : list Wall.t) : result R :=
  p1 <- read particle end1 ;;
  wl <- read wall end2 ;;
  let pos1 := Particle.x p1 in let pos2 := _get_center wl in
  let particle_rad := Particle.rad p1 in let norm := norm wl in
  let distance := vdot (vsub pos1 pos2) norm in
  let gapn := distance - particle_rad in
  let fraction := Rabs (Wall.processCircleShape wl pos1 distance (- gapn)) in
  Ok (fraction * kn self).

End EquivalentStiffness.

End LinearSurfaceProperty.

(** ** Rebuilding the history from a saved contact list *)

(** The kernel: the per-owner counts are copied into the history count table,
    then one history record is written for each of the
    [object_object[object_object.shape[0] - 1]] saved pairs (its two
    assignments set the two fields of the record).  Taichi does not
    check the bounds of these accesses; here a write outside a field changes
    nothing and a read outside an array gives a default, and no statement
    below depends on that choice. *)
Definition kernel_rebulid_history_contact_list
    (hist_cplist : list HistoryRecord.t) (hist_object_object : list nat)
    (object_object dst : list nat) (oldTangOverlap : list vec3)
  : list HistoryRecord.t * list nat :=
  let hist_object_object :=
    foldl (fun h i => <[i := default 0%nat (object_object !! i)]> h)
      hist_object_object (seq 0 (length object_object)) in
  let hist_cplist :=
    foldl (fun h cp =>
             <[cp := HistoryRecord.Build (default 0%nat (dst !! cp))
                       (default ZEROVEC3f (oldTangOverlap !! cp))]> h)
      hist_cplist (seq 0 (List.last object_object 0%nat)) in
  (hist_cplist, hist_object_object).

(** ** [LinearModel]: the property table and the rebuild entry points *)

(** The part of the neighbour object the rebuild writes to: the history
    count tables of the two contact classes. *)
Module NeighborBase.

Record t : Type := Build {
  hist_particle_particle : list nat;
  hist_particle_wall : list nat
}.

End NeighborBase.

Module LinearModel.

Record t : Type := Build {
  surfaceProps : list LinearSurfaceProperty.t;
  cplist : list ContactRecord.t;
  hist_cplist : list HistoryRecord.t
}.

(** [self.surfaceProps[componousID].add_surface_property(...)] and the
    field assignments of [update_property]: one slot of the table is
    rewritten, the other stores of [self] stay as they are. *)
Definition write_surfaceProps (self : t) (componousID : nat)
    (f : LinearSurfaceProperty.t -> LinearSurfaceProperty.t) : result t :=
  table <- write (surfaceProps self) componousID f ;;
  Ok {| surfaceProps := table; cplist := cplist self; hist_cplist := hist_cplist self |}.

Section PropertyTable.

(** [get_componousID] belongs to [ContactModelBase], which is not among
    the sources: the composite index of a material pair is a parameter. *)
Variable get_componousID : nat -> nat -> nat -> nat.

Definition add_surface_property (self : t)
    (max_material_num materialID1 materialID2 : nat)
    (property : gmap string R) : result (t * nat) :=
  kn <- GetEssential property "NormalStiffness" ;;
  ks <- GetEssential property "TangentialStiffness" ;;
  mu <- GetEssential property "Friction" ;;
  ndratio <- GetEssential property "NormalViscousDamping" ;;
  sdratio <- GetEssential property "TangentialViscousDamping" ;;
  if decide (materialID1 = materialID2) then
    let componousID := get_componousID max_material_num materialID1 materialID2 in
    self <- write_surfaceProps self componousID
      (fun p => LinearSurfaceProperty.add_surface_property p kn ks mu ndratio sdratio) ;;
    Ok (self, componousID)
  else
    let componousID := get_componousID max_material_num materialID1 materialID2 in
    self <- write_surfaceProps self componousID
      (fun p => LinearSurfaceProperty.add_surface_property p kn ks mu ndratio sdratio) ;;
    let componousID := get_componousID max_material_num materialID2 materialID1 in
    self <- write_surfaceProps self componousID
      (fun p => LinearSurfaceProperty.add_surface_property p kn ks mu ndratio sdratio) ;;
    Ok (self, componousID).

Definition inherit_surface_property (self : t)
    (max_material_num materialID1 materialID2 : nat)
    (property1 property2 : gmap string R) : result (t * nat) :=
  kn1 <- GetEssential property1 "NormalStiffness" ;;
  ks1 <- GetEssential property1 "TangentialStiffness" ;;
  mu1 <- GetEssential property1 "Friction" ;;
  dnratio1 <- GetEssential property1 "NormalViscousDamping" ;;
  dsratio1 <- GetEssential property1 "TangentialViscousDamping" ;;
  kn2 <- GetEssential property2 "NormalStiffness" ;;
  ks2 <- GetEssential property2 "TangentialStiffness" ;;
  mu2 <- GetEssential property2 "Friction" ;;
  dnratio2 <- GetEssential property2 "NormalViscousDamping" ;;
  dsratio2 <- GetEssential property2 "TangentialViscousDamping" ;;
  let kn := EffectiveValue kn1 kn2 in
  let ks := EffectiveValue ks1 ks2 in
  let mu := Rmin mu1 mu2 in
  let ndratio := Rmin dnratio1 dnratio2 in
  let sdratio := Rmin dsratio1 dsratio2 in
  if decide (materialID1 = materialID2) then
    let componousID := get_componousID max_material_num materialID1 materialID2 in
    self <- write_surfaceProps self componousID
      (fun p => LinearSurfaceProperty.add_surface_property p kn ks mu ndratio sdratio) ;;
    Ok (self, componousID)
  else
    let componousID := get_componousID max_material_num materialID1 materialID2 in
    self <- write_surfaceProps self componousID
      (fun p => LinearSurfaceProperty.add_surface_property p kn ks mu ndratio sdratio) ;;
    let componousID := get_componousID max_material_num materialID2 materialID1 in
    self <- write_surfaceProps self componousID
      (fun p => LinearSurfaceProperty.add_surface_property p kn ks mu ndratio sdratio) ;;
    Ok (self, componousID).

(** [find_max_stiffness]: the two loops over the material ids; a slot
    counts when its [kn] is positive, and then with its [kn] and its [ks]. *)
Definition find_max_stiffness (self : t) (max_material_num : nat) : result R :=
  foldl (fun maxstiff materialID1 =>
    foldl (fun maxstiff materialID2 =>
      maxstiff <- maxstiff ;;
      let componousID := get_componousID max_material_num materialID1 materialID2 in
      p <- read (surfaceProps self) componousID ;;
      if Rgt_dec (LinearSurfaceProperty.kn p) 0 then
        Ok (Rmax (Rmax maxstiff (LinearSurfaceProperty.kn p)) (LinearSurfaceProperty.ks p))
      else Ok maxstiff)
      maxstiff (seq 0 max_material_num))
    (Ok 0) (seq 0 max_material_num).

(** [calcu_critical_timestep]: [mass] stands for
    [scene.find_particle_min_mass()], whose class is not among the sources. *)
Definition calcu_critical_timestep (self : t) (mass : R) (max_material_num : nat)
  : result R :=
  stiffness <- find_max_stiffness self max_material_num ;;
  if Req_dec_T stiffness 0 then Raise ZeroDivisionError
  else Ok (sqrt (mass / stiffness)).

End PropertyTable.

(** [update_property]: [override] is first turned into the number 1 or 0,
    and the named field becomes [override * old + value]. *)
Definition update_property (self : t) (componousID : nat) (property_name : string)
    (value : R) (override : bool) : result t :=
  let override : R := if override then 1 else 0 in
  if decide (property_name = "NormalStiffness"%string) then
    write_surfaceProps self componousID (fun p =>
      LinearSurfaceProperty.Build
        (override * LinearSurfaceProperty.kn p + value) (LinearSurfaceProperty.ks p)
        (LinearSurfaceProperty.mu p) (LinearSurfaceProperty.ndratio p)
        (LinearSurfaceProperty.sdratio p))
  else if decide (property_name = "TangentialStiffness"%string) then
    write_surfaceProps self componousID (fun p =>
      LinearSurfaceProperty.Build
        (LinearSurfaceProperty.kn p) (override * LinearSurfaceProperty.ks p + value)
        (LinearSurfaceProperty.mu p) (LinearSurfaceProperty.ndratio p)
        (LinearSurfaceProperty.sdratio p))
  else if decide (property_name = "Friction"%string) then
    write_surfaceProps self componousID (fun p =>
      LinearSurfaceProperty.Build
        (LinearSurfaceProperty.kn p) (LinearSurfaceProperty.ks p)
        (override * LinearSurfaceProperty.mu p + value) (LinearSurfaceProperty.ndratio p)
        (LinearSurfaceProperty.sdratio p))
  else if decide (property_name = "NormalViscousDamping"%string) then
    write_surfaceProps self componousID (fun p =>
      LinearSurfaceProperty.Build
        (LinearSurfaceProperty.kn p) (LinearSurfaceProperty.ks p)
        (LinearSurfaceProperty.mu p) (override * LinearSurfaceProperty.ndratio p + value)
        (LinearSurfaceProperty.sdratio p))
  else if decide (property_name = "TangentialViscousDamping"%string) then
    write_surfaceProps self componousID (fun p =>
      LinearSurfaceProperty.Build
        (LinearSurfaceProperty.kn p) (LinearSurfaceProperty.ks p)
        (LinearSurfaceProperty.mu p) (LinearSurfaceProperty.ndratio p)
        (override * LinearSurfaceProperty.sdratio p + value))
  else Ok self.

Section Rebuild.

(** [rebuild_contact_list] belongs to [ContactModelBase], which is not
    among the sources: it is a parameter that turns the saved contact
    list into [(object_object, particle_number, DstID, oldTangOverlap)]. *)
Variable contact_info_t : Type.
Variable rebuild_contact_list :
  contact_info_t -> list nat * nat * list nat * list vec3.

(** The entry points mutate [self] and [pcontact] and may raise: they
    give the outcome together with the two objects as the call leaves
    them. *)
Definition rebuild_ppcontact_list (self : t) (pcontact : NeighborBase.t)
    (contact_info : contact_info_t) : result unit * t * NeighborBase.t :=
  let '(object_object, particle_number, DstID, oldTangOverlap) :=
    rebuild_contact_list contact_info in
  if gt_dec (length DstID) (length (cplist self)) then
    (Raise (RuntimeError "/body_coordination_number/ should be enlarged"),
     self, pcontact)
  else
    let '(hist, counts) :=
      kernel_rebulid_history_contact_list (hist_cplist self)
        (NeighborBase.hist_particle_particle pcontact)
        object_object DstID oldTangOverlap in
    (Ok tt,
     {| surfaceProps := surfaceProps self; cplist := cplist self; hist_cplist := hist |},
     {| NeighborBase.hist_particle_particle := counts;
        NeighborBase.hist_particle_wall := NeighborBase.hist_particle_wall pcontact |}).

Definition rebuild_pwcontact_list (self : t) (pcontact : NeighborBase.t)
    (contact_info : contact_info_t) : result unit * t * NeighborBase.t :=
  let '(object_object, particle_number, DstID, oldTangOverlap) :=
    rebuild_contact_list contact_info in
  if gt_dec (length DstID) (length (cplist self)) then
    (Raise (RuntimeError "/body_coordination_number/ should be enlarged"),
     self, pcontact)
  else
    let '(hist, counts) :=
      kernel_rebulid_history_contact_list (hist_cplist self)
        (NeighborBase.hist_particle_wall pcontact)
        object_object DstID oldTangOverlap in
    (Ok tt,
     {| surfaceProps := surfaceProps self; cplist := cplist self; hist_cplist := hist |},
     {| NeighborBase.hist_particle_particle := NeighborBase.hist_particle_particle pcontact;
        NeighborBase.hist_particle_wall := counts |}).

End Rebuild.

End LinearModel.

(** ** Vocabulary of the statements *)

(** The five property names [update_property] recognises, and the field of
    the record each of them names. *)
Inductive property_field : Type :=
  | NormalStiffness
  | TangentialStiffness
  | Friction
  | NormalViscousDamping
  | TangentialViscousDamping.

Definition property_name (f : property_field) : string :=
  match f with
  | NormalStiffness => "NormalStiffness"
  | TangentialStiffness => "TangentialStiffness"
  | Friction => "Friction"
  | NormalViscousDamping => "NormalViscousDamping"
  | TangentialViscousDamping => "TangentialViscousDamping"
  end.

Definition field_value (f : property_field) (p : LinearSurfaceProperty.t) : R :=
  match f with
  | NormalStiffness => LinearSurfaceProperty.kn p
  | TangentialStiffness => LinearSurfaceProperty.ks p
  | Friction => LinearSurfaceProperty.mu p
  | NormalViscousDamping => LinearSurfaceProperty.ndratio p
  | TangentialViscousDamping => LinearSurfaceProperty.sdratio p
  end.

(** What one call accumulates on a body: the content of its accumulator
    after the call minus its content before. *)
Definition force_received (before after : list Particle.t) (i : nat) : vec3 :=
  match before !! i, after !! i with
  | Some b, Some a => vsub (Particle.contact_force a) (Particle.contact_force b)
  | _, _ => ZEROVEC3f
  end.

Definition torque_received (before after : list Particle.t) (i : nat) : vec3 :=
  match before !! i, after !! i with
  | Some b, Some a => vsub (Particle.contact_torque a) (Particle.contact_torque b)
  | _, _ => ZEROVEC3f
  end.

Definition coupled_force_received (before after : list CoupledParticle.t) (i : nat) : vec3 :=
  match before !! i, after !! i with
  | Some b, Some a => vsub (CoupledParticle.contact_force a) (CoupledParticle.contact_force b)
  | _, _ => ZEROVEC3f
  end.

(** A wall has no accumulator, and [_particle_wall_force_assemble] has no
    write to [wall]: whatever the call, it accumulates no force on a wall. *)
Definition force_received_by_wall (wall : list Wall.t) (i : nat) : vec3 := ZEROVEC3f.

(** The record [p] with the field [f] set to [value]. *)
Definition with_field (f : property_field) (value : R) (p : LinearSurfaceProperty.t)
  : LinearSurfaceProperty.t :=
  match f with
  | NormalStiffness =>
      LinearSurfaceProperty.Build value (LinearSurfaceProperty.ks p)
        (LinearSurfaceProperty.mu p) (LinearSurfaceProperty.ndratio p)
        (LinearSurfaceProperty.sdratio p)
  | TangentialStiffness =>
      LinearSurfaceProperty.Build (LinearSurfaceProperty.kn p) value
        (LinearSurfaceProperty.mu p) (LinearSurfaceProperty.ndratio p)
        (LinearSurfaceProperty.sdratio p)
  | Friction =>
      LinearSurfaceProperty.Build (LinearSurfaceProperty.kn p) (LinearSurfaceProperty.ks p)
        value (LinearSurfaceProperty.ndratio p) (LinearSurfaceProperty.sdratio p)
  | NormalViscousDamping =>
      LinearSurfaceProperty.Build (LinearSurfaceProperty.kn p) (LinearSurfaceProperty.ks p)
        (LinearSurfaceProperty.mu p) value (LinearSurfaceProperty.sdratio p)
  | TangentialViscousDamping =>
      LinearSurfaceProperty.Build (LinearSurfaceProperty.kn p) (LinearSurfaceProperty.ks p)
        (LinearSurfaceProperty.mu p) (LinearSurfaceProperty.ndratio p) value
  end.

(** ** Sample inputs *)

(** A composite index for the examples: row-major in the material ids. *)
Definition row_major (max_material_num materialID1 materialID2 : nat) : nat :=
  materialID1 * max_material_num + materialID2.

(** Two property sets, of stiffness 100 and 300. *)
Definition property_soft : gmap string R :=
  <["NormalStiffness"%string := 100]>
  (<["TangentialStiffness"%string := 100]>
  (<["Friction"%string := 0.5]>
  (<["NormalViscousDamping"%string := 0.1]>
  (<["TangentialViscousDamping"%string := 0.2]> ∅)))).

Definition property_stiff : gmap string R :=
  <["NormalStiffness"%string := 300]>
  (<["TangentialStiffness"%string := 300]>
  (<["Friction"%string := 0.3]>
  (<["NormalViscousDamping"%string := 0.4]>
  (<["TangentialViscousDamping"%string := 0.05]> ∅)))).

(** A model for two materials: four empty property slots, no contacts. *)
Definition two_material_model : LinearModel.t :=
  LinearModel.Build (replicate 4 (LinearSurfaceProperty.Build 0 0 0 0 0)) [] [].

(** A contact with friction coefficient 2 (it sticks below) and one with
    friction coefficient 0.5 (it slips); unit stiffnesses, no damping. *)
Definition sticky : LinearSurfaceProperty.t := LinearSurfaceProperty.Build 1 1 2 0 0.
Definition slippery : LinearSurfaceProperty.t := LinearSurfaceProperty.Build 1 1 0.5 0 0.

(** A particle of radius 2 centred one unit above the origin and moving
    along the first axis, and a particle of radius 1 at rest one unit below. *)
Definition moving_particle : Particle.t :=
  Particle.Build (Vec3 0 0 1) (Vec3 1 0 0) ZEROVEC3f 1 2 ZEROVEC3f ZEROVEC3f.
Definition resting_particle : Particle.t :=
  Particle.Build (Vec3 0 0 (-1)) ZEROVEC3f ZEROVEC3f 1 1 ZEROVEC3f ZEROVEC3f.

(** A body of a coupled contact with the motion of [moving_particle]. *)
Definition moving_body : CoupledParticle.t :=
  CoupledParticle.Build 1 (Vec3 1 0 0) ZEROVEC3f.

(** A wall at rest whose primitive covers half of the contact. *)
Definition half_covered_wall : Wall.t := Wall.Build ZEROVEC3f (fun _ _ _ => 1 / 2).

(** A contact record and a history record without overlap yet. *)
Definition fresh_contact : ContactRecord.t :=
  ContactRecord.Build 1 ZEROVEC3f ZEROVEC3f ZEROVEC3f.
Definition fresh_history : HistoryRecord.t := HistoryRecord.Build 1 ZEROVEC3f.

(** The contact normal and the contact point of the examples. *)
Definition upward : vec3 := Vec3 0 0 1.
Definition origin : vec3 := Vec3 0 0 0.

(** A table for two materials in which the cross slots have no normal
    stiffness but a large tangential one. *)
Definition uneven_model : LinearModel.t :=
  LinearModel.Build
    [LinearSurfaceProperty.Build 100 300 0.5 0.1 0.2;
     LinearSurfaceProperty.Build 0 500 0 0 0;
     LinearSurfaceProperty.Build 0 500 0 0 0;
     LinearSurfaceProperty.Build 100 100 0.5 0.1 0.2] [] [].

(** A contact record that holds an overlap along the first axis. *)
Definition loaded_contact : ContactRecord.t :=
  ContactRecord.Build 1 ZEROVEC3f ZEROVEC3f (Vec3 1 0 0).

(** A material point with the position and the motion of [moving_particle]. *)
Definition moving_point : MPMParticle.t :=
  MPMParticle.Build (Vec3 0 0 1) (Vec3 1 0 0) 1 ZEROVEC3f.

(** * Properties *)

(** ** The error monad and the stores *)

Lemma bind_Ok {A B : Type} (r : result A) (k : A -> result B) (b : B) :
  bind r k = Ok b -> exists a, r = Ok a /\ k a = Ok b.
Proof. destruct r as [a|e]; simpl; [eauto | discriminate]. Qed.

Lemma read_Some {A : Type} (store : list A) (i : nat) (a : A) :
  store !! i = Some a -> read store i = Ok a.
Proof. intros H. unfold read. by rewrite H. Qed.

Lemma write_Some {A : Type} (store : list A) (i : nat) (f : A -> A) (a : A) :
  store !! i = Some a -> write store i f = Ok (<[i := f a]> store).
Proof. intros H. unfold write. by rewrite H. Qed.

Lemma write_Ok {A : Type} (store store' : list A) (i : nat) (f : A -> A) :
  write store i f = Ok store' ->
  exists a, store !! i = Some a /\ store' = <[i := f a]> store.
Proof.
  unfold write. destruct (store !! i) as [a|] eqn:E; [|discriminate].
  intros [= <-]. eauto.
Qed.

(** ** The property table *)

Section PropertyTableFacts.

Import LinearModel.

Lemma write_surfaceProps_Some self componousID f p :
  surfaceProps self !! componousID = Some p ->
  write_surfaceProps self componousID f
  = Ok {| surfaceProps := <[componousID := f p]> (surfaceProps self);
          cplist := cplist self; hist_cplist := hist_cplist self |}.
Proof. intros H. unfold write_surfaceProps. by rewrite (write_Some _ _ _ _ H). Qed.

Lemma write_surfaceProps_Ok self self' componousID f :
  write_surfaceProps self componousID f = Ok self' ->
  exists p, surfaceProps self !! componousID = Some p
    /\ surfaceProps self' = <[componousID := f p]> (surfaceProps self)
    /\ cplist self' = cplist self /\ hist_cplist self' = hist_cplist self.
Proof.
  unfold write_surfaceProps. intros H.
  apply bind_Ok in H as (table & Hw & [= <-]).
  apply write_Ok in Hw as (p & Hp & ->). eauto.
Qed.

(** Writing the same record to two slots leaves it in both. *)
Lemma write_twice_lookup self self1 self2 i j (p : LinearSurfaceProperty.t) :
  write_surfaceProps self i (fun _ => p) = Ok self1 ->
  write_surfaceProps self1 j (fun _ => p) = Ok self2 ->
  surfaceProps self2 !! i = Some p /\ surfaceProps self2 !! j = Some p.
Proof.
  intros H1 H2.
  apply write_surfaceProps_Ok in H1 as (p1 & Hp1 & E1 & _).
  apply write_surfaceProps_Ok in H2 as (p2 & Hp2 & E2 & _).
  apply lookup_lt_Some in Hp1, Hp2.
  rewrite E2, E1. rewrite E1, length_insert in Hp2.
  split.
  - destruct (decide (j = i)) as [->|Hne].
    + apply list_lookup_insert_eq. by rewrite length_insert.
    + rewrite list_lookup_insert_ne by done. by apply list_lookup_insert_eq.
  - apply list_lookup_insert_eq. by rewrite length_insert.
Qed.

End PropertyTableFacts.

(** C10.  Targeted property update.  For each of the five recognised
    property names, [update_property] on an existing slot returns normally,
    rewrites that one slot and nothing else (every other slot of the table,
    [cplist] and [hist_cplist] are as before), changes in the slot's record
    only the named field, and the named field becomes [old + value] when
    [override] is true and [value] when it is false.  A name that is none of
    the five leaves the model as it is. *)
Theorem update_property_frame :
  forall (self : LinearModel.t) (componousID : nat) (value : R) (override : bool),
    (forall (p : LinearSurfaceProperty.t) (f : property_field),
        LinearModel.surfaceProps self !! componousID = Some p ->
        exists (self' : LinearModel.t) (p' : LinearSurfaceProperty.t),
          LinearModel.update_property self componousID (property_name f) value override
            = Ok self'
          /\ LinearModel.surfaceProps self' !! componousID = Some p'
          /\ field_value f p' = (if override then field_value f p + value else value)
          /\ (forall g, g <> f -> field_value g p' = field_value g p)
          /\ (forall j, j <> componousID ->
                LinearModel.surfaceProps self' !! j = LinearModel.surfaceProps self !! j)
          /\ length (LinearModel.surfaceProps self') = length (LinearModel.surfaceProps self)
          /\ LinearModel.cplist self' = LinearModel.cplist self
          /\ LinearModel.hist_cplist self' = LinearModel.hist_cplist self)
    /\ (forall name : string,
          (forall f, name <> property_name f) ->
          LinearModel.update_property self componousID name value override = Ok self).
Proof.
  intros self componousID value override. split.
  - intros p f Hp.
    assert (Hlt : (componousID < length (LinearModel.surfaceProps self))%nat)
      by (eapply lookup_lt_Some; eauto).
    destruct f; unfold LinearModel.update_property; simpl;
      rewrite (write_surfaceProps_Some _ _ _ _ Hp);
      eexists; eexists; (split; [reflexivity|]); simpl;
      (split; [by apply list_lookup_insert_eq|]);
      (split; [destruct override; simpl; lra|]);
      (split; [intros g Hg; destruct g; simpl; congruence|]);
      (split; [intros j Hj; by apply list_lookup_insert_ne|]);
      (split; [apply length_insert|]); done.
  - intros name Hname. unfold LinearModel.update_property.
    repeat (case_decide;
            [ match goal with H : name = _ |- _ => exfalso end | ]);
      [ by apply (Hname NormalStiffness)
      | by apply (Hname TangentialStiffness)
      | by apply (Hname Friction)
      | by apply (Hname NormalViscousDamping)
      | by apply (Hname TangentialViscousDamping)
      | reflexivity ].
Qed.

(** Adding 0.25 to a friction coefficient of 0.5 gives 0.75 and leaves the
    stiffness. *)
Lemma update_property_frame_witness :
  exists self' p',
    LinearModel.update_property
      (LinearModel.Build [LinearSurfaceProperty.Build 100 300 0.5 0.1 0.2] [] [])
      0 (property_name Friction) 0.25 true = Ok self'
    /\ LinearModel.surfaceProps self' !! 0%nat = Some p'
    /\ LinearSurfaceProperty.mu p' = 0.75
    /\ LinearSurfaceProperty.kn p' = 100.
Proof.
  destruct (proj1 (update_property_frame
                     (LinearModel.Build [LinearSurfaceProperty.Build 100 300 0.5 0.1 0.2] [] [])
                     0 0.25 true)
              (LinearSurfaceProperty.Build 100 300 0.5 0.1 0.2) Friction eq_refl)
    as (self' & p' & Hcall & Hslot & Hfield & Hother & _).
  exists self', p'. split; [exact Hcall|]. split; [exact Hslot|]. split.
  - simpl in Hfield. lra.
  - apply (Hother NormalStiffness). discriminate.
Defined.

(** The reads of [inherit_surface_property] succeed on property sets that
    hold the five entries. *)
Lemma GetEssential_Some (dictionary : gmap string R) (key : string) (value : R) :
  dictionary !! key = Some value -> GetEssential dictionary key = Ok value.
Proof. intros H. unfold GetEssential. by rewrite H. Qed.

(** C7.  Property inheritance.  For two property sets that hold the five
    entries and material ids whose slots exist, [inherit_surface_property]
    returns normally and leaves in the slots of both orderings a record with
    the stiffnesses [2*k1*k2/(k1+k2)] (the effective value as the spec
    gives it) and with friction and damping ratios the minimum of the two
    inputs. *)
Theorem inherit_surface_property_combines :
  forall (get_componousID : nat -> nat -> nat -> nat) (self : LinearModel.t)
         (max_material_num materialID1 materialID2 : nat)
         (property1 property2 : gmap string R)
         (kn1 ks1 mu1 dnratio1 dsratio1 kn2 ks2 mu2 dnratio2 dsratio2 : R),
    property1 !! "NormalStiffness"%string = Some kn1 ->
    property1 !! "TangentialStiffness"%string = Some ks1 ->
    property1 !! "Friction"%string = Some mu1 ->
    property1 !! "NormalViscousDamping"%string = Some dnratio1 ->
    property1 !! "TangentialViscousDamping"%string = Some dsratio1 ->
    property2 !! "NormalStiffness"%string = Some kn2 ->
    property2 !! "TangentialStiffness"%string = Some ks2 ->
    property2 !! "Friction"%string = Some mu2 ->
    property2 !! "NormalViscousDamping"%string = Some dnratio2 ->
    property2 !! "TangentialViscousDamping"%string = Some dsratio2 ->
    (get_componousID max_material_num materialID1 materialID2
       < length (LinearModel.surfaceProps self))%nat ->
    (get_componousID max_material_num materialID2 materialID1
       < length (LinearModel.surfaceProps self))%nat ->
    let combined :=
      {| LinearSurfaceProperty.kn := 2 * kn1 * kn2 / (kn1 + kn2);
         LinearSurfaceProperty.ks := 2 * ks1 * ks2 / (ks1 + ks2);
         LinearSurfaceProperty.mu := Rmin mu1 mu2;
         LinearSurfaceProperty.ndratio := Rmin dnratio1 dnratio2;
         LinearSurfaceProperty.sdratio := Rmin dsratio1 dsratio2 |} in
    exists self' : LinearModel.t,
      LinearModel.inherit_surface_property get_componousID self max_material_num
        materialID1 materialID2 property1 property2
      = Ok (self', get_componousID max_material_num materialID2 materialID1)
      /\ LinearModel.surfaceProps self'
           !! get_componousID max_material_num materialID1 materialID2 = Some combined
      /\ LinearModel.surfaceProps self'
           !! get_componousID max_material_num materialID2 materialID1 = Some combined.
Proof.
  intros gid self n m1 m2 property1 property2 kn1 ks1 mu1 dn1 ds1 kn2 ks2 mu2 dn2 ds2
    H1 H2 H3 H4 H5 H6 H7 H8 H9 H10 Hlt12 Hlt21 combined.
  unfold LinearModel.inherit_surface_property.
  rewrite (GetEssential_Some _ _ _ H1), (GetEssential_Some _ _ _ H2),
    (GetEssential_Some _ _ _ H3), (GetEssential_Some _ _ _ H4),
    (GetEssential_Some _ _ _ H5), (GetEssential_Some _ _ _ H6),
    (GetEssential_Some _ _ _ H7), (GetEssential_Some _ _ _ H8),
    (GetEssential_Some _ _ _ H9), (GetEssential_Some _ _ _ H10).
  cbn [bind]. unfold EffectiveValue, LinearSurfaceProperty.add_surface_property.
  fold combined.
  destruct (lookup_lt_is_Some_2 _ _ Hlt12) as [p12 Hp12].
  destruct (decide (m1 = m2)) as [->|Hne].
  - rewrite (write_surfaceProps_Some _ _ _ _ Hp12). cbn [bind].
    eexists. split; [reflexivity|]. cbn [LinearModel.surfaceProps].
    split; by apply list_lookup_insert_eq.
  - rewrite (write_surfaceProps_Some _ _ _ _ Hp12). cbn [bind].
    assert (Hlt21' : (gid n m2 m1 < length (<[gid n m1 m2 := combined]>
                                               (LinearModel.surfaceProps self)))%nat)
      by (by rewrite length_insert).
    destruct (lookup_lt_is_Some_2 _ _ Hlt21') as [p21 Hp21].
    rewrite (write_surfaceProps_Some _ (gid n m2 m1) _ p21) by exact Hp21.
    cbn [bind]. eexists. split; [reflexivity|]. cbn [LinearModel.surfaceProps].
    split.
    + destruct (decide (gid n m2 m1 = gid n m1 m2)) as [E|E].
      * rewrite E. apply list_lookup_insert_eq. by rewrite length_insert.
      * rewrite list_lookup_insert_ne by done. by apply list_lookup_insert_eq.
    + by apply list_lookup_insert_eq.
Qed.

(** Stiffnesses 100 and 300 combine to 150; friction and damping take the
    smaller value. *)
Lemma inherit_surface_property_combines_witness :
  exists (self' : LinearModel.t) (p : LinearSurfaceProperty.t),
    LinearModel.inherit_surface_property row_major two_material_model 2 0 1
      property_soft property_stiff = Ok (self', 2%nat)
    /\ LinearModel.surfaceProps self' !! 1%nat = Some p
    /\ LinearSurfaceProperty.kn p = 150
    /\ LinearSurfaceProperty.ks p = 150
    /\ LinearSurfaceProperty.mu p = 0.3
    /\ LinearSurfaceProperty.ndratio p = 0.1
    /\ LinearSurfaceProperty.sdratio p = 0.05.
Proof.
  destruct (inherit_surface_property_combines row_major two_material_model 2 0 1
              property_soft property_stiff 100 100 0.5 0.1 0.2 300 300 0.3 0.4 0.05
              eq_refl eq_refl eq_refl eq_refl eq_refl
              eq_refl eq_refl eq_refl eq_refl eq_refl
              ltac:(unfold row_major, two_material_model; simpl; lia)
              ltac:(unfold row_major, two_material_model; simpl; lia))
    as (self' & Hcall & H01 & _).
  exists self'. eexists. split; [exact Hcall|]. split; [exact H01|].
  cbn [LinearSurfaceProperty.kn LinearSurfaceProperty.ks LinearSurfaceProperty.mu
       LinearSurfaceProperty.ndratio LinearSurfaceProperty.sdratio].
  repeat split; try lra; unfold Rmin; destruct (Rle_dec _ _); lra.
Defined.

(** C8.  Symmetry of the property index.  After a call of
    [add_surface_property] or of [inherit_surface_property] with two
    different material ids that returns normally, the slot of
    [(materialID1, materialID2)] and the slot of [(materialID2, materialID1)]
    hold the same record, hence one equal in [kn], [ks], [mu], [ndratio] and
    [sdratio]; each slot holds its own copy, written by its own assignment.
    For [add_surface_property] the record is the one the property set
    describes. *)
Theorem property_index_symmetric :
  forall (get_componousID : nat -> nat -> nat -> nat) (self self' : LinearModel.t)
         (max_material_num materialID1 materialID2 componousID : nat),
    materialID1 <> materialID2 ->
    (forall property : gmap string R,
        LinearModel.add_surface_property get_componousID self max_material_num
          materialID1 materialID2 property = Ok (self', componousID) ->
        exists p : LinearSurfaceProperty.t,
          LinearModel.surfaceProps self'
            !! get_componousID max_material_num materialID1 materialID2 = Some p
          /\ LinearModel.surfaceProps self'
               !! get_componousID max_material_num materialID2 materialID1 = Some p
          /\ property !! "NormalStiffness"%string = Some (LinearSurfaceProperty.kn p)
          /\ property !! "TangentialStiffness"%string = Some (LinearSurfaceProperty.ks p)
          /\ property !! "Friction"%string = Some (LinearSurfaceProperty.mu p)
          /\ property !! "NormalViscousDamping"%string
             = Some (LinearSurfaceProperty.ndratio p)
          /\ property !! "TangentialViscousDamping"%string
             = Some (LinearSurfaceProperty.sdratio p))
    /\ (forall property1 property2 : gmap string R,
          LinearModel.inherit_surface_property get_componousID self max_material_num
            materialID1 materialID2 property1 property2 = Ok (self', componousID) ->
          exists p : LinearSurfaceProperty.t,
            LinearModel.surfaceProps self'
              !! get_componousID max_material_num materialID1 materialID2 = Some p
            /\ LinearModel.surfaceProps self'
                 !! get_componousID max_material_num materialID2 materialID1 = Some p).
Proof.
  intros gid self self' n m1 m2 cid Hne. split.
  - intros property Hcall. unfold LinearModel.add_surface_property in Hcall.
    apply bind_Ok in Hcall as (kn & Hkn & Hcall).
    apply bind_Ok in Hcall as (ks & Hks & Hcall).
    apply bind_Ok in Hcall as (mu & Hmu & Hcall).
    apply bind_Ok in Hcall as (nd & Hnd & Hcall).
    apply bind_Ok in Hcall as (sd & Hsd & Hcall).
    destruct (decide (m1 = m2)) as [|_]; [done|].
    apply bind_Ok in Hcall as (self1 & Hw1 & Hcall).
    apply bind_Ok in Hcall as (self2 & Hw2 & [= <- _]).
    exists (LinearSurfaceProperty.Build kn ks mu nd sd).
    destruct (write_twice_lookup _ _ _ _ _ _ Hw1 Hw2) as [Ha Hb].
    split; [exact Ha|]. split; [exact Hb|]. cbn.
    unfold GetEssential in *.
    repeat match goal with
           | H : match ?d !! ?k with _ => _ end = Ok _ |- _ =>
               destruct (d !! k) eqn:?; [injection H as ->|discriminate H]
           end.
    done.
  - intros property1 property2 Hcall.
    unfold LinearModel.inherit_surface_property in Hcall.
    do 10 (apply bind_Ok in Hcall as (? & _ & Hcall)).
    destruct (decide (m1 = m2)) as [|_]; [done|].
    apply bind_Ok in Hcall as (self1 & Hw1 & Hcall).
    apply bind_Ok in Hcall as (self2 & Hw2 & [= <- _]).
    eexists. exact (write_twice_lookup _ _ _ _ _ _ Hw1 Hw2).
Qed.

(** Materials 0 and 1 of two: slots 1 and 2 hold the record of the set. *)
Lemma property_index_symmetric_witness :
  exists (self' : LinearModel.t) (p : LinearSurfaceProperty.t),
    LinearModel.add_surface_property row_major two_material_model 2 0 1 property_soft
      = Ok (self', 2%nat)
    /\ LinearModel.surfaceProps self' !! 1%nat = Some p
    /\ LinearModel.surfaceProps self' !! 2%nat = Some p
    /\ LinearSurfaceProperty.kn p = 100.
Proof.
  eexists. 
  assert (Hcall : LinearModel.add_surface_property row_major two_material_model 2 0 1
                    property_soft
                  = Ok (LinearModel.Build
                          [LinearSurfaceProperty.Build 0 0 0 0 0;
                           LinearSurfaceProperty.Build 100 100 0.5 0.1 0.2;
                           LinearSurfaceProperty.Build 100 100 0.5 0.1 0.2;
                           LinearSurfaceProperty.Build 0 0 0 0 0] [] [], 2%nat))
    by reflexivity.
  destruct (proj1 (property_index_symmetric row_major two_material_model _ 2 0 1 2
                     ltac:(discriminate)) property_soft Hcall)
    as (p & H01 & H10 & Hkn & _).
  exists p. split; [exact Hcall|]. split; [exact H01|]. split; [exact H10|].
  change (property_soft !! "NormalStiffness"%string) with (Some 100) in Hkn.
  by injection Hkn.
Defined.

(** ** Rebuilding from a saved contact list *)

(** C6.  Capacity enforcement of the rebuild.  [rebuild_ppcontact_list] and
    [rebuild_pwcontact_list] raise a runtime error exactly when the number of
    restored pairs ([DstID.shape[0]]) exceeds the capacity of [cplist]; they
    return normally otherwise; and when they raise, [self] (with its history
    store [hist_cplist]) and [pcontact] (with its history count tables) are
    as they were before the call. *)
Theorem rebuild_capacity_enforced :
  forall (contact_info_t : Type)
         (rebuild_contact_list : contact_info_t -> list nat * nat * list nat * list vec3)
         (self : LinearModel.t) (pcontact : NeighborBase.t) (contact_info : contact_info_t),
    let restored := length (rebuild_contact_list contact_info).1.2 in
    let capacity := length (LinearModel.cplist self) in
    let pp := LinearModel.rebuild_ppcontact_list contact_info_t rebuild_contact_list
                self pcontact contact_info in
    let pw := LinearModel.rebuild_pwcontact_list contact_info_t rebuild_contact_list
                self pcontact contact_info in
    (((exists msg, pp.1.1 = Raise (RuntimeError msg)) <-> (restored > capacity)%nat)
     /\ ((restored <= capacity)%nat -> pp.1.1 = Ok tt)
     /\ (forall e, pp.1.1 = Raise e -> pp.1.2 = self /\ pp.2 = pcontact))
    /\ (((exists msg, pw.1.1 = Raise (RuntimeError msg)) <-> (restored > capacity)%nat)
        /\ ((restored <= capacity)%nat -> pw.1.1 = Ok tt)
        /\ (forall e, pw.1.1 = Raise e -> pw.1.2 = self /\ pw.2 = pcontact)).
Proof.
  intros T rebuild self pcontact info restored capacity pp pw.
  subst restored capacity pp pw.
  unfold LinearModel.rebuild_ppcontact_list, LinearModel.rebuild_pwcontact_list.
  destruct (rebuild info) as [[[object_object particle_number] DstID] oldTangOverlap].
  cbn [fst snd].
  destruct (gt_dec (length DstID) (length (LinearModel.cplist self))) as [Hgt|Hle].
  - cbn [fst snd]. split; (split; [|split]).
    all: try (split; [intros _; exact Hgt | intros _; eexists; reflexivity]).
    all: try (intros Hle; lia).
    all: intros e _; split; reflexivity.
  - split.
    + destruct (kernel_rebulid_history_contact_list _ _ _ _ _) as [hist counts].
      cbn [fst snd]. split; [|split].
      * split; [intros [msg Hmsg]; discriminate Hmsg | intros Hgt; contradiction].
      * reflexivity.
      * intros e He. discriminate He.
    + destruct (kernel_rebulid_history_contact_list _ _ _ _ _) as [hist counts].
      cbn [fst snd]. split; [|split].
      * split; [intros [msg Hmsg]; discriminate Hmsg | intros Hgt; contradiction].
      * reflexivity.
      * intros e He. discriminate He.
Qed.

(** ** Vectors *)

Lemma vec3_eq (a b : vec3) :
  vx a = vx b -> vy a = vy b -> vz a = vz b -> a = b.
Proof. destruct a, b; simpl; intros -> -> ->; reflexivity. Qed.

Lemma vdot_self_nonneg (a : vec3) : 0 <= vdot a a.
Proof. unfold vdot. nra. Qed.

Lemma vnorm_nonneg (a : vec3) : 0 <= vnorm a.
Proof. apply sqrt_pos. Qed.

Lemma vnorm_ZEROVEC3f : vnorm ZEROVEC3f = 0.
Proof.
  unfold vnorm, vdot, ZEROVEC3f; simpl.
  replace (0 * 0 + 0 * 0 + 0 * 0) with 0 by ring. apply sqrt_0.
Qed.

Lemma vnorm_eq_0 (a : vec3) : vnorm a = 0 -> a = ZEROVEC3f.
Proof.
  intros H. apply sqrt_eq_0 in H; [|apply vdot_self_nonneg].
  unfold vdot in H. apply vec3_eq; simpl; nra.
Qed.

Lemma vnorm_vscale (k : R) (a : vec3) : vnorm (vscale k a) = Rabs k * vnorm a.
Proof.
  unfold vnorm.
  replace (vdot (vscale k a) (vscale k a)) with (Rsqr k * vdot a a)
    by (unfold vdot, vscale, Rsqr; simpl; ring).
  rewrite sqrt_mult_alt by apply Rle_0_sqr.
  by rewrite sqrt_Rsqr_abs.
Qed.

Lemma vscale_vscale (j k : R) (a : vec3) : vscale j (vscale k a) = vscale (j * k) a.
Proof. apply vec3_eq; simpl; ring. Qed.

Lemma vscale_0 (a : vec3) : vscale 0 a = ZEROVEC3f.
Proof. apply vec3_eq; simpl; ring. Qed.

(** A vector scaled to the length [l] has the length [l]. *)
Lemma vnorm_rescaled (l : R) (a : vec3) :
  0 <= l -> vnorm a <> 0 -> vnorm (vscale (l / vnorm a) a) = l.
Proof.
  intros Hl Ha. rewrite vnorm_vscale.
  pose proof (vnorm_nonneg a).
  rewrite Rabs_right.
  - field. exact Ha.
  - apply Rle_ge. apply Rmult_le_pos; [exact Hl|].
    apply Rlt_le, Rinv_0_lt_compat. lra.
Qed.

(** ** The force law *)

Section ForceLawFacts.

Import LinearSurfaceProperty.

Lemma friction_limit_nonneg (self : t) (normal : R) :
  0 <= mu self -> 0 <= friction_limit self normal.
Proof.
  intros H. unfold friction_limit.
  apply Rmult_le_pos; [exact H | apply Rabs_pos].
Qed.

(** A trial force longer than a nonnegative limit is not the zero vector,
    and the stiffness it was computed with is not zero. *)
Lemma trial_force_slip_nonzero (self : t) (tangOverTemp : vec3) (fric : R) :
  0 <= fric -> vnorm (trial_force self tangOverTemp) > fric ->
  vnorm (trial_force self tangOverTemp) <> 0 /\ ks self <> 0.
Proof.
  intros Hfric Hslip. split; [lra|].
  intros Hks. unfold trial_force in Hslip.
  rewrite Hks, Ropp_0, vscale_0, vnorm_ZEROVEC3f in Hslip. lra.
Qed.

Lemma return_mapping_stick (self : t) (fric : R) (trial_ft damping tangOverTemp : vec3) :
  vnorm trial_ft <= fric ->
  return_mapping self fric trial_ft damping tangOverTemp
  = Ok (vadd trial_ft damping, tangOverTemp).
Proof.
  intros H. unfold return_mapping.
  destruct (Rgt_dec (vnorm trial_ft) fric); [lra | reflexivity].
Qed.

Lemma return_mapping_slip (self : t) (fric : R) (trial_ft damping tangOverTemp : vec3) :
  vnorm trial_ft > fric -> vnorm trial_ft <> 0 -> ks self <> 0 ->
  return_mapping self fric trial_ft damping tangOverTemp
  = Ok (vscale (fric / vnorm trial_ft) trial_ft,
        vscale (- / ks self) (vscale (fric / vnorm trial_ft) trial_ft)).
Proof.
  intros Hslip Hnorm Hks. unfold return_mapping, normalized, vdiv.
  destruct (Rgt_dec (vnorm trial_ft) fric); [|lra].
  destruct (Req_dec_T (vnorm trial_ft) 0); [contradiction|]. cbn [bind].
  destruct (Req_dec_T (ks self) 0); [contradiction|]. cbn [bind].
  f_equal. f_equal.
  - apply vec3_eq; simpl; unfold Rdiv; ring.
  - apply vec3_eq; simpl; unfold Rdiv; ring.
Qed.

(** The two regimes of the force law, for a nonnegative friction
    coefficient: it never faults, and its result is the one or the other. *)
Lemma force_law_regimes (self : t) (m_eff gapn : R) (norm v_rel : vec3) (dt : R)
    (tangOverlapOld : vec3) :
  0 <= mu self ->
  let vs := tangential_velocity v_rel norm in
  let normal := normal_scalar self m_eff gapn (vdot v_rel norm) in
  let tangOverTemp := trial_overlap vs dt tangOverlapOld norm in
  let trial_ft := trial_force self tangOverTemp in
  let fric := friction_limit self normal in
  (vnorm trial_ft <= fric
   /\ force_law self m_eff gapn norm v_rel dt tangOverlapOld
      = Ok (vscale normal norm, vadd trial_ft (tangential_damping self m_eff vs),
            tangOverTemp))
  \/ (vnorm trial_ft > fric /\ vnorm trial_ft <> 0 /\ ks self <> 0
      /\ force_law self m_eff gapn norm v_rel dt tangOverlapOld
         = Ok (vscale normal norm, vscale (fric / vnorm trial_ft) trial_ft,
               vscale (- / ks self) (vscale (fric / vnorm trial_ft) trial_ft))).
Proof.
  intros Hmu vs normal tangOverTemp trial_ft fric.
  pose proof (friction_limit_nonneg self normal Hmu) as Hfric. fold fric in Hfric.
  unfold force_law. fold vs normal tangOverTemp trial_ft fric.
  destruct (Rle_or_lt (vnorm trial_ft) fric) as [Hstick|Hslip].
  - left. split; [exact Hstick|].
    by rewrite (return_mapping_stick _ _ _ _ _ Hstick).
  - right. apply Rlt_gt in Hslip.
    destruct (trial_force_slip_nonzero self tangOverTemp fric Hfric Hslip) as [Hn Hk].
    fold trial_ft in Hn.
    split; [exact Hslip|]. split; [exact Hn|]. split; [exact Hk|].
    by rewrite (return_mapping_slip _ _ _ _ _ Hslip Hn Hk).
Qed.

End ForceLawFacts.

(** ** The assemblers *)

Section AssemblerFacts.

Import LinearSurfaceProperty.

(** What [_particle_particle_force_assemble] returns, given the result of
    the force law. *)
Lemma particle_particle_assemble_result
    (self : t) (nc end1 end2 : nat) (gapn : R) (norm cpos : vec3) (dt : R)
    (particle : list Particle.t) (cplist : list ContactRecord.t)
    (p1 p2 : Particle.t) (c : ContactRecord.t) (normal_force tangential_force tangOverTemp : vec3) :
  particle !! end1 = Some p1 -> particle !! end2 = Some p2 -> cplist !! nc = Some c ->
  force_law self (EffectiveValue (Particle.m p1) (Particle.m p2)) gapn norm
    (particle_particle_v_rel p1 p2 cpos) dt (ContactRecord.oldTangOverlap c)
  = Ok (normal_force, tangential_force, tangOverTemp) ->
  let Ftotal := vadd normal_force tangential_force in
  let moment := vcross tangential_force norm in
  let particle1 :=
    <[end1 := Particle._update_contact_interaction p1 Ftotal
                (vscale (Particle.rad p1 + 0.5 * gapn) moment)]> particle in
  exists p2' : Particle.t,
    particle1 !! end2 = Some p2'
    /\ _particle_particle_force_assemble self nc end1 end2 gapn norm cpos dt particle cplist
       = Ok (<[end2 := Particle._update_contact_interaction p2' (vneg Ftotal)
                         (vscale (Particle.rad p2 + 0.5 * gapn) moment)]> particle1,
             <[nc := ContactRecord._set_contact c normal_force tangential_force
                       tangOverTemp]> cplist).
Proof.
  intros H1 H2 Hc Hlaw Ftotal moment particle1.
  assert (Hlt : (end2 < length particle1)%nat).
  { subst particle1. rewrite length_insert. eapply lookup_lt_Some; eauto. }
  destruct (lookup_lt_is_Some_2 _ _ Hlt) as [p2' Hp2'].
  exists p2'. split; [exact Hp2'|].
  unfold _particle_particle_force_assemble.
  rewrite (read_Some _ _ _ H1), (read_Some _ _ _ H2). cbn [bind].
  rewrite (read_Some _ _ _ Hc). cbn [bind].
  rewrite Hlaw. cbn [bind fst snd].
  rewrite (write_Some _ _ _ _ Hc). cbn [bind].
  rewrite (write_Some _ _ _ _ H1). cbn [bind].
  fold Ftotal moment particle1.
  rewrite (write_Some _ _ _ _ Hp2'). reflexivity.
Qed.

Lemma coupled_particle_assemble_result
    (self : t) (nc end1 end2 : nat) (gapn : R) (norm cpos : vec3) (dt : R)
    (particle1 : list CoupledParticle.t) (particle2 : list Particle.t)
    (cplist : list HistoryRecord.t)
    (p1 : CoupledParticle.t) (p2 : Particle.t) (c : HistoryRecord.t)
    (normal_force tangential_force tangOverTemp : vec3) :
  particle1 !! end1 = Some p1 -> particle2 !! end2 = Some p2 -> cplist !! nc = Some c ->
  force_law self (EffectiveValue (CoupledParticle.m p1) (Particle.m p2)) gapn norm
    (coupled_particle_v_rel p1 p2 cpos) dt (HistoryRecord.oldTangOverlap c)
  = Ok (normal_force, tangential_force, tangOverTemp) ->
  let Ftotal := vadd normal_force tangential_force in
  _coupled_particle_force_assemble self nc end1 end2 gapn norm cpos dt
    particle1 particle2 cplist
  = Ok (<[end1 := CoupledParticle._update_contact_interaction p1 Ftotal]> particle1,
        <[end2 := Particle._update_contact_interaction p2 (vneg Ftotal)
                    (vcross Ftotal (vsub cpos (Particle.x p2)))]> particle2,
        <[nc := HistoryRecord._set_contact c tangOverTemp]> cplist).
Proof.
  intros H1 H2 Hc Hlaw Ftotal.
  unfold _coupled_particle_force_assemble.
  rewrite (read_Some _ _ _ H1), (read_Some _ _ _ H2). cbn [bind].
  rewrite (read_Some _ _ _ Hc). cbn [bind].
  rewrite Hlaw. cbn [bind fst snd].
  rewrite (write_Some _ _ _ _ Hc). cbn [bind].
  rewrite (write_Some _ _ _ _ H1). cbn [bind].
  rewrite (write_Some _ _ _ _ H2). reflexivity.
Qed.

Lemma particle_wall_assemble_result
    (self : t) (nc end1 end2 : nat) (distance gapn : R) (norm cpos : vec3) (dt : R)
    (particle : list Particle.t) (wall : list Wall.t) (cplist : list ContactRecord.t)
    (p1 : Particle.t) (wl : Wall.t) (c : ContactRecord.t)
    (normal_force tangential_force tangOverTemp : vec3) :
  particle !! end1 = Some p1 -> wall !! end2 = Some wl -> cplist !! nc = Some c ->
  force_law self (Particle.m p1) gapn norm (particle_wall_v_rel p1 wl cpos) dt
    (ContactRecord.oldTangOverlap c)
  = Ok (normal_force, tangential_force, tangOverTemp) ->
  let fraction := Rabs (Wall.processCircleShape wl (Particle.x p1) distance (- gapn)) in
  let Ftotal := vscale fraction (vadd normal_force tangential_force) in
  let resultant_momentum := vscale fraction (vcross Ftotal (vsub (Particle.x p1) cpos)) in
  _particle_wall_force_assemble self nc end1 end2 distance gapn norm cpos dt
    particle wall cplist
  = Ok (<[end1 := Particle._update_contact_interaction p1 Ftotal resultant_momentum]>
          particle,
        <[nc := ContactRecord._set_contact c (vscale fraction normal_force)
                  (vscale fraction tangential_force) tangOverTemp]> cplist).
Proof.
  intros H1 H2 Hc Hlaw fraction Ftotal resultant_momentum.
  unfold _particle_wall_force_assemble.
  rewrite (read_Some _ _ _ H1), (read_Some _ _ _ H2). cbn [bind].
  rewrite (read_Some _ _ _ Hc). cbn [bind].
  rewrite Hlaw. cbn [bind fst snd].
  rewrite (write_Some _ _ _ _ Hc). cbn [bind].
  rewrite (write_Some _ _ _ _ H1). reflexivity.
Qed.

End AssemblerFacts.

Section FrictionCap.

Import LinearSurfaceProperty.

Lemma vdiv_nonzero (a : vec3) (k : R) :
  k <> 0 -> vdiv a k = Ok (vscale (/ k) a).
Proof.
  intros Hk. unfold vdiv. destruct (Req_dec_T k 0); [contradiction|].
  f_equal. apply vec3_eq; simpl; unfold Rdiv; ring.
Qed.

(** The result of the force law in the words of the friction cap: the
    stick regime keeps the trial force, its damping and the trial overlap;
    the slip regime clips the trial force to the limit and stores the
    overlap that gives the clipped force back. *)
Lemma force_law_friction_cap (self : t) (m_eff gapn : R) (norm v_rel : vec3) (dt : R)
    (tangOverlapOld : vec3) :
  0 <= mu self ->
  let vs := tangential_velocity v_rel norm in
  let normal := normal_scalar self m_eff gapn (vdot v_rel norm) in
  let tangOverTemp := trial_overlap vs dt tangOverlapOld norm in
  let trial_ft := trial_force self tangOverTemp in
  let fric := friction_limit self normal in
  exists tangential_force tangOverTemp' : vec3,
    force_law self m_eff gapn norm v_rel dt tangOverlapOld
    = Ok (vscale normal norm, tangential_force, tangOverTemp')
    /\ (vnorm trial_ft <= fric ->
        tangential_force = vadd trial_ft (tangential_damping self m_eff vs)
        /\ tangOverTemp' = tangOverTemp)
    /\ (vnorm trial_ft > fric ->
        vnorm trial_ft <> 0 /\ ks self <> 0
        /\ tangential_force = vscale (fric / vnorm trial_ft) trial_ft
        /\ 0 <= fric / vnorm trial_ft
        /\ vnorm tangential_force = fric
        /\ vdiv (vneg tangential_force) (ks self) = Ok tangOverTemp'
        /\ trial_force self tangOverTemp' = tangential_force).
Proof.
  intros Hmu vs normal tangOverTemp trial_ft fric.
  pose proof (friction_limit_nonneg self normal Hmu) as Hfric. fold fric in Hfric.
  destruct (force_law_regimes self m_eff gapn norm v_rel dt tangOverlapOld Hmu)
    as [[Hstick Hlaw]|(Hslip & Hn & Hk & Hlaw)];
    fold vs normal tangOverTemp trial_ft fric in Hlaw |- *.
  - eexists. eexists. split; [exact Hlaw|]. split; [done|].
    fold vs normal tangOverTemp trial_ft fric in Hstick. intros Hslip. lra.
  - fold vs normal tangOverTemp trial_ft fric in Hslip, Hn.
    eexists. eexists. split; [exact Hlaw|]. split; [intros Hstick; lra|].
    intros _. pose proof (vnorm_nonneg trial_ft) as Hpos.
    split; [exact Hn|]. split; [exact Hk|]. split; [reflexivity|].
    split.
    { apply Rmult_le_pos; [exact Hfric|]. apply Rlt_le, Rinv_0_lt_compat. lra. }
    split; [by apply vnorm_rescaled|].
    split.
    + rewrite (vdiv_nonzero _ _ Hk). f_equal.
      apply vec3_eq; simpl; ring.
    + unfold trial_force. rewrite vscale_vscale.
      replace (- ks self * - / ks self) with 1 by (field; exact Hk).
      apply vec3_eq; simpl; ring.
Qed.

End FrictionCap.

(** ** The claims on the force law *)

(** C1.  Friction cap.  For a nonnegative friction coefficient, the
    particle-particle and the particle-wall assembler return normally on a
    contact whose records exist, and the tangential force they compute is:
    the trial force plus the tangential damping force when the norm of the
    trial force is at most [mu * |normal|] (stick); a vector of norm exactly
    [mu * |normal|] that is a nonnegative multiple of the trial force when
    the norm of the trial force exceeds that limit (slip).  Here [normal] is
    the spring term plus the damping term of the normal force.  The
    particle-particle assembler stores this force in the contact record; the
    particle-wall assembler stores it multiplied by the coverage fraction. *)
Theorem friction_cap_return_mapping :
  (forall (self : LinearSurfaceProperty.t) (nc end1 end2 : nat) (gapn : R)
          (norm cpos : vec3) (dt : R)
          (particle : list Particle.t) (cplist : list ContactRecord.t)
          (p1 p2 : Particle.t) (c : ContactRecord.t),
      particle !! end1 = Some p1 -> particle !! end2 = Some p2 ->
      cplist !! nc = Some c ->
      0 <= LinearSurfaceProperty.mu self ->
      let m_eff := EffectiveValue (Particle.m p1) (Particle.m p2) in
      let v_rel := LinearSurfaceProperty.particle_particle_v_rel p1 p2 cpos in
      let vs := LinearSurfaceProperty.tangential_velocity v_rel norm in
      let trial_ft :=
        LinearSurfaceProperty.trial_force self
          (LinearSurfaceProperty.trial_overlap vs dt (ContactRecord.oldTangOverlap c) norm) in
      let fric :=
        LinearSurfaceProperty.friction_limit self
          (LinearSurfaceProperty.normal_scalar self m_eff gapn (vdot v_rel norm)) in
      exists (particle' : list Particle.t) (cplist' : list ContactRecord.t)
             (c' : ContactRecord.t),
        LinearSurfaceProperty._particle_particle_force_assemble
          self nc end1 end2 gapn norm cpos dt particle cplist = Ok (particle', cplist')
        /\ cplist' !! nc = Some c'
        /\ (vnorm trial_ft <= fric ->
            ContactRecord.tangential_force c'
            = vadd trial_ft (LinearSurfaceProperty.tangential_damping self m_eff vs))
        /\ (vnorm trial_ft > fric ->
            vnorm (ContactRecord.tangential_force c') = fric
            /\ 0 <= fric / vnorm trial_ft
            /\ ContactRecord.tangential_force c' = vscale (fric / vnorm trial_ft) trial_ft))
  /\ (forall (self : LinearSurfaceProperty.t) (nc end1 end2 : nat) (distance gapn : R)
             (norm cpos : vec3) (dt : R)
             (particle : list Particle.t) (wall : list Wall.t)
             (cplist : list ContactRecord.t)
             (p1 : Particle.t) (wl : Wall.t) (c : ContactRecord.t),
         particle !! end1 = Some p1 -> wall !! end2 = Some wl ->
         cplist !! nc = Some c ->
         0 <= LinearSurfaceProperty.mu self ->
         let m_eff := Particle.m p1 in
         let v_rel := LinearSurfaceProperty.particle_wall_v_rel p1 wl cpos in
         let vs := LinearSurfaceProperty.tangential_velocity v_rel norm in
         let trial_ft :=
           LinearSurfaceProperty.trial_force self
             (LinearSurfaceProperty.trial_overlap vs dt (ContactRecord.oldTangOverlap c) norm) in
         let fric :=
           LinearSurfaceProperty.friction_limit self
             (LinearSurfaceProperty.normal_scalar self m_eff gapn (vdot v_rel norm)) in
         let fraction :=
           Rabs (Wall.processCircleShape wl (Particle.x p1) distance (- gapn)) in
         exists (particle' : list Particle.t) (cplist' : list ContactRecord.t)
                (c' : ContactRecord.t) (tangential_force : vec3),
           LinearSurfaceProperty._particle_wall_force_assemble
             self nc end1 end2 distance gapn norm cpos dt particle wall cplist
           = Ok (particle', cplist')
           /\ cplist' !! nc = Some c'
           /\ ContactRecord.tangential_force c' = vscale fraction tangential_force
           /\ (vnorm trial_ft <= fric ->
               tangential_force
               = vadd trial_ft (LinearSurfaceProperty.tangential_damping self m_eff vs))
           /\ (vnorm trial_ft > fric ->
               vnorm tangential_force = fric
               /\ 0 <= fric / vnorm trial_ft
               /\ tangential_force = vscale (fric / vnorm trial_ft) trial_ft)).
Proof.
  split.
  - intros self nc end1 end2 gapn norm cpos dt particle cplist p1 p2 c
      H1 H2 Hc Hmu m_eff v_rel vs trial_ft fric.
    destruct (force_law_friction_cap self m_eff gapn norm v_rel dt
                (ContactRecord.oldTangOverlap c) Hmu)
      as (tf & tmp & Hlaw & Hstick & Hslip).
    destruct (particle_particle_assemble_result self nc end1 end2 gapn norm cpos dt
                particle cplist p1 p2 c _ tf tmp H1 H2 Hc Hlaw)
      as (p2' & _ & Hcall).
    eexists. eexists. eexists. split; [exact Hcall|].
    split; [apply list_lookup_insert_eq; eapply lookup_lt_Some; eauto|].
    cbn [ContactRecord._set_contact ContactRecord.tangential_force].
    split.
    + intros H. by destruct (Hstick H).
    + intros H. destruct (Hslip H) as (_ & _ & Htf & Hpos & Hn & _). done.
  - intros self nc end1 end2 distance gapn norm cpos dt particle wall cplist p1 wl c
      H1 H2 Hc Hmu m_eff v_rel vs trial_ft fric fraction.
    destruct (force_law_friction_cap self m_eff gapn norm v_rel dt
                (ContactRecord.oldTangOverlap c) Hmu)
      as (tf & tmp & Hlaw & Hstick & Hslip).
    pose proof (particle_wall_assemble_result self nc end1 end2 distance gapn norm cpos dt
                  particle wall cplist p1 wl c _ tf tmp H1 H2 Hc Hlaw) as Hcall.
    eexists. eexists. eexists. exists tf. split; [exact Hcall|].
    split; [apply list_lookup_insert_eq; eapply lookup_lt_Some; eauto|].
    cbn [ContactRecord._set_contact ContactRecord.tangential_force].
    split; [reflexivity|]. split.
    + intros H. by destruct (Hstick H).
    + intros H. destruct (Hslip H) as (_ & _ & Htf & Hpos & Hn & _). done.
Qed.

(** ** The sample contact, evaluated *)

Section SampleContact.

Import LinearSurfaceProperty.

(** Vector equations over the sample data, component by component. *)
Ltac sample_ring :=
  cbv [vx vy vz vadd vsub vneg vscale vdot vcross ZEROVEC3f upward origin
       tangential_velocity tangOverlapRot trial_force tangential_damping
       particle_particle_v_rel coupled_particle_v_rel particle_wall_v_rel
       moving_particle resting_particle moving_body half_covered_wall
       sticky slippery kn ks mu ndratio sdratio
       Particle.x Particle.v Particle.w CoupledParticle.v Wall._get_velocity];
  first [ring | lra].

Lemma carried_overlap_no_length (tangOverlapOld norm : vec3) :
  vnorm tangOverlapOld = 0 -> carried_overlap tangOverlapOld norm = ZEROVEC3f.
Proof. intros H. unfold carried_overlap. rewrite H. apply vscale_0. Qed.

Lemma carried_overlap_no_projection (tangOverlapOld norm : vec3) :
  vnorm (tangOverlapRot tangOverlapOld norm) = 0 ->
  carried_overlap tangOverlapOld norm = ZEROVEC3f.
Proof.
  intros H. unfold carried_overlap, Normalize.
  destruct (Req_dec_T _ 0); [|contradiction].
  apply vec3_eq; sample_ring.
Qed.

Lemma sample_pp_v_rel :
  particle_particle_v_rel moving_particle resting_particle origin = Vec3 1 0 0.
Proof. apply vec3_eq; sample_ring. Qed.

Lemma sample_coupled_v_rel :
  coupled_particle_v_rel moving_body resting_particle origin = Vec3 1 0 0.
Proof. apply vec3_eq; sample_ring. Qed.

Lemma sample_pw_v_rel :
  particle_wall_v_rel moving_particle half_covered_wall origin = Vec3 1 0 0.
Proof. apply vec3_eq; sample_ring. Qed.

Lemma sample_vn : vdot (Vec3 1 0 0) upward = 0.
Proof. sample_ring. Qed.

Lemma sample_vs : tangential_velocity (Vec3 1 0 0) upward = Vec3 1 0 0.
Proof. apply vec3_eq; sample_ring. Qed.

Lemma sample_trial_overlap : trial_overlap (Vec3 1 0 0) 1 ZEROVEC3f upward = Vec3 1 0 0.
Proof.
  unfold trial_overlap.
  rewrite (carried_overlap_no_length _ _ vnorm_ZEROVEC3f).
  apply vec3_eq; sample_ring.
Qed.

Lemma sample_trial_force (self : t) :
  ks self = 1 -> trial_force self (Vec3 1 0 0) = Vec3 (-1) 0 0.
Proof. intros H. unfold trial_force. rewrite H. apply vec3_eq; sample_ring. Qed.

Lemma sample_normal (self : t) (m_eff : R) :
  kn self = 1 -> ndratio self = 0 -> normal_scalar self m_eff (-1) 0 = 1.
Proof. intros Hk Hd. unfold normal_scalar. rewrite Hk, Hd. ring. Qed.

Lemma sample_damping (self : t) (m_eff : R) (vs : vec3) :
  sdratio self = 0 -> tangential_damping self m_eff vs = ZEROVEC3f.
Proof. intros H. unfold tangential_damping. rewrite H. apply vec3_eq; sample_ring. Qed.

Lemma sample_friction_limit (self : t) : friction_limit self 1 = mu self.
Proof. unfold friction_limit. rewrite Rabs_R1. ring. Qed.

Lemma sample_trial_norm : vnorm (Vec3 (-1) 0 0) = 1.
Proof.
  unfold vnorm. replace (vdot (Vec3 (-1) 0 0) (Vec3 (-1) 0 0)) with 1
    by (unfold vdot; simpl; ring).
  apply sqrt_1.
Qed.

(** With friction coefficient 2 the sample contact sticks ... *)
Lemma sample_force_law_sticky (m_eff : R) :
  force_law sticky m_eff (-1) upward (Vec3 1 0 0) 1 ZEROVEC3f
  = Ok (upward, Vec3 (-1) 0 0, Vec3 1 0 0).
Proof.
  unfold force_law.
  rewrite sample_vn, sample_vs, sample_trial_overlap.
  rewrite (sample_trial_force sticky eq_refl), (sample_normal sticky m_eff eq_refl eq_refl).
  rewrite (sample_damping sticky m_eff _ eq_refl), sample_friction_limit.
  rewrite return_mapping_stick by (rewrite sample_trial_norm; simpl; lra).
  cbn [bind fst snd]. f_equal. f_equal. f_equal.
  - apply vec3_eq; sample_ring.
  - apply vec3_eq; sample_ring.
Qed.

(** ... and with friction coefficient 0.5 it slips. *)
Lemma sample_force_law_slippery (m_eff : R) :
  force_law slippery m_eff (-1) upward (Vec3 1 0 0) 1 ZEROVEC3f
  = Ok (upward, Vec3 (-0.5) 0 0, Vec3 0.5 0 0).
Proof.
  unfold force_law.
  rewrite sample_vn, sample_vs, sample_trial_overlap.
  rewrite (sample_trial_force slippery eq_refl),
    (sample_normal slippery m_eff eq_refl eq_refl).
  rewrite (sample_damping slippery m_eff _ eq_refl), sample_friction_limit.
  rewrite return_mapping_slip;
    [ | rewrite sample_trial_norm; simpl; lra
      | rewrite sample_trial_norm; lra
      | simpl; lra ].
  cbn [bind fst snd]. rewrite sample_trial_norm. f_equal. f_equal. f_equal.
  - apply vec3_eq; sample_ring.
  - apply vec3_eq; sample_ring.
  - apply vec3_eq; sample_ring.
Qed.

End SampleContact.

(** The sample contact with friction coefficient 2 sticks: the trial force
    [(-1, 0, 0)] is stored. *)
Lemma friction_cap_return_mapping_witness :
  exists (particle' : list Particle.t) (cplist' : list ContactRecord.t)
         (c' : ContactRecord.t),
    LinearSurfaceProperty._particle_particle_force_assemble sticky 0 0 1 (-1) upward origin 1
      [moving_particle; resting_particle] [fresh_contact] = Ok (particle', cplist')
    /\ cplist' !! 0%nat = Some c'
    /\ ContactRecord.tangential_force c' = Vec3 (-1) 0 0.
Proof.
  assert (Hmu : 0 <= LinearSurfaceProperty.mu sticky)
    by (cbv [sticky LinearSurfaceProperty.mu]; lra).
  destruct (proj1 friction_cap_return_mapping sticky 0%nat 0%nat 1%nat (-1) upward origin 1
              [moving_particle; resting_particle] [fresh_contact]
              moving_particle resting_particle fresh_contact
              eq_refl eq_refl eq_refl Hmu)
    as (particle' & cplist' & c' & Hcall & Hc' & Hstick & _).
  exists particle', cplist', c'. split; [exact Hcall|]. split; [exact Hc'|].
  change (ContactRecord.oldTangOverlap fresh_contact) with ZEROVEC3f in Hstick.
  rewrite sample_pp_v_rel, sample_vn, sample_vs, sample_trial_overlap in Hstick.
  rewrite (sample_trial_force sticky eq_refl) in Hstick.
  rewrite (sample_normal sticky _ eq_refl eq_refl) in Hstick.
  rewrite (sample_damping sticky _ _ eq_refl), sample_friction_limit in Hstick.
  rewrite Hstick.
  - apply vec3_eq; simpl; ring.
  - rewrite sample_trial_norm. cbv [sticky LinearSurfaceProperty.mu]. lra.
Defined.

Lemma vnorm_vneg (a : vec3) : vnorm (vneg a) = vnorm a.
Proof.
  unfold vnorm. f_equal. unfold vdot, vneg; simpl; ring.
Qed.

(** C5.  Overlap stored in the slip regime.  For a nonnegative friction
    coefficient and a positive tangential stiffness, a particle-particle
    contact whose trial force exceeds the friction limit gets as stored
    overlap minus the clipped tangential force divided by [ks]; the elastic
    law [-ks * overlap] applied to the stored overlap gives the clipped
    force back, and the norm of the stored overlap is [mu * |normal| / ks]. *)
Theorem slip_overlap_round_trip :
  forall (self : LinearSurfaceProperty.t) (nc end1 end2 : nat) (gapn : R)
         (norm cpos : vec3) (dt : R)
         (particle : list Particle.t) (cplist : list ContactRecord.t)
         (p1 p2 : Particle.t) (c : ContactRecord.t),
    particle !! end1 = Some p1 -> particle !! end2 = Some p2 ->
    cplist !! nc = Some c ->
    0 <= LinearSurfaceProperty.mu self ->
    0 < LinearSurfaceProperty.ks self ->
    let m_eff := EffectiveValue (Particle.m p1) (Particle.m p2) in
    let v_rel := LinearSurfaceProperty.particle_particle_v_rel p1 p2 cpos in
    let vs := LinearSurfaceProperty.tangential_velocity v_rel norm in
    let normal := LinearSurfaceProperty.normal_scalar self m_eff gapn (vdot v_rel norm) in
    let trial_ft :=
      LinearSurfaceProperty.trial_force self
        (LinearSurfaceProperty.trial_overlap vs dt (ContactRecord.oldTangOverlap c) norm) in
    vnorm trial_ft > LinearSurfaceProperty.friction_limit self normal ->
    exists (particle' : list Particle.t) (cplist' : list ContactRecord.t)
           (c' : ContactRecord.t),
      LinearSurfaceProperty._particle_particle_force_assemble
        self nc end1 end2 gapn norm cpos dt particle cplist = Ok (particle', cplist')
      /\ cplist' !! nc = Some c'
      /\ vdiv (vneg (ContactRecord.tangential_force c')) (LinearSurfaceProperty.ks self)
         = Ok (ContactRecord.oldTangOverlap c')
      /\ vscale (- LinearSurfaceProperty.ks self) (ContactRecord.oldTangOverlap c')
         = ContactRecord.tangential_force c'
      /\ vnorm (ContactRecord.oldTangOverlap c')
         = LinearSurfaceProperty.mu self * Rabs normal / LinearSurfaceProperty.ks self.
Proof.
  intros self nc end1 end2 gapn norm cpos dt particle cplist p1 p2 c
    H1 H2 Hc Hmu Hks m_eff v_rel vs normal trial_ft Hslip.
  destruct (force_law_friction_cap self m_eff gapn norm v_rel dt
              (ContactRecord.oldTangOverlap c) Hmu)
    as (tf & tmp & Hlaw & _ & Hcap).
  destruct (Hcap Hslip) as (_ & Hk & _ & _ & Hn & Hdiv & Hback).
  destruct (particle_particle_assemble_result self nc end1 end2 gapn norm cpos dt
              particle cplist p1 p2 c _ tf tmp H1 H2 Hc Hlaw)
    as (p2' & _ & Hcall).
  eexists. eexists. eexists. split; [exact Hcall|].
  split; [apply list_lookup_insert_eq; eapply lookup_lt_Some; eauto|].
  cbn [ContactRecord._set_contact ContactRecord.tangential_force
       ContactRecord.oldTangOverlap].
  split; [exact Hdiv|]. split; [exact Hback|].
  rewrite (vdiv_nonzero _ _ Hk) in Hdiv. injection Hdiv as <-.
  rewrite vnorm_vscale, vnorm_vneg, Hn.
  rewrite Rabs_right by (apply Rle_ge, Rlt_le, Rinv_0_lt_compat, Hks).
  unfold LinearSurfaceProperty.friction_limit. fold normal. field. lra.
Qed.

(** The sample contact with friction coefficient 0.5 slips: the stored
    overlap has the norm [0.5 * 1 / 1]. *)
Lemma slip_overlap_round_trip_witness :
  exists (particle' : list Particle.t) (cplist' : list ContactRecord.t)
         (c' : ContactRecord.t),
    LinearSurfaceProperty._particle_particle_force_assemble slippery 0 0 1 (-1) upward origin 1
      [moving_particle; resting_particle] [fresh_contact] = Ok (particle', cplist')
    /\ cplist' !! 0%nat = Some c'
    /\ vscale (- 1) (ContactRecord.oldTangOverlap c') = ContactRecord.tangential_force c'
    /\ vnorm (ContactRecord.oldTangOverlap c') = 0.5.
Proof.
  assert (Hmu : 0 <= LinearSurfaceProperty.mu slippery)
    by (cbv [slippery LinearSurfaceProperty.mu]; lra).
  assert (Hks : 0 < LinearSurfaceProperty.ks slippery)
    by (cbv [slippery LinearSurfaceProperty.ks]; lra).
  assert (Hslip :
    vnorm (LinearSurfaceProperty.trial_force slippery
             (LinearSurfaceProperty.trial_overlap
                (LinearSurfaceProperty.tangential_velocity
                   (LinearSurfaceProperty.particle_particle_v_rel
                      moving_particle resting_particle origin) upward)
                1 (ContactRecord.oldTangOverlap fresh_contact) upward))
    > LinearSurfaceProperty.friction_limit slippery
        (LinearSurfaceProperty.normal_scalar slippery
           (EffectiveValue (Particle.m moving_particle) (Particle.m resting_particle)) (-1)
           (vdot (LinearSurfaceProperty.particle_particle_v_rel
                    moving_particle resting_particle origin) upward))).
  { change (ContactRecord.oldTangOverlap fresh_contact) with ZEROVEC3f.
    rewrite sample_pp_v_rel, sample_vn, sample_vs, sample_trial_overlap.
    rewrite (sample_trial_force slippery eq_refl).
    rewrite (sample_normal slippery _ eq_refl eq_refl), sample_friction_limit.
    rewrite sample_trial_norm. cbv [slippery LinearSurfaceProperty.mu]. lra. }
  destruct (slip_overlap_round_trip slippery 0%nat 0%nat 1%nat (-1) upward origin 1
              [moving_particle; resting_particle] [fresh_contact]
              moving_particle resting_particle fresh_contact
              eq_refl eq_refl eq_refl Hmu Hks Hslip)
    as (particle' & cplist' & c' & Hcall & Hc' & _ & Hback & Hnorm).
  exists particle', cplist', c'. split; [exact Hcall|]. split; [exact Hc'|].
  split; [exact Hback|].
  rewrite Hnorm.
  rewrite sample_pp_v_rel, sample_vn, (sample_normal slippery _ eq_refl eq_refl).
  rewrite Rabs_R1. cbv [slippery LinearSurfaceProperty.mu LinearSurfaceProperty.ks]. lra.
Defined.

(** C9.  Degeneracies of the tangential force law.  For a nonnegative
    friction coefficient the friction limit is nonnegative, so a trial force
    that enters the slip branch has a strictly positive norm, its
    normalisation does not divide by zero, and neither does the division by
    [ks] that follows; an old overlap of norm zero, and one whose projection
    on the tangent plane has norm zero, give the zero vector as carried
    term; and the particle-particle assembler returns normally on every
    contact whose records exist. *)
Theorem slip_branch_never_divides_by_zero :
  forall (self : LinearSurfaceProperty.t) (nc end1 end2 : nat) (gapn : R)
         (norm cpos : vec3) (dt : R)
         (particle : list Particle.t) (cplist : list ContactRecord.t)
         (p1 p2 : Particle.t) (c : ContactRecord.t),
    particle !! end1 = Some p1 -> particle !! end2 = Some p2 ->
    cplist !! nc = Some c ->
    0 <= LinearSurfaceProperty.mu self ->
    let m_eff := EffectiveValue (Particle.m p1) (Particle.m p2) in
    let v_rel := LinearSurfaceProperty.particle_particle_v_rel p1 p2 cpos in
    let vs := LinearSurfaceProperty.tangential_velocity v_rel norm in
    let tangOverlapOld := ContactRecord.oldTangOverlap c in
    let trial_ft :=
      LinearSurfaceProperty.trial_force self
        (LinearSurfaceProperty.trial_overlap vs dt tangOverlapOld norm) in
    let fric :=
      LinearSurfaceProperty.friction_limit self
        (LinearSurfaceProperty.normal_scalar self m_eff gapn (vdot v_rel norm)) in
    0 <= fric
    /\ (vnorm trial_ft > fric ->
        0 < vnorm trial_ft
        /\ (exists unit : vec3, normalized trial_ft = Ok unit)
        /\ LinearSurfaceProperty.ks self <> 0)
    /\ (vnorm tangOverlapOld = 0 ->
        LinearSurfaceProperty.carried_overlap tangOverlapOld norm = ZEROVEC3f)
    /\ (vnorm (LinearSurfaceProperty.tangOverlapRot tangOverlapOld norm) = 0 ->
        LinearSurfaceProperty.carried_overlap tangOverlapOld norm = ZEROVEC3f)
    /\ (exists (particle' : list Particle.t) (cplist' : list ContactRecord.t),
          LinearSurfaceProperty._particle_particle_force_assemble
            self nc end1 end2 gapn norm cpos dt particle cplist = Ok (particle', cplist')).
Proof.
  intros self nc end1 end2 gapn norm cpos dt particle cplist p1 p2 c
    H1 H2 Hc Hmu m_eff v_rel vs tangOverlapOld trial_ft fric.
  assert (Hfric : 0 <= fric) by (by apply friction_limit_nonneg).
  split; [exact Hfric|]. split; [|split; [|split]].
  - intros Hslip.
    destruct (trial_force_slip_nonzero self _ fric Hfric Hslip) as [Hn Hk].
    fold trial_ft in Hn.
    split; [lra|]. split; [|exact Hk].
    unfold normalized. destruct (Req_dec_T (vnorm trial_ft) 0); [contradiction|].
    eexists; reflexivity.
  - apply carried_overlap_no_length.
  - apply carried_overlap_no_projection.
  - destruct (force_law_friction_cap self m_eff gapn norm v_rel dt tangOverlapOld Hmu)
      as (tf & tmp & Hlaw & _).
    destruct (particle_particle_assemble_result self nc end1 end2 gapn norm cpos dt
                particle cplist p1 p2 c _ tf tmp H1 H2 Hc Hlaw)
      as (p2' & _ & Hcall).
    eexists. eexists. exact Hcall.
Qed.

(** The slipping sample contact is assembled without a fault. *)
Lemma slip_branch_never_divides_by_zero_witness :
  exists (particle' : list Particle.t) (cplist' : list ContactRecord.t),
    LinearSurfaceProperty._particle_particle_force_assemble slippery 0 0 1 (-1) upward origin 1
      [moving_particle; resting_particle] [fresh_contact] = Ok (particle', cplist').
Proof.
  assert (Hmu : 0 <= LinearSurfaceProperty.mu slippery)
    by (cbv [slippery LinearSurfaceProperty.mu]; lra).
  exact (proj2 (proj2 (proj2 (proj2
           (slip_branch_never_divides_by_zero slippery 0%nat 0%nat 1%nat (-1) upward origin 1
              [moving_particle; resting_particle] [fresh_contact]
              moving_particle resting_particle fresh_contact
              eq_refl eq_refl eq_refl Hmu))))).
Defined.

(** C2.  Rotation of the old overlap.  When the projection
    [tangOverlapOld - tangOverlapOld.dot(norm) * norm] of the stored overlap
    has a norm other than zero, the term the force law adds to the new
    increment [vs * dt] is the norm of the stored overlap times the unit
    vector of that projection: its norm is the full norm of the stored
    overlap, and for a unit normal the projection (hence the term) is
    orthogonal to the normal. *)
Theorem carried_overlap_keeps_magnitude :
  forall (tangOverlapOld norm vs : vec3) (dt : R),
    let projection := LinearSurfaceProperty.tangOverlapRot tangOverlapOld norm in
    let unit := vscale (1 / vnorm projection) projection in
    vnorm projection <> 0 ->
    LinearSurfaceProperty.trial_overlap vs dt tangOverlapOld norm
    = vadd (vscale dt vs) (vscale (vnorm tangOverlapOld) unit)
    /\ LinearSurfaceProperty.carried_overlap tangOverlapOld norm
       = vscale (vnorm tangOverlapOld) unit
    /\ vnorm unit = 1
    /\ vnorm (LinearSurfaceProperty.carried_overlap tangOverlapOld norm)
       = vnorm tangOverlapOld
    /\ (vdot norm norm = 1 ->
        vdot projection norm = 0
        /\ vdot (LinearSurfaceProperty.carried_overlap tangOverlapOld norm) norm = 0).
Proof.
  intros tangOverlapOld norm vs dt projection unit Hproj.
  assert (Hcarried : LinearSurfaceProperty.carried_overlap tangOverlapOld norm
                     = vscale (vnorm tangOverlapOld) unit).
  { unfold LinearSurfaceProperty.carried_overlap, Normalize. fold projection.
    destruct (Req_dec_T (vnorm projection) 0); [contradiction|reflexivity]. }
  assert (Hunit : vnorm unit = 1).
  { subst unit. apply vnorm_rescaled; [lra|exact Hproj]. }
  split; [unfold LinearSurfaceProperty.trial_overlap; by rewrite Hcarried|].
  split; [exact Hcarried|]. split; [exact Hunit|]. split.
  - rewrite Hcarried, vnorm_vscale, Hunit.
    rewrite Rabs_right by (apply Rle_ge, vnorm_nonneg). ring.
  - intros Hnorm.
    assert (Horth : vdot projection norm = 0).
    { subst projection.
      replace (vdot (LinearSurfaceProperty.tangOverlapRot tangOverlapOld norm) norm)
        with (vdot tangOverlapOld norm * (1 - vdot norm norm))
        by (unfold LinearSurfaceProperty.tangOverlapRot, vdot; simpl; ring).
      rewrite Hnorm. ring. }
    split; [exact Horth|].
    rewrite Hcarried. subst unit. rewrite vscale_vscale.
    replace (vdot (vscale (vnorm tangOverlapOld * (1 / vnorm projection)) projection) norm)
      with (vnorm tangOverlapOld * (1 / vnorm projection) * vdot projection norm)
      by (unfold vdot, vscale; simpl; ring).
    rewrite Horth. ring.
Qed.

(** The overlap [(3, 0, 4)] carried under the normal [(0, 0, 1)] keeps its
    norm and lies in the tangent plane. *)
Lemma carried_overlap_keeps_magnitude_witness :
  vnorm (LinearSurfaceProperty.carried_overlap (Vec3 3 0 4) upward) = vnorm (Vec3 3 0 4)
  /\ vdot (LinearSurfaceProperty.carried_overlap (Vec3 3 0 4) upward) upward = 0.
Proof.
  assert (Hproj : vnorm (LinearSurfaceProperty.tangOverlapRot (Vec3 3 0 4) upward) <> 0).
  { intros H. apply vnorm_eq_0 in H. apply (f_equal vx) in H.
    cbv [LinearSurfaceProperty.tangOverlapRot vsub vscale vdot vx vy vz upward ZEROVEC3f] in H.
    lra. }
  destruct (carried_overlap_keeps_magnitude (Vec3 3 0 4) upward ZEROVEC3f 0 Hproj)
    as (_ & _ & _ & Hnorm & Horth).
  split; [exact Hnorm|]. apply Horth. cbv [vdot upward vx vy vz]. lra.
Defined.

(** ** Accumulation on the two endpoints *)

Lemma read_Ok {A : Type} (store : list A) (i : nat) (a : A) :
  read store i = Ok a -> store !! i = Some a.
Proof. unfold read. destruct (store !! i); [by intros [= ->]|discriminate]. Qed.

Section Accumulation.

Import LinearSurfaceProperty.

(** The reads and the force law behind a normal return. *)
Lemma particle_particle_assemble_Ok
    (self : t) (nc end1 end2 : nat) (gapn : R) (norm cpos : vec3) (dt : R)
    (particle particle' : list Particle.t) (cplist cplist' : list ContactRecord.t) :
  _particle_particle_force_assemble self nc end1 end2 gapn norm cpos dt particle cplist
  = Ok (particle', cplist') ->
  exists p1 p2 c normal_force tangential_force tangOverTemp,
    particle !! end1 = Some p1 /\ particle !! end2 = Some p2 /\ cplist !! nc = Some c
    /\ force_law self (EffectiveValue (Particle.m p1) (Particle.m p2)) gapn norm
         (particle_particle_v_rel p1 p2 cpos) dt (ContactRecord.oldTangOverlap c)
       = Ok (normal_force, tangential_force, tangOverTemp).
Proof.
  unfold _particle_particle_force_assemble. intros H.
  apply bind_Ok in H as (p1 & H1 & H). apply bind_Ok in H as (p2 & H2 & H).
  cbn zeta in H.
  apply bind_Ok in H as (c & Hc & H). apply bind_Ok in H as ([[nf tf] tmp] & Hlaw & _).
  apply read_Ok in H1, H2, Hc. eauto 10.
Qed.

Lemma coupled_particle_assemble_Ok
    (self : t) (nc end1 end2 : nat) (gapn : R) (norm cpos : vec3) (dt : R)
    (particle1 particle1' : list CoupledParticle.t) (particle2 particle2' : list Particle.t)
    (cplist cplist' : list HistoryRecord.t) :
  _coupled_particle_force_assemble self nc end1 end2 gapn norm cpos dt
    particle1 particle2 cplist = Ok (particle1', particle2', cplist') ->
  exists p1 p2 c normal_force tangential_force tangOverTemp,
    particle1 !! end1 = Some p1 /\ particle2 !! end2 = Some p2 /\ cplist !! nc = Some c
    /\ force_law self (EffectiveValue (CoupledParticle.m p1) (Particle.m p2)) gapn norm
         (coupled_particle_v_rel p1 p2 cpos) dt (HistoryRecord.oldTangOverlap c)
       = Ok (normal_force, tangential_force, tangOverTemp).
Proof.
  unfold _coupled_particle_force_assemble. intros H.
  apply bind_Ok in H as (p1 & H1 & H). apply bind_Ok in H as (p2 & H2 & H).
  cbn zeta in H.
  apply bind_Ok in H as (c & Hc & H). apply bind_Ok in H as ([[nf tf] tmp] & Hlaw & _).
  apply read_Ok in H1, H2, Hc. eauto 10.
Qed.

Lemma particle_wall_assemble_Ok
    (self : t) (nc end1 end2 : nat) (distance gapn : R) (norm cpos : vec3) (dt : R)
    (particle particle' : list Particle.t) (wall : list Wall.t)
    (cplist cplist' : list ContactRecord.t) :
  _particle_wall_force_assemble self nc end1 end2 distance gapn norm cpos dt
    particle wall cplist = Ok (particle', cplist') ->
  exists p1 wl c normal_force tangential_force tangOverTemp,
    particle !! end1 = Some p1 /\ wall !! end2 = Some wl /\ cplist !! nc = Some c
    /\ force_law self (Particle.m p1) gapn norm (particle_wall_v_rel p1 wl cpos) dt
         (ContactRecord.oldTangOverlap c)
       = Ok (normal_force, tangential_force, tangOverTemp).
Proof.
  unfold _particle_wall_force_assemble. intros H.
  apply bind_Ok in H as (p1 & H1 & H). apply bind_Ok in H as (wl & H2 & H).
  cbn zeta in H.
  apply bind_Ok in H as (c & Hc & H). apply bind_Ok in H as ([[nf tf] tmp] & Hlaw & _).
  apply read_Ok in H1, H2, Hc. eauto 10.
Qed.

End Accumulation.

(** C4 (as amended).  Newton's third law between particles.  Whenever the
    particle-particle or the coupled-particle assembler returns normally,
    the force accumulated on endpoint A is the negation of the force
    accumulated on endpoint B.  When the particle-wall assembler returns
    normally it has written to no particle but [end1], on which it has
    accumulated the normal plus the tangential force it stored in the contact
    record; a wall has no accumulator and receives nothing. *)
Theorem newton_third_law_between_particles :
  (forall (self : LinearSurfaceProperty.t) (nc end1 end2 : nat) (gapn : R)
          (norm cpos : vec3) (dt : R)
          (particle particle' : list Particle.t) (cplist cplist' : list ContactRecord.t),
      LinearSurfaceProperty._particle_particle_force_assemble
        self nc end1 end2 gapn norm cpos dt particle cplist = Ok (particle', cplist') ->
      force_received particle particle' end1
      = vneg (force_received particle particle' end2))
  /\ (forall (self : LinearSurfaceProperty.t) (nc end1 end2 : nat) (gapn : R)
             (norm cpos : vec3) (dt : R)
             (particle1 particle1' : list CoupledParticle.t)
             (particle2 particle2' : list Particle.t)
             (cplist cplist' : list HistoryRecord.t),
         LinearSurfaceProperty._coupled_particle_force_assemble
           self nc end1 end2 gapn norm cpos dt particle1 particle2 cplist
         = Ok (particle1', particle2', cplist') ->
         coupled_force_received particle1 particle1' end1
         = vneg (force_received particle2 particle2' end2))
  /\ (forall (self : LinearSurfaceProperty.t) (nc end1 end2 : nat) (distance gapn : R)
             (norm cpos : vec3) (dt : R)
             (particle particle' : list Particle.t) (wall : list Wall.t)
             (cplist cplist' : list ContactRecord.t),
         LinearSurfaceProperty._particle_wall_force_assemble
           self nc end1 end2 distance gapn norm cpos dt particle wall cplist
         = Ok (particle', cplist') ->
         (forall j, j <> end1 -> particle' !! j = particle !! j)
         /\ exists c' : ContactRecord.t,
              cplist' !! nc = Some c'
              /\ force_received particle particle' end1
                 = vadd (ContactRecord.normal_force c') (ContactRecord.tangential_force c')).
Proof.
  split; [|split].
  - intros self nc end1 end2 gapn norm cpos dt particle particle' cplist cplist' Hcall.
    destruct (particle_particle_assemble_Ok _ _ _ _ _ _ _ _ _ _ _ _ Hcall)
      as (p1 & p2 & c & nf & tf & tmp & H1 & H2 & Hc & Hlaw).
    destruct (particle_particle_assemble_result self nc end1 end2 gapn norm cpos dt
                particle cplist p1 p2 c nf tf tmp H1 H2 Hc Hlaw)
      as (p2' & Hp2' & Hcall').
    rewrite Hcall in Hcall'. injection Hcall' as -> _.
    pose proof (lookup_lt_Some _ _ _ H1) as Hlt1.
    pose proof (lookup_lt_Some _ _ _ H2) as Hlt2.
    unfold force_received. rewrite H1, H2.
    destruct (decide (end1 = end2)) as [<-|Hne].
    + rewrite list_lookup_insert_eq by (by rewrite length_insert).
      rewrite list_lookup_insert_eq in Hp2' by done. injection Hp2' as <-.
      assert (p2 = p1) as -> by congruence.
      apply vec3_eq; simpl; ring.
    + rewrite list_lookup_insert_ne in Hp2' by done.
      assert (p2' = p2) as -> by congruence.
      rewrite list_lookup_insert_ne by done.
      rewrite list_lookup_insert_eq by done.
      rewrite list_lookup_insert_eq by (by rewrite length_insert).
      apply vec3_eq; simpl; ring.
  - intros self nc end1 end2 gapn norm cpos dt particle1 particle1' particle2 particle2'
      cplist cplist' Hcall.
    destruct (coupled_particle_assemble_Ok _ _ _ _ _ _ _ _ _ _ _ _ _ _ Hcall)
      as (p1 & p2 & c & nf & tf & tmp & H1 & H2 & Hc & Hlaw).
    pose proof (coupled_particle_assemble_result self nc end1 end2 gapn norm cpos dt
                  particle1 particle2 cplist p1 p2 c nf tf tmp H1 H2 Hc Hlaw) as Hcall'.
    rewrite Hcall in Hcall'. injection Hcall' as -> -> _.
    unfold coupled_force_received, force_received. rewrite H1, H2.
    rewrite !list_lookup_insert_eq by (eapply lookup_lt_Some; eauto).
    apply vec3_eq; simpl; ring.
  - intros self nc end1 end2 distance gapn norm cpos dt particle particle' wall
      cplist cplist' Hcall.
    destruct (particle_wall_assemble_Ok _ _ _ _ _ _ _ _ _ _ _ _ _ _ Hcall)
      as (p1 & wl & c & nf & tf & tmp & H1 & H2 & Hc & Hlaw).
    pose proof (particle_wall_assemble_result self nc end1 end2 distance gapn norm cpos dt
                  particle wall cplist p1 wl c nf tf tmp H1 H2 Hc Hlaw) as Hcall'.
    rewrite Hcall in Hcall'. injection Hcall' as -> ->.
    split.
    + intros j Hj. by apply list_lookup_insert_ne.
    + eexists. split; [apply list_lookup_insert_eq; eapply lookup_lt_Some; eauto|].
      unfold force_received. rewrite H1.
      rewrite list_lookup_insert_eq by (eapply lookup_lt_Some; eauto).
      apply vec3_eq; simpl; ring.
Qed.

Section WallContact.

Import LinearSurfaceProperty.

(** What the particle of a wall contact receives: the force is the force
    of the law times the coverage fraction, the moment is the moment of
    that force times the fraction once more. *)
Lemma particle_wall_received
    (self : t) (nc end1 end2 : nat) (distance gapn : R) (norm cpos : vec3) (dt : R)
    (particle : list Particle.t) (wall : list Wall.t) (cplist : list ContactRecord.t)
    (p1 : Particle.t) (wl : Wall.t) (c : ContactRecord.t)
    (normal_force tangential_force tangOverTemp : vec3) :
  particle !! end1 = Some p1 -> wall !! end2 = Some wl -> cplist !! nc = Some c ->
  force_law self (Particle.m p1) gapn norm (particle_wall_v_rel p1 wl cpos) dt
    (ContactRecord.oldTangOverlap c)
  = Ok (normal_force, tangential_force, tangOverTemp) ->
  let fraction := Rabs (Wall.processCircleShape wl (Particle.x p1) distance (- gapn)) in
  let force := vadd normal_force tangential_force in
  exists (particle' : list Particle.t) (cplist' : list ContactRecord.t),
    _particle_wall_force_assemble self nc end1 end2 distance gapn norm cpos dt
      particle wall cplist = Ok (particle', cplist')
    /\ force_received particle particle' end1 = vscale fraction force
    /\ torque_received particle particle' end1
       = vscale (fraction * fraction) (vcross force (vsub (Particle.x p1) cpos)).
Proof.
  intros H1 H2 Hc Hlaw fraction force.
  pose proof (particle_wall_assemble_result self nc end1 end2 distance gapn norm cpos dt
                particle wall cplist p1 wl c _ _ _ H1 H2 Hc Hlaw) as Hcall.
  cbv zeta in Hcall. fold fraction force in Hcall.
  eexists. eexists. split; [exact Hcall|].
  unfold force_received, torque_received. rewrite H1.
  rewrite list_lookup_insert_eq by (eapply lookup_lt_Some; eauto).
  split; apply vec3_eq; simpl; ring.
Qed.

Lemma sample_wall_force_law :
  force_law sticky (Particle.m moving_particle) (-1) upward
    (particle_wall_v_rel moving_particle half_covered_wall origin) 1
    (ContactRecord.oldTangOverlap fresh_contact)
  = Ok (upward, Vec3 (-1) 0 0, Vec3 1 0 0).
Proof. rewrite sample_pw_v_rel. apply sample_force_law_sticky. Qed.

Lemma sample_fraction :
  Rabs (Wall.processCircleShape half_covered_wall (Particle.x moving_particle) 1 (- -1))
  = 1 / 2.
Proof. cbv [half_covered_wall Wall.processCircleShape]. apply Rabs_right. lra. Qed.

Lemma sample_particle_force_law :
  force_law sticky (EffectiveValue (Particle.m moving_particle) (Particle.m resting_particle))
    (-1) upward (particle_particle_v_rel moving_particle resting_particle origin) 1
    (ContactRecord.oldTangOverlap fresh_contact)
  = Ok (upward, Vec3 (-1) 0 0, Vec3 1 0 0).
Proof. rewrite sample_pp_v_rel. apply sample_force_law_sticky. Qed.

End WallContact.

(** The two particles of the sample contact receive opposite forces. *)
Lemma newton_third_law_between_particles_witness :
  exists (particle' : list Particle.t) (cplist' : list ContactRecord.t),
    LinearSurfaceProperty._particle_particle_force_assemble sticky 0 0 1 (-1) upward origin 1
      [moving_particle; resting_particle] [fresh_contact] = Ok (particle', cplist')
    /\ force_received [moving_particle; resting_particle] particle' 0
       = vneg (force_received [moving_particle; resting_particle] particle' 1).
Proof.
  destruct (particle_particle_assemble_result sticky 0 0 1 (-1) upward origin 1
              [moving_particle; resting_particle] [fresh_contact]
              moving_particle resting_particle fresh_contact _ _ _
              eq_refl eq_refl eq_refl sample_particle_force_law)
    as (p2' & _ & Hcall).
  eexists. eexists. split; [exact Hcall|].
  exact (proj1 newton_third_law_between_particles _ _ _ _ _ _ _ _ _ _ _ _ Hcall).
Defined.

(** C4 as first stated fails at a wall: the particle of the sample wall
    contact receives a force, and the wall receives none. *)
Lemma newton_third_law_fails_at_wall :
  exists (particle' : list Particle.t) (cplist' : list ContactRecord.t),
    LinearSurfaceProperty._particle_wall_force_assemble sticky 0 0 0 1 (-1) upward origin 1
      [moving_particle] [half_covered_wall] [fresh_contact] = Ok (particle', cplist')
    /\ force_received [moving_particle] particle' 0
       <> vneg (force_received_by_wall [half_covered_wall] 0).
Proof.
  destruct (particle_wall_received sticky 0 0 0 1 (-1) upward origin 1
              [moving_particle] [half_covered_wall] [fresh_contact]
              moving_particle half_covered_wall fresh_contact _ _ _
              eq_refl eq_refl eq_refl sample_wall_force_law)
    as (particle' & cplist' & Hcall & Hforce & _).
  exists particle', cplist'. split; [exact Hcall|].
  rewrite Hforce, sample_fraction. intros H. apply (f_equal vz) in H.
  cbv [vz vscale vadd vneg upward force_received_by_wall ZEROVEC3f] in H. lra.
Qed.

(** C3.  The coverage fraction in the wall contact.  At the sample wall
    contact the force law gives the normal force [upward] and the tangential
    force [(-1, 0, 0)], and the wall primitive covers one half.  The force
    accumulated on the particle is one half of the force of the law, but the
    moment accumulated on it is one quarter of the moment of that force:
    [resultant_momentum = fraction * Ftotal.cross(pos1 - cpos)] multiplies
    by the fraction a force that holds it already. *)
Theorem wall_moment_scaled_twice :
  exists (particle' : list Particle.t) (cplist' : list ContactRecord.t),
    let force := vadd upward (Vec3 (-1) 0 0) in
    let moment := vcross force (vsub (Particle.x moving_particle) origin) in
    LinearSurfaceProperty.force_law sticky (Particle.m moving_particle) (-1) upward
      (LinearSurfaceProperty.particle_wall_v_rel moving_particle half_covered_wall origin) 1
      (ContactRecord.oldTangOverlap fresh_contact)
    = Ok (upward, Vec3 (-1) 0 0, Vec3 1 0 0)
    /\ Rabs (Wall.processCircleShape half_covered_wall (Particle.x moving_particle) 1 (- -1))
       = 1 / 2
    /\ LinearSurfaceProperty._particle_wall_force_assemble sticky 0 0 0 1 (-1) upward origin 1
         [moving_particle] [half_covered_wall] [fresh_contact] = Ok (particle', cplist')
    /\ force_received [moving_particle] particle' 0 = vscale (1 / 2) force
    /\ torque_received [moving_particle] particle' 0 = vscale (1 / 4) moment
    /\ torque_received [moving_particle] particle' 0 <> vscale (1 / 2) moment.
Proof.
  destruct (particle_wall_received sticky 0 0 0 1 (-1) upward origin 1
              [moving_particle] [half_covered_wall] [fresh_contact]
              moving_particle half_covered_wall fresh_contact _ _ _
              eq_refl eq_refl eq_refl sample_wall_force_law)
    as (particle' & cplist' & Hcall & Hforce & Htorque).
  exists particle', cplist'. cbv zeta.
  split; [exact sample_wall_force_law|]. split; [exact sample_fraction|].
  split; [exact Hcall|].
  rewrite Hforce, Htorque, sample_fraction.
  split; [reflexivity|]. split.
  - f_equal. lra.
  - intros H. apply (f_equal vy) in H.
    cbv [vx vy vz vscale vadd vsub vcross upward origin moving_particle Particle.x] in H.
    lra.
Qed.

(** ** What the rebuild restores *)

Section KernelFacts.

Context {A : Type} (f : nat -> A).

Lemma foldl_insert_seq_length (l : list A) (s n : nat) :
  length (foldl (fun h j => <[j := f j]> h) l (seq s n)) = length l.
Proof.
  revert l s. induction n as [|n IH]; intros l s; simpl; [reflexivity|].
  rewrite IH. apply length_insert.
Qed.

Lemma foldl_insert_seq_outside (l : list A) (s n i : nat) :
  (i < s \/ s + n <= i)%nat ->
  foldl (fun h j => <[j := f j]> h) l (seq s n) !! i = l !! i.
Proof.
  revert l s. induction n as [|n IH]; intros l s Hi; simpl; [reflexivity|].
  rewrite IH by lia. apply list_lookup_insert_ne. lia.
Qed.

Lemma foldl_insert_seq_inside (l : list A) (s n i : nat) :
  (s <= i < s + n)%nat -> (i < length l)%nat ->
  foldl (fun h j => <[j := f j]> h) l (seq s n) !! i = Some (f i).
Proof.
  revert l s. induction n as [|n IH]; intros l s Hi Hlen; simpl; [lia|].
  destruct (decide (i = s)) as [->|Hne].
  - rewrite foldl_insert_seq_outside by lia. by apply list_lookup_insert_eq.
  - apply IH; [lia|]. by rewrite length_insert.
Qed.

End KernelFacts.

(** X1.  When the restored pairs fit, the rebuild returns normally, leaves the
    property table and [cplist] alone, copies the saved counts into the
    history count table, and writes for each pair below the last cumulative
    count the saved partner and overlap into its history record. *)
Theorem rebuild_restores_history :
  forall (contact_info_t : Type)
         (rebuild_contact_list : contact_info_t -> list nat * nat * list nat * list vec3)
         (self : LinearModel.t) (pcontact : NeighborBase.t) (contact_info : contact_info_t),
    let object_object := (rebuild_contact_list contact_info).1.1.1 in
    let DstID := (rebuild_contact_list contact_info).1.2 in
    let oldTangOverlap := (rebuild_contact_list contact_info).2 in
    let call := LinearModel.rebuild_ppcontact_list contact_info_t rebuild_contact_list
                  self pcontact contact_info in
    (length DstID <= length (LinearModel.cplist self))%nat ->
    call.1.1 = Ok tt
    /\ LinearModel.surfaceProps call.1.2 = LinearModel.surfaceProps self
    /\ LinearModel.cplist call.1.2 = LinearModel.cplist self
    /\ NeighborBase.hist_particle_wall call.2 = NeighborBase.hist_particle_wall pcontact
    /\ (forall (i count : nat),
          object_object !! i = Some count ->
          (i < length (NeighborBase.hist_particle_particle pcontact))%nat ->
          NeighborBase.hist_particle_particle call.2 !! i = Some count)
    /\ (forall (cp dst : nat) (overlap : vec3),
          (cp < List.last object_object 0)%nat ->
          (cp < length (LinearModel.hist_cplist self))%nat ->
          DstID !! cp = Some dst -> oldTangOverlap !! cp = Some overlap ->
          LinearModel.hist_cplist call.1.2 !! cp = Some (HistoryRecord.Build dst overlap)).
Proof.
  intros T rebuild self pcontact info object_object DstID oldTangOverlap call Hfit.
  subst call. unfold LinearModel.rebuild_ppcontact_list.
  subst object_object DstID oldTangOverlap.
  destruct (rebuild info) as [[[object_object particle_number] DstID] oldTangOverlap].
  cbn [fst snd] in *.
  destruct (gt_dec (length DstID) (length (LinearModel.cplist self))) as [Hgt|_]; [lia|].
  unfold kernel_rebulid_history_contact_list. cbn [fst snd LinearModel.surfaceProps
    LinearModel.cplist LinearModel.hist_cplist NeighborBase.hist_particle_particle
    NeighborBase.hist_particle_wall].
  repeat (split; [reflexivity|]). split.
  - intros i count Hi Hlen.
    rewrite (foldl_insert_seq_inside (fun i => default 0%nat (object_object !! i)))
      by (apply lookup_lt_Some in Hi; lia).
    by rewrite Hi.
  - intros cp dst overlap Hcp Hlen Hdst Hover.
    rewrite (foldl_insert_seq_inside
               (fun cp => HistoryRecord.Build (default 0%nat (DstID !! cp))
                            (default ZEROVEC3f (oldTangOverlap !! cp)))) by lia.
    by rewrite Hdst, Hover.
Qed.

(** Two saved pairs are restored into a history of two records. *)
Lemma rebuild_restores_history_witness :
  let call :=
    LinearModel.rebuild_ppcontact_list unit
      (fun _ => ([0; 1; 2]%nat, 2%nat, [7; 5]%nat, [Vec3 1 0 0; Vec3 0 1 0]))
      (LinearModel.Build [] [fresh_contact; fresh_contact] [fresh_history; fresh_history])
      (NeighborBase.Build [0; 0; 0]%nat [0; 0; 0]%nat) tt in
  call.1.1 = Ok tt
  /\ LinearModel.hist_cplist call.1.2 !! 1%nat = Some (HistoryRecord.Build 5 (Vec3 0 1 0))
  /\ NeighborBase.hist_particle_particle call.2 !! 2%nat = Some 2%nat.
Proof.
  cbv zeta.
  destruct (rebuild_restores_history unit
              (fun _ => ([0; 1; 2]%nat, 2%nat, [7; 5]%nat, [Vec3 1 0 0; Vec3 0 1 0]))
              (LinearModel.Build [] [fresh_contact; fresh_contact]
                 [fresh_history; fresh_history])
              (NeighborBase.Build [0; 0; 0]%nat [0; 0; 0]%nat) tt
              ltac:(simpl; lia))
    as (Hok & _ & _ & _ & Hcounts & Hhist).
  split; [exact Hok|]. split.
  - apply Hhist; [simpl; lia | simpl; lia | reflexivity | reflexivity].
  - apply Hcounts; [reflexivity | simpl; lia].
Defined.


(** * Further properties of the property table *)

Section UpdateProperty.

Import LinearModel.

Lemma update_property_Some (self : t) (componousID : nat) (f : property_field)
    (value : R) (override : bool) (p : LinearSurfaceProperty.t) :
  surfaceProps self !! componousID = Some p ->
  update_property self componousID (property_name f) value override
  = Ok {| surfaceProps :=
            <[componousID :=
                with_field f ((if override then 1 else 0) * field_value f p + value) p]>
              (surfaceProps self);
          cplist := cplist self; hist_cplist := hist_cplist self |}.
Proof.
  intros Hp. destruct f; unfold update_property; simpl;
    by rewrite (write_surfaceProps_Some _ _ _ _ Hp).
Qed.

Lemma with_field_with_field (f : property_field) (x y : R) (p : LinearSurfaceProperty.t) :
  with_field f y (with_field f x p) = with_field f y p.
Proof. by destruct f. Qed.

Lemma field_value_with_field (f : property_field) (x : R) (p : LinearSurfaceProperty.t) :
  field_value f (with_field f x p) = x.
Proof. by destruct f. Qed.

Lemma with_field_field_value (f : property_field) (x : R) (p : LinearSurfaceProperty.t) :
  x = field_value f p -> with_field f x p = p.
Proof. intros ->. by destruct f, p. Qed.

End UpdateProperty.

(** X2.  Updates of one field compose.  On an existing slot, two additive
    updates ([override] true) of the same field amount to one additive update
    by the sum; an additive update followed by the additive update of the
    opposite value gives the model back as it was; and an overwriting update
    ([override] false) makes the update before it on that field of no
    effect. *)
Theorem update_property_composes :
  forall (self : LinearModel.t) (componousID : nat) (p : LinearSurfaceProperty.t)
         (f : property_field) (value1 value2 : R),
    LinearModel.surfaceProps self !! componousID = Some p ->
    (exists self1 self2 : LinearModel.t,
        LinearModel.update_property self componousID (property_name f) value1 true = Ok self1
        /\ LinearModel.update_property self1 componousID (property_name f) value2 true
           = Ok self2
        /\ LinearModel.update_property self componousID (property_name f)
             (value1 + value2) true = Ok self2)
    /\ (exists self1 : LinearModel.t,
          LinearModel.update_property self componousID (property_name f) value1 true
          = Ok self1
          /\ LinearModel.update_property self1 componousID (property_name f) (- value1) true
             = Ok self)
    /\ (forall override : bool,
          exists self1 self2 : LinearModel.t,
            LinearModel.update_property self componousID (property_name f) value1 override
            = Ok self1
            /\ LinearModel.update_property self1 componousID (property_name f) value2 false
               = Ok self2
            /\ LinearModel.update_property self componousID (property_name f) value2 false
               = Ok self2).
Proof.
  intros self componousID p f value1 value2 Hp.
  pose proof (lookup_lt_Some _ _ _ Hp) as Hlt.
  assert (Hnext : forall x,
             <[componousID := x]> (LinearModel.surfaceProps self) !! componousID = Some x)
    by (intros x; by apply list_lookup_insert_eq).
  split; [|split].
  - eexists. eexists. split; [apply (update_property_Some _ _ _ _ _ _ Hp)|].
    split.
    + erewrite update_property_Some
        by (cbn [LinearModel.surfaceProps]; apply Hnext).
      cbn [LinearModel.surfaceProps LinearModel.cplist LinearModel.hist_cplist].
      rewrite list_insert_insert_eq. reflexivity.
    + rewrite (update_property_Some _ _ _ _ _ _ Hp). do 2 f_equal.
      rewrite field_value_with_field, with_field_with_field. do 2 f_equal. lra.
  - eexists. split; [apply (update_property_Some _ _ _ _ _ _ Hp)|].
    erewrite update_property_Some
      by (cbn [LinearModel.surfaceProps]; apply Hnext).
    cbn [LinearModel.surfaceProps LinearModel.cplist LinearModel.hist_cplist].
    rewrite list_insert_insert_eq, field_value_with_field, with_field_with_field.
    rewrite with_field_field_value by lra.
    rewrite list_insert_id by exact Hp. by destruct self.
  - intros override. eexists. eexists.
    split; [apply (update_property_Some _ _ _ _ _ _ Hp)|]. split.
    + erewrite update_property_Some
        by (cbn [LinearModel.surfaceProps]; apply Hnext).
      cbn [LinearModel.surfaceProps LinearModel.cplist LinearModel.hist_cplist].
      rewrite list_insert_insert_eq. reflexivity.
    + rewrite (update_property_Some _ _ _ _ _ _ Hp). do 2 f_equal.
      rewrite field_value_with_field, with_field_with_field. do 2 f_equal. lra.
Qed.

(** Raising a friction coefficient by 0.25 and lowering it by 0.25 again. *)
Lemma update_property_composes_witness :
  exists self1 : LinearModel.t,
    LinearModel.update_property
      (LinearModel.Build [LinearSurfaceProperty.Build 100 300 0.5 0.1 0.2] [] [])
      0 (property_name Friction) 0.25 true = Ok self1
    /\ LinearModel.update_property self1 0 (property_name Friction) (- (0.25)) true
       = Ok (LinearModel.Build [LinearSurfaceProperty.Build 100 300 0.5 0.1 0.2] [] []).
Proof.
  exact (proj1 (proj2 (update_property_composes
           (LinearModel.Build [LinearSurfaceProperty.Build 100 300 0.5 0.1 0.2] [] [])
           0 (LinearSurfaceProperty.Build 100 300 0.5 0.1 0.2) Friction 0.25 0 eq_refl))).
Defined.

Section AddSurfaceProperty.

Import LinearModel.

(** What writing one record to the slots of both orderings leaves alone. *)
Lemma write_twice_frame self self1 self2 i j (p : LinearSurfaceProperty.t) :
  write_surfaceProps self i (fun _ => p) = Ok self1 ->
  write_surfaceProps self1 j (fun _ => p) = Ok self2 ->
  cplist self2 = cplist self /\ hist_cplist self2 = hist_cplist self
  /\ length (surfaceProps self2) = length (surfaceProps self)
  /\ (forall k, k <> i -> k <> j -> surfaceProps self2 !! k = surfaceProps self !! k).
Proof.
  intros H1 H2.
  apply write_surfaceProps_Ok in H1 as (p1 & _ & E1 & Hc1 & Hh1).
  apply write_surfaceProps_Ok in H2 as (p2 & _ & E2 & Hc2 & Hh2).
  split; [congruence|]. split; [congruence|]. rewrite E2, E1. split.
  - by rewrite !length_insert.
  - intros k Hi Hj. by rewrite !list_lookup_insert_ne.
Qed.

Lemma write_once_frame self self1 i (p : LinearSurfaceProperty.t) :
  write_surfaceProps self i (fun _ => p) = Ok self1 ->
  cplist self1 = cplist self /\ hist_cplist self1 = hist_cplist self
  /\ length (surfaceProps self1) = length (surfaceProps self)
  /\ (forall k, k <> i -> surfaceProps self1 !! k = surfaceProps self !! k).
Proof.
  intros H1.
  apply write_surfaceProps_Ok in H1 as (p1 & _ & E1 & Hc1 & Hh1).
  split; [congruence|]. split; [congruence|]. rewrite E1. split.
  - by rewrite length_insert.
  - intros k Hi. by rewrite list_lookup_insert_ne.
Qed.

End AddSurfaceProperty.

(** X3.  What filling the table leaves alone.  When [add_surface_property]
    or [inherit_surface_property] returns normally, the index it returns is
    the one of [(materialID2, materialID1)], the table keeps its length,
    every slot other than the slots of the two orderings is as before, and
    [cplist] and [hist_cplist] are untouched. *)
Theorem add_surface_property_frame :
  forall (get_componousID : nat -> nat -> nat -> nat) (self self' : LinearModel.t)
         (max_material_num materialID1 materialID2 componousID : nat),
    let touched (j : nat) :=
      j = get_componousID max_material_num materialID1 materialID2
      \/ j = get_componousID max_material_num materialID2 materialID1 in
    let framed :=
      componousID = get_componousID max_material_num materialID2 materialID1
      /\ LinearModel.cplist self' = LinearModel.cplist self
      /\ LinearModel.hist_cplist self' = LinearModel.hist_cplist self
      /\ length (LinearModel.surfaceProps self') = length (LinearModel.surfaceProps self)
      /\ (forall j, ~ touched j ->
            LinearModel.surfaceProps self' !! j = LinearModel.surfaceProps self !! j) in
    (forall property : gmap string R,
        LinearModel.add_surface_property get_componousID self max_material_num
          materialID1 materialID2 property = Ok (self', componousID) -> framed)
    /\ (forall property1 property2 : gmap string R,
          LinearModel.inherit_surface_property get_componousID self max_material_num
            materialID1 materialID2 property1 property2 = Ok (self', componousID) -> framed).
Proof.
  intros gid self self' n m1 m2 cid touched framed.
  assert (Hwrites : forall (p : LinearSurfaceProperty.t),
    (if decide (m1 = m2)
     then s <- LinearModel.write_surfaceProps self (gid n m1 m2) (fun _ => p) ;;
          Ok (s, gid n m1 m2)
     else s <- LinearModel.write_surfaceProps self (gid n m1 m2) (fun _ => p) ;;
          s <- LinearModel.write_surfaceProps s (gid n m2 m1) (fun _ => p) ;;
          Ok (s, gid n m2 m1)) = Ok (self', cid) -> framed).
  { intros p H. subst framed touched. destruct (decide (m1 = m2)) as [->|Hne].
    - apply bind_Ok in H as (s1 & Hw1 & [= <- <-]).
      destruct (write_once_frame _ _ _ _ Hw1) as (Hc & Hh & Hl & Hk).
      split; [reflexivity|]. split; [exact Hc|]. split; [exact Hh|]. split; [exact Hl|].
      intros j Hj. apply Hk. tauto.
    - apply bind_Ok in H as (s1 & Hw1 & H).
      apply bind_Ok in H as (s2 & Hw2 & [= <- <-]).
      destruct (write_twice_frame _ _ _ _ _ _ Hw1 Hw2) as (Hc & Hh & Hl & Hk).
      split; [reflexivity|]. split; [exact Hc|]. split; [exact Hh|]. split; [exact Hl|].
      intros j Hj. apply Hk; tauto. }
  split.
  - intros property Hcall. unfold LinearModel.add_surface_property in Hcall.
    do 5 (apply bind_Ok in Hcall as (? & _ & Hcall)).
    eapply Hwrites. exact Hcall.
  - intros property1 property2 Hcall.
    unfold LinearModel.inherit_surface_property in Hcall.
    do 10 (apply bind_Ok in Hcall as (? & _ & Hcall)).
    eapply Hwrites. exact Hcall.
Qed.

(** Filling the slots of the materials 0 and 1 leaves the slots 0 and 3. *)
Lemma add_surface_property_frame_witness :
  exists self' : LinearModel.t,
    LinearModel.add_surface_property row_major two_material_model 2 0 1 property_soft
    = Ok (self', 2%nat)
    /\ LinearModel.surfaceProps self' !! 0%nat
       = LinearModel.surfaceProps two_material_model !! 0%nat
    /\ LinearModel.surfaceProps self' !! 3%nat
       = LinearModel.surfaceProps two_material_model !! 3%nat.
Proof.
  eexists.
  assert (Hcall : LinearModel.add_surface_property row_major two_material_model 2 0 1
                    property_soft
                  = Ok (LinearModel.Build
                          [LinearSurfaceProperty.Build 0 0 0 0 0;
                           LinearSurfaceProperty.Build 100 100 0.5 0.1 0.2;
                           LinearSurfaceProperty.Build 100 100 0.5 0.1 0.2;
                           LinearSurfaceProperty.Build 0 0 0 0 0] [] [], 2%nat))
    by reflexivity.
  split; [exact Hcall|].
  destruct (proj1 (add_surface_property_frame row_major two_material_model _ 2 0 1 2)
              property_soft Hcall) as (_ & _ & _ & _ & Hframe).
  split; apply Hframe; unfold row_major; simpl; lia.
Defined.

(** ** The largest stiffness and the critical timestep *)

Lemma Rmax_either (a b : R) : Rmax a b = a \/ Rmax a b = b.
Proof. unfold Rmax. destruct (Rle_dec a b); auto. Qed.

Section MaxStiffness.

Import LinearModel.

Variable get_componousID : nat -> nat -> nat -> nat.
Variable self : t.
Variable max_material_num : nat.

(** One pass of the inner loop body. *)
Let visit (materialID1 : nat) (maxstiff : result R) (materialID2 : nat) : result R :=
  maxstiff <- maxstiff ;;
  let componousID := get_componousID max_material_num materialID1 materialID2 in
  p <- read (surfaceProps self) componousID ;;
  if Rgt_dec (LinearSurfaceProperty.kn p) 0 then
    Ok (Rmax (Rmax maxstiff (LinearSurfaceProperty.kn p)) (LinearSurfaceProperty.ks p))
  else Ok maxstiff.

(** A slot that counts: addressed by a pair of the listed ids, with [kn > 0]. *)
Let counted (rows columns : list nat) (p : LinearSurfaceProperty.t) : Prop :=
  exists materialID1 materialID2,
    materialID1 ∈ rows /\ materialID2 ∈ columns
    /\ surfaceProps self !! get_componousID max_material_num materialID1 materialID2 = Some p
    /\ LinearSurfaceProperty.kn p > 0.

Let in_range (rows columns : list nat) : Prop :=
  forall materialID1 materialID2,
    materialID1 ∈ rows -> materialID2 ∈ columns ->
    (get_componousID max_material_num materialID1 materialID2
       < length (surfaceProps self))%nat.

Lemma max_stiffness_row (materialID1 : nat) (columns : list nat) (start : R) :
  in_range [materialID1] columns ->
  exists maxstiff : R,
    foldl (visit materialID1) (Ok start) columns = Ok maxstiff
    /\ start <= maxstiff
    /\ (forall p, counted [materialID1] columns p ->
          LinearSurfaceProperty.kn p <= maxstiff /\ LinearSurfaceProperty.ks p <= maxstiff)
    /\ (maxstiff = start
        \/ exists p, counted [materialID1] columns p
             /\ (maxstiff = LinearSurfaceProperty.kn p
                 \/ maxstiff = LinearSurfaceProperty.ks p)).
Proof.
  revert start. induction columns as [|materialID2 columns IH]; intros start Hrange.
  - exists start. split; [reflexivity|]. split; [lra|]. split; [|by left].
    intros p (m1 & m2 & _ & Hm2 & _). by apply elem_of_nil in Hm2.
  - assert (Hhere : (get_componousID max_material_num materialID1 materialID2
                     < length (surfaceProps self))%nat)
      by (apply Hrange; [apply list_elem_of_singleton; reflexivity | left]).
    destruct (lookup_lt_is_Some_2 _ _ Hhere) as [p0 Hp0].
    assert (Hrest : in_range [materialID1] columns)
      by (intros m1 m2 Hm1 Hm2; apply Hrange; [exact Hm1 | by right]).
    cbn [foldl]. unfold visit at 2. cbn [bind]. rewrite (read_Some _ _ _ Hp0). cbn [bind].
    destruct (Rgt_dec (LinearSurfaceProperty.kn p0) 0) as [Hpos|Hnonpos].
    + destruct (IH (Rmax (Rmax start (LinearSurfaceProperty.kn p0))
                      (LinearSurfaceProperty.ks p0)) Hrest)
        as (maxstiff & Hfold & Hle & Hbound & Hattained).
      exists maxstiff. split; [exact Hfold|].
      pose proof (Rmax_l (Rmax start (LinearSurfaceProperty.kn p0))
                    (LinearSurfaceProperty.ks p0)) as Hl.
      pose proof (Rmax_r (Rmax start (LinearSurfaceProperty.kn p0))
                    (LinearSurfaceProperty.ks p0)) as Hr.
      pose proof (Rmax_l start (LinearSurfaceProperty.kn p0)) as Hll.
      pose proof (Rmax_r start (LinearSurfaceProperty.kn p0)) as Hlr.
      split; [lra|]. split.
      * intros p (m1 & m2 & Hm1 & Hm2 & Hp & Hkn).
        apply list_elem_of_singleton in Hm1 as ->.
        apply elem_of_cons in Hm2 as [->|Hm2].
        -- assert (p = p0) as -> by congruence. lra.
        -- apply Hbound. exists materialID1, m2.
           split; [apply list_elem_of_singleton; reflexivity|]. done.
      * assert (Hp0counted : counted [materialID1] (materialID2 :: columns) p0).
        { exists materialID1, materialID2.
          split; [apply list_elem_of_singleton; reflexivity|]. split; [left|]. done. }
        destruct Hattained as [->|(p & (m1 & m2 & Hm1 & Hm2 & Hp) & Hval)].
        -- destruct (Rmax_either (Rmax start (LinearSurfaceProperty.kn p0))
                       (LinearSurfaceProperty.ks p0)) as [E|E]; rewrite E.
           ++ destruct (Rmax_either start (LinearSurfaceProperty.kn p0)) as [E'|E']; rewrite E'.
              ** by left.
              ** right. exists p0. split; [exact Hp0counted | by left].
           ++ right. exists p0. split; [exact Hp0counted | by right].
        -- right. exists p. split; [|exact Hval].
           exists m1, m2. split; [exact Hm1|]. split; [by right | exact Hp].
    + destruct (IH start Hrest) as (maxstiff & Hfold & Hle & Hbound & Hattained).
      exists maxstiff. split; [exact Hfold|]. split; [exact Hle|]. split.
      * intros p (m1 & m2 & Hm1 & Hm2 & Hp & Hkn).
        apply list_elem_of_singleton in Hm1 as ->.
        apply elem_of_cons in Hm2 as [->|Hm2].
        -- assert (p = p0) as -> by congruence. contradiction.
        -- apply Hbound. exists materialID1, m2.
           split; [apply list_elem_of_singleton; reflexivity|]. done.
      * destruct Hattained as [->|(p & (m1 & m2 & Hm1 & Hm2 & Hp) & Hval)]; [by left|].
        right. exists p. split; [|exact Hval].
        exists m1, m2. split; [exact Hm1|]. split; [by right | exact Hp].
Qed.

Lemma max_stiffness_rows (rows columns : list nat) (start : R) :
  in_range rows columns ->
  exists maxstiff : R,
    foldl (fun maxstiff materialID1 => foldl (visit materialID1) maxstiff columns)
      (Ok start) rows = Ok maxstiff
    /\ start <= maxstiff
    /\ (forall p, counted rows columns p ->
          LinearSurfaceProperty.kn p <= maxstiff /\ LinearSurfaceProperty.ks p <= maxstiff)
    /\ (maxstiff = start
        \/ exists p, counted rows columns p
             /\ (maxstiff = LinearSurfaceProperty.kn p
                 \/ maxstiff = LinearSurfaceProperty.ks p)).
Proof.
  revert start. induction rows as [|materialID1 rows IH]; intros start Hrange.
  - exists start. split; [reflexivity|]. split; [lra|]. split; [|by left].
    intros p (m1 & m2 & Hm1 & _). by apply elem_of_nil in Hm1.
  - assert (Hrow : in_range [materialID1] columns).
    { intros m1 m2 Hm1 Hm2. apply list_elem_of_singleton in Hm1 as ->.
      apply Hrange; [left | exact Hm2]. }
    assert (Hrest : in_range rows columns)
      by (intros m1 m2 Hm1 Hm2; apply Hrange; [by right | exact Hm2]).
    destruct (max_stiffness_row materialID1 columns start Hrow)
      as (s1 & Hfold1 & Hle1 & Hbound1 & Hattained1).
    destruct (IH s1 Hrest) as (s2 & Hfold2 & Hle2 & Hbound2 & Hattained2).
    exists s2. cbn [foldl]. rewrite Hfold1. split; [exact Hfold2|]. split; [lra|]. split.
    + intros p (m1 & m2 & Hm1 & Hm2 & Hp).
      apply elem_of_cons in Hm1 as [->|Hm1].
      * assert (Hc : counted [materialID1] columns p).
        { exists materialID1, m2.
          split; [apply list_elem_of_singleton; reflexivity|]. done. }
        destruct (Hbound1 p Hc). lra.
      * apply Hbound2. exists m1, m2. done.
    + destruct Hattained2 as [->|(p & (m1 & m2 & Hm1 & Hm2 & Hp) & Hval)].
      * destruct Hattained1 as [->|(p & (m1 & m2 & Hm1 & Hm2 & Hp) & Hval)]; [by left|].
        right. exists p. split; [|exact Hval].
        apply list_elem_of_singleton in Hm1 as ->.
        exists materialID1, m2. split; [left|]. done.
      * right. exists p. split; [|exact Hval].
        exists m1, m2. split; [by right|]. done.
Qed.

End MaxStiffness.

(** The loops of [find_max_stiffness] over the material ids below
    [max_material_num], in the words of the two lemmas above. *)
Lemma find_max_stiffness_fold
    (get_componousID : nat -> nat -> nat -> nat) (self : LinearModel.t)
    (max_material_num : nat) :
  (forall materialID1 materialID2,
      (materialID1 < max_material_num)%nat -> (materialID2 < max_material_num)%nat ->
      (get_componousID max_material_num materialID1 materialID2
         < length (LinearModel.surfaceProps self))%nat) ->
  exists maxstiff : R,
    LinearModel.find_max_stiffness get_componousID self max_material_num = Ok maxstiff
    /\ 0 <= maxstiff
    /\ (forall materialID1 materialID2 p,
          (materialID1 < max_material_num)%nat -> (materialID2 < max_material_num)%nat ->
          LinearModel.surfaceProps self
            !! get_componousID max_material_num materialID1 materialID2 = Some p ->
          LinearSurfaceProperty.kn p > 0 ->
          LinearSurfaceProperty.kn p <= maxstiff /\ LinearSurfaceProperty.ks p <= maxstiff)
    /\ (maxstiff = 0
        \/ exists materialID1 materialID2 p,
             (materialID1 < max_material_num)%nat /\ (materialID2 < max_material_num)%nat
             /\ LinearModel.surfaceProps self
                  !! get_componousID max_material_num materialID1 materialID2 = Some p
             /\ LinearSurfaceProperty.kn p > 0
             /\ (maxstiff = LinearSurfaceProperty.kn p
                 \/ maxstiff = LinearSurfaceProperty.ks p)).
Proof.
  intros Hrange.
  destruct (max_stiffness_rows get_componousID self max_material_num
              (seq 0 max_material_num) (seq 0 max_material_num) 0)
    as (maxstiff & Hfold & Hle & Hbound & Hattained).
  { intros m1 m2 Hm1 Hm2. apply elem_of_seq in Hm1, Hm2. apply Hrange; lia. }
  exists maxstiff. split; [exact Hfold|]. split; [exact Hle|]. split.
  - intros m1 m2 p Hm1 Hm2 Hp Hkn. apply Hbound. exists m1, m2.
    split; [apply elem_of_seq; lia|]. split; [apply elem_of_seq; lia|]. done.
  - destruct Hattained as [->|(p & (m1 & m2 & Hm1 & Hm2 & Hp & Hkn) & Hval)]; [by left|].
    right. apply elem_of_seq in Hm1, Hm2. exists m1, m2, p.
    split; [lia|]. split; [lia|]. done.
Qed.

(** X4.  The largest stiffness.  When the slots of all pairs of material ids
    below [max_material_num] exist, [find_max_stiffness] returns a number
    that is not negative, that is at least the [kn] and the [ks] of every
    such slot whose [kn] is positive, and that is zero or the [kn] or the
    [ks] of one of those slots; a slot whose [kn] is not positive is passed
    over, whatever its [ks]. *)
Theorem find_max_stiffness_is_largest :
  forall (get_componousID : nat -> nat -> nat -> nat) (self : LinearModel.t)
         (max_material_num : nat),
    (forall materialID1 materialID2,
        (materialID1 < max_material_num)%nat -> (materialID2 < max_material_num)%nat ->
        (get_componousID max_material_num materialID1 materialID2
           < length (LinearModel.surfaceProps self))%nat) ->
    exists maxstiff : R,
      LinearModel.find_max_stiffness get_componousID self max_material_num = Ok maxstiff
      /\ 0 <= maxstiff
      /\ (forall materialID1 materialID2 p,
            (materialID1 < max_material_num)%nat -> (materialID2 < max_material_num)%nat ->
            LinearModel.surfaceProps self
              !! get_componousID max_material_num materialID1 materialID2 = Some p ->
            LinearSurfaceProperty.kn p > 0 ->
            LinearSurfaceProperty.kn p <= maxstiff /\ LinearSurfaceProperty.ks p <= maxstiff)
      /\ ((forall materialID1 materialID2 p,
              (materialID1 < max_material_num)%nat -> (materialID2 < max_material_num)%nat ->
              LinearModel.surfaceProps self
                !! get_componousID max_material_num materialID1 materialID2 = Some p ->
              LinearSurfaceProperty.kn p <= 0) ->
          maxstiff = 0)
      /\ (maxstiff = 0
          \/ exists materialID1 materialID2 p,
               (materialID1 < max_material_num)%nat /\ (materialID2 < max_material_num)%nat
               /\ LinearModel.surfaceProps self
                    !! get_componousID max_material_num materialID1 materialID2 = Some p
               /\ LinearSurfaceProperty.kn p > 0
               /\ (maxstiff = LinearSurfaceProperty.kn p
                   \/ maxstiff = LinearSurfaceProperty.ks p)).
Proof.
  intros gid self n Hrange.
  destruct (find_max_stiffness_fold gid self n Hrange)
    as (maxstiff & Hcall & Hpos & Hbound & Hattained).
  exists maxstiff. split; [exact Hcall|]. split; [exact Hpos|]. split; [exact Hbound|].
  split; [|exact Hattained].
  intros Hnone.
  destruct Hattained as [E|(m1 & m2 & p & Hm1 & Hm2 & Hp & Hkn & _)]; [exact E|].
  pose proof (Hnone m1 m2 p Hm1 Hm2 Hp). lra.
Qed.

(** X5.  The critical timestep.  When the slots of all pairs of material ids
    below [max_material_num] exist: with no slot of positive [kn] the largest
    stiffness is zero and [calcu_critical_timestep] divides by zero; with a
    slot of positive [kn] and a mass that is not negative it returns a
    timestep that is at most [sqrt (mass / kn)] of that slot, and at most
    [sqrt (mass / ks)] when its [ks] is positive too. *)
Theorem critical_timestep_bounded :
  forall (get_componousID : nat -> nat -> nat -> nat) (self : LinearModel.t)
         (mass : R) (max_material_num : nat),
    (forall materialID1 materialID2,
        (materialID1 < max_material_num)%nat -> (materialID2 < max_material_num)%nat ->
        (get_componousID max_material_num materialID1 materialID2
           < length (LinearModel.surfaceProps self))%nat) ->
    ((forall materialID1 materialID2 p,
         (materialID1 < max_material_num)%nat -> (materialID2 < max_material_num)%nat ->
         LinearModel.surfaceProps self
           !! get_componousID max_material_num materialID1 materialID2 = Some p ->
         LinearSurfaceProperty.kn p <= 0) ->
     LinearModel.calcu_critical_timestep get_componousID self mass max_material_num
     = Raise ZeroDivisionError)
    /\ (forall materialID1 materialID2 p,
          (materialID1 < max_material_num)%nat -> (materialID2 < max_material_num)%nat ->
          LinearModel.surfaceProps self
            !! get_componousID max_material_num materialID1 materialID2 = Some p ->
          LinearSurfaceProperty.kn p > 0 -> 0 <= mass ->
          exists timestep : R,
            LinearModel.calcu_critical_timestep get_componousID self mass max_material_num
            = Ok timestep
            /\ 0 <= timestep
            /\ timestep <= sqrt (mass / LinearSurfaceProperty.kn p)
            /\ (LinearSurfaceProperty.ks p > 0 ->
                timestep <= sqrt (mass / LinearSurfaceProperty.ks p))).
Proof.
  intros gid self mass n Hrange.
  destruct (find_max_stiffness_fold gid self n Hrange)
    as (maxstiff & Hcall & Hpos & Hbound & Hattained).
  unfold LinearModel.calcu_critical_timestep. rewrite Hcall. cbn [bind]. split.
  - intros Hnone.
    destruct Hattained as [E|(m1 & m2 & p & Hm1 & Hm2 & Hp & Hkn & _)].
    + destruct (Req_dec_T maxstiff 0); [reflexivity|contradiction].
    + pose proof (Hnone m1 m2 p Hm1 Hm2 Hp). lra.
  - intros m1 m2 p Hm1 Hm2 Hp Hkn Hmass.
    destruct (Hbound m1 m2 p Hm1 Hm2 Hp Hkn) as [Hkn_le Hks_le].
    destruct (Req_dec_T maxstiff 0) as [E|_]; [lra|].
    assert (Hbelow : forall k, 0 < k -> k <= maxstiff ->
                               sqrt (mass / maxstiff) <= sqrt (mass / k)).
    { intros k Hk Hle. apply sqrt_le_1_alt. unfold Rdiv.
      apply Rmult_le_compat_l; [exact Hmass|]. by apply Rinv_le_contravar. }
    eexists. split; [reflexivity|]. split; [apply sqrt_pos|].
    split; [apply Hbelow; lra|]. intros Hks. apply Hbelow; lra.
Qed.

Lemma uneven_model_in_range :
  forall materialID1 materialID2,
    (materialID1 < 2)%nat -> (materialID2 < 2)%nat ->
    (row_major 2 materialID1 materialID2
       < length (LinearModel.surfaceProps uneven_model))%nat.
Proof. intros m1 m2 H1 H2. unfold row_major, uneven_model. simpl. lia. Qed.

(** In the uneven table the largest stiffness is the 300 of the first slot:
    the 500 of the cross slots is passed over. *)
Lemma find_max_stiffness_is_largest_witness :
  LinearModel.find_max_stiffness row_major uneven_model 2 = Ok 300.
Proof.
  destruct (find_max_stiffness_is_largest row_major uneven_model 2 uneven_model_in_range)
    as (maxstiff & Hcall & _ & Hbound & _ & Hattained).
  rewrite Hcall. f_equal.
  destruct (Hbound 0%nat 0%nat (LinearSurfaceProperty.Build 100 300 0.5 0.1 0.2)
              ltac:(lia) ltac:(lia) eq_refl ltac:(simpl; lra)) as [_ Hks].
  simpl in Hks.
  destruct Hattained as [E|(m1 & m2 & p & Hm1 & Hm2 & Hp & Hkn & Hval)]; [lra|].
  destruct m1 as [|[|?]]; [| |lia]; (destruct m2 as [|[|?]]; [| |lia]);
    cbv [row_major uneven_model LinearModel.surfaceProps Nat.mul Nat.add] in Hp;
    simpl in Hp; injection Hp as <-; simpl in Hkn, Hval; lra.
Defined.

(** With the mass 1 the timestep of the uneven table is at most
    [sqrt (1 / 100)] and [sqrt (1 / 300)]. *)
Lemma critical_timestep_bounded_witness :
  exists timestep : R,
    LinearModel.calcu_critical_timestep row_major uneven_model 1 2 = Ok timestep
    /\ timestep <= sqrt (1 / 100) /\ timestep <= sqrt (1 / 300).
Proof.
  destruct (proj2 (critical_timestep_bounded row_major uneven_model 1 2
                     uneven_model_in_range)
              0%nat 0%nat (LinearSurfaceProperty.Build 100 300 0.5 0.1 0.2)
              ltac:(lia) ltac:(lia) eq_refl ltac:(simpl; lra) ltac:(lra))
    as (timestep & Hcall & _ & Hkn & Hks).
  exists timestep. split; [exact Hcall|]. split; [exact Hkn|].
  apply Hks. simpl. lra.
Defined.

(** What a normal return of [add_surface_property] has read and written. *)
Lemma add_surface_property_Ok
    (get_componousID : nat -> nat -> nat -> nat) (self self' : LinearModel.t)
    (max_material_num materialID1 materialID2 componousID : nat)
    (property : gmap string R) :
  LinearModel.add_surface_property get_componousID self max_material_num
    materialID1 materialID2 property = Ok (self', componousID) ->
  exists kn ks mu ndratio sdratio : R,
    property !! "NormalStiffness"%string = Some kn
    /\ property !! "TangentialStiffness"%string = Some ks
    /\ property !! "Friction"%string = Some mu
    /\ property !! "NormalViscousDamping"%string = Some ndratio
    /\ property !! "TangentialViscousDamping"%string = Some sdratio
    /\ LinearModel.surfaceProps self'
         !! get_componousID max_material_num materialID1 materialID2
       = Some (LinearSurfaceProperty.Build kn ks mu ndratio sdratio)
    /\ LinearModel.surfaceProps self'
         !! get_componousID max_material_num materialID2 materialID1
       = Some (LinearSurfaceProperty.Build kn ks mu ndratio sdratio)
    /\ length (LinearModel.surfaceProps self') = length (LinearModel.surfaceProps self).
Proof.
  intros Hcall. unfold LinearModel.add_surface_property in Hcall.
  apply bind_Ok in Hcall as (kn & Hkn & Hcall).
  apply bind_Ok in Hcall as (ks & Hks & Hcall).
  apply bind_Ok in Hcall as (mu & Hmu & Hcall).
  apply bind_Ok in Hcall as (nd & Hnd & Hcall).
  apply bind_Ok in Hcall as (sd & Hsd & Hcall).
  exists kn, ks, mu, nd, sd.
  assert (Hget : forall key value, GetEssential property key = Ok value ->
                                   property !! key = Some value).
  { intros key value. unfold GetEssential.
    destruct (property !! key); [by intros [= ->]|discriminate]. }
  repeat (split; [by apply Hget|]).
  unfold LinearSurfaceProperty.add_surface_property in Hcall.
  destruct (decide (materialID1 = materialID2)) as [->|Hne].
  - apply bind_Ok in Hcall as (self1 & Hw1 & [= <- _]).
    destruct (write_once_frame _ _ _ _ Hw1) as (_ & _ & Hlen & _).
    apply write_surfaceProps_Ok in Hw1 as (p1 & Hp1 & E1 & _).
    apply lookup_lt_Some in Hp1.
    split; [rewrite E1; by apply list_lookup_insert_eq|].
    split; [rewrite E1; by apply list_lookup_insert_eq|]. exact Hlen.
  - apply bind_Ok in Hcall as (self1 & Hw1 & Hcall).
    apply bind_Ok in Hcall as (self2 & Hw2 & [= <- _]).
    destruct (write_twice_lookup _ _ _ _ _ _ Hw1 Hw2) as [Ha Hb].
    destruct (write_twice_frame _ _ _ _ _ _ Hw1 Hw2) as (_ & _ & Hlen & _).
    done.
Qed.

(** X6.  A property set bounds the timestep.  After [add_surface_property]
    has stored, for two material ids below [max_material_num] of a table
    whose slots all exist, a property set whose normal stiffness [kn] is
    positive, [calcu_critical_timestep] returns for a mass that is not
    negative a timestep of at most [sqrt (mass / kn)]. *)
Theorem added_stiffness_bounds_timestep :
  forall (get_componousID : nat -> nat -> nat -> nat) (self self' : LinearModel.t)
         (max_material_num materialID1 materialID2 componousID : nat)
         (property : gmap string R) (kn mass : R),
    (forall materialID1 materialID2,
        (materialID1 < max_material_num)%nat -> (materialID2 < max_material_num)%nat ->
        (get_componousID max_material_num materialID1 materialID2
           < length (LinearModel.surfaceProps self))%nat) ->
    (materialID1 < max_material_num)%nat -> (materialID2 < max_material_num)%nat ->
    LinearModel.add_surface_property get_componousID self max_material_num
      materialID1 materialID2 property = Ok (self', componousID) ->
    property !! "NormalStiffness"%string = Some kn ->
    kn > 0 -> 0 <= mass ->
    exists timestep : R,
      LinearModel.calcu_critical_timestep get_componousID self' mass max_material_num
      = Ok timestep
      /\ timestep <= sqrt (mass / kn).
Proof.
  intros gid self self' n m1 m2 cid property kn mass Hrange Hm1 Hm2 Hcall Hkn Hpos Hmass.
  destruct (add_surface_property_Ok _ _ _ _ _ _ _ _ Hcall)
    as (kn' & ks & mu & nd & sd & Hkn' & _ & _ & _ & _ & Hslot & _ & Hlen).
  assert (kn' = kn) as -> by congruence.
  assert (Hrange' : forall a b, (a < n)%nat -> (b < n)%nat ->
                                (gid n a b < length (LinearModel.surfaceProps self'))%nat)
    by (intros a b Ha Hb; rewrite Hlen; by apply Hrange).
  destruct (find_max_stiffness_fold gid self' n Hrange')
    as (maxstiff & Hmax & _ & Hbound & _).
  destruct (Hbound m1 m2 _ Hm1 Hm2 Hslot Hpos) as [Hle _].
  cbn [LinearSurfaceProperty.kn] in Hle.
  unfold LinearModel.calcu_critical_timestep. rewrite Hmax. cbn [bind].
  destruct (Req_dec_T maxstiff 0) as [E|_]; [lra|].
  eexists. split; [reflexivity|].
  apply sqrt_le_1_alt. unfold Rdiv.
  apply Rmult_le_compat_l; [exact Hmass|]. apply Rinv_le_contravar; lra.
Qed.

(** The soft property set, stored for the materials 0 and 1 of two. *)
Lemma added_stiffness_bounds_timestep_witness :
  exists (self' : LinearModel.t) (timestep : R),
    LinearModel.add_surface_property row_major two_material_model 2 0 1 property_soft
    = Ok (self', 2%nat)
    /\ LinearModel.calcu_critical_timestep row_major self' 1 2 = Ok timestep
    /\ timestep <= sqrt (1 / 100).
Proof.
  eexists.
  assert (Hcall : LinearModel.add_surface_property row_major two_material_model 2 0 1
                    property_soft
                  = Ok (LinearModel.Build
                          [LinearSurfaceProperty.Build 0 0 0 0 0;
                           LinearSurfaceProperty.Build 100 100 0.5 0.1 0.2;
                           LinearSurfaceProperty.Build 100 100 0.5 0.1 0.2;
                           LinearSurfaceProperty.Build 0 0 0 0 0] [] [], 2%nat))
    by reflexivity.
  destruct (added_stiffness_bounds_timestep row_major two_material_model _ 2 0 1 2
              property_soft 100 1
              ltac:(intros a b Ha Hb; unfold row_major, two_material_model; simpl; lia)
              ltac:(lia) ltac:(lia) Hcall eq_refl ltac:(lra) ltac:(lra))
    as (timestep & Htime & Hle).
  exists timestep. split; [exact Hcall|]. split; [exact Htime | exact Hle].
Defined.

(** * Further properties of the force law *)

Lemma vdot_vscale_l (k : R) (a b : vec3) : vdot (vscale k a) b = k * vdot a b.
Proof. unfold vdot, vscale; simpl; ring. Qed.

Lemma vdot_vadd_l (a b c : vec3) : vdot (vadd a b) c = vdot a c + vdot b c.
Proof. unfold vdot, vadd; simpl; ring. Qed.

Lemma vdot_vneg_l (a b : vec3) : vdot (vneg a) b = - vdot a b.
Proof. unfold vdot, vneg; simpl; ring. Qed.

(** Cauchy-Schwarz, through the identity of Lagrange. *)
Lemma vdot_le_norms (a b : vec3) : vdot a b <= vnorm a * vnorm b.
Proof.
  unfold vnorm. rewrite <- sqrt_mult_alt by apply vdot_self_nonneg.
  apply Rle_trans with (Rabs (vdot a b)); [apply Rle_abs|].
  rewrite <- sqrt_Rsqr_abs. apply sqrt_le_1_alt.
  unfold Rsqr, vdot.
  pose proof (Rle_0_sqr (vx a * vy b - vy a * vx b)) as H1.
  pose proof (Rle_0_sqr (vy a * vz b - vz a * vy b)) as H2.
  pose proof (Rle_0_sqr (vz a * vx b - vx a * vz b)) as H3.
  unfold Rsqr in H1, H2, H3. nra.
Qed.

Lemma vnorm_triangle (a b : vec3) : vnorm (vadd a b) <= vnorm a + vnorm b.
Proof.
  pose proof (vnorm_nonneg a) as Ha. pose proof (vnorm_nonneg b) as Hb.
  pose proof (vdot_le_norms a b) as Hab.
  assert (Hsq : forall c, vnorm c * vnorm c = vdot c c)
    by (intros c; apply sqrt_sqrt, vdot_self_nonneg).
  apply Rsqr_incr_0_var; [|lra].
  unfold Rsqr. rewrite Hsq.
  replace (vdot (vadd a b) (vadd a b)) with (vdot a a + 2 * vdot a b + vdot b b)
    by (unfold vdot, vadd; simpl; ring).
  pose proof (Hsq a). pose proof (Hsq b). nra.
Qed.

Section TangentPlane.

Import LinearSurfaceProperty.

Lemma tangential_velocity_orthogonal (v_rel norm : vec3) :
  vdot norm norm = 1 -> vdot (tangential_velocity v_rel norm) norm = 0.
Proof.
  intros H.
  replace (vdot (tangential_velocity v_rel norm) norm)
    with (vdot v_rel norm * (1 - vdot norm norm))
    by (unfold tangential_velocity, vdot; simpl; ring).
  rewrite H. ring.
Qed.

Lemma tangOverlapRot_orthogonal (tangOverlapOld norm : vec3) :
  vdot norm norm = 1 -> vdot (tangOverlapRot tangOverlapOld norm) norm = 0.
Proof. apply tangential_velocity_orthogonal. Qed.

Lemma Normalize_orthogonal (a norm : vec3) :
  vdot a norm = 0 -> vdot (Normalize a) norm = 0.
Proof.
  intros H. unfold Normalize. destruct (Req_dec_T (vnorm a) 0).
  - unfold vdot, ZEROVEC3f; simpl; ring.
  - rewrite vdot_vscale_l, H. ring.
Qed.

Lemma trial_force_orthogonal (self : t) (v_rel norm : vec3) (dt : R) (tangOverlapOld : vec3) :
  vdot norm norm = 1 ->
  vdot (trial_overlap (tangential_velocity v_rel norm) dt tangOverlapOld norm) norm = 0
  /\ vdot (trial_force self
             (trial_overlap (tangential_velocity v_rel norm) dt tangOverlapOld norm)) norm
     = 0.
Proof.
  intros H.
  assert (Ho : vdot (trial_overlap (tangential_velocity v_rel norm) dt tangOverlapOld norm)
                 norm = 0).
  { unfold trial_overlap, carried_overlap.
    rewrite vdot_vadd_l, !vdot_vscale_l, (tangential_velocity_orthogonal _ _ H).
    rewrite (Normalize_orthogonal _ _ (tangOverlapRot_orthogonal _ _ H)). ring. }
  split; [exact Ho|]. unfold trial_force. rewrite vdot_vscale_l, Ho. ring.
Qed.

(** For a unit normal the force law gives a normal force along the normal,
    and a tangential force and an overlap in the tangent plane. *)
Lemma force_law_respects_normal (self : t) (m_eff gapn : R) (norm v_rel : vec3) (dt : R)
    (tangOverlapOld normal_force tangential_force tangOverTemp : vec3) :
  vdot norm norm = 1 ->
  force_law self m_eff gapn norm v_rel dt tangOverlapOld
  = Ok (normal_force, tangential_force, tangOverTemp) ->
  normal_force = vscale (normal_scalar self m_eff gapn (vdot v_rel norm)) norm
  /\ vdot tangential_force norm = 0 /\ vdot tangOverTemp norm = 0.
Proof.
  intros Hunit Hlaw. unfold force_law in Hlaw.
  apply bind_Ok in Hlaw as ([tf tmp] & Hmap & [= <- <- <-]).
  split; [reflexivity|]. cbn [fst snd].
  destruct (trial_force_orthogonal self v_rel norm dt tangOverlapOld Hunit) as [Ho Ht].
  unfold return_mapping in Hmap.
  destruct (Rgt_dec _ _) as [Hslip|Hstick].
  - apply bind_Ok in Hmap as (unit & Hunit' & Hmap).
    apply bind_Ok in Hmap as (tmp' & Hdiv & [= <- <-]).
    unfold normalized in Hunit'. destruct (Req_dec_T _ 0); [discriminate|].
    injection Hunit' as <-.
    assert (Htf : vdot (vscale (friction_limit self
                                  (normal_scalar self m_eff gapn (vdot v_rel norm)))
                          (vscale (1 / vnorm (trial_force self
                             (trial_overlap (tangential_velocity v_rel norm) dt
                                tangOverlapOld norm)))
                             (trial_force self
                                (trial_overlap (tangential_velocity v_rel norm) dt
                                   tangOverlapOld norm)))) norm = 0)
      by (rewrite !vdot_vscale_l, Ht; ring).
    split; [exact Htf|].
    destruct (Req_dec_T (ks self) 0) as [Hk|Hk].
    { unfold vdiv in Hdiv. destruct (Req_dec_T (ks self) 0); [discriminate|contradiction]. }
    rewrite (vdiv_nonzero _ _ Hk) in Hdiv. injection Hdiv as <-.
    rewrite vdot_vscale_l, vdot_vneg_l, Htf. ring.
  - injection Hmap as <- <-. split; [|exact Ho].
    rewrite vdot_vadd_l, Ht. unfold tangential_damping.
    rewrite vdot_vscale_l, (tangential_velocity_orthogonal _ _ Hunit). ring.
Qed.

(** The tangential force is bounded by the friction limit plus the norm of
    the tangential damping force. *)
Lemma force_law_bounded (self : t) (m_eff gapn : R) (norm v_rel : vec3) (dt : R)
    (tangOverlapOld normal_force tangential_force tangOverTemp : vec3) :
  0 <= mu self ->
  force_law self m_eff gapn norm v_rel dt tangOverlapOld
  = Ok (normal_force, tangential_force, tangOverTemp) ->
  vnorm tangential_force
  <= friction_limit self (normal_scalar self m_eff gapn (vdot v_rel norm))
     + vnorm (tangential_damping self m_eff (tangential_velocity v_rel norm)).
Proof.
  intros Hmu Hlaw.
  destruct (force_law_friction_cap self m_eff gapn norm v_rel dt tangOverlapOld Hmu)
    as (tf & tmp & Hlaw' & Hstick & Hslip).
  rewrite Hlaw in Hlaw'. injection Hlaw' as _ <- <-.
  pose proof (vnorm_nonneg (tangential_damping self m_eff (tangential_velocity v_rel norm))).
  match goal with
  | |- _ <= ?fric + _ =>
      destruct (Rle_or_lt
                  (vnorm (trial_force self
                            (trial_overlap (tangential_velocity v_rel norm) dt
                               tangOverlapOld norm))) fric) as [Hle|Hgt]
  end.
  - destruct (Hstick Hle) as [-> _].
    eapply Rle_trans; [apply vnorm_triangle|]. lra.
  - destruct (Hslip (Rlt_gt _ _ Hgt)) as (_ & _ & _ & _ & Hn & _). lra.
Qed.

End TangentPlane.

Section StoredForces.

Import LinearSurfaceProperty.

(** All that a normal return of [_particle_particle_force_assemble] tells. *)
Lemma particle_particle_assemble_inv
    (self : t) (nc end1 end2 : nat) (gapn : R) (norm cpos : vec3) (dt : R)
    (particle particle' : list Particle.t) (cplist cplist' : list ContactRecord.t) :
  _particle_particle_force_assemble self nc end1 end2 gapn norm cpos dt particle cplist
  = Ok (particle', cplist') ->
  exists p1 p2 p2' c normal_force tangential_force tangOverTemp,
    particle !! end1 = Some p1 /\ particle !! end2 = Some p2 /\ cplist !! nc = Some c
    /\ force_law self (EffectiveValue (Particle.m p1) (Particle.m p2)) gapn norm
         (particle_particle_v_rel p1 p2 cpos) dt (ContactRecord.oldTangOverlap c)
       = Ok (normal_force, tangential_force, tangOverTemp)
    /\ cplist' = <[nc := ContactRecord._set_contact c normal_force tangential_force
                           tangOverTemp]> cplist
    /\ <[end1 := Particle._update_contact_interaction p1
                   (vadd normal_force tangential_force)
                   (vscale (Particle.rad p1 + 0.5 * gapn) (vcross tangential_force norm))]>
         particle !! end2 = Some p2'
    /\ particle'
       = <[end2 := Particle._update_contact_interaction p2'
                     (vneg (vadd normal_force tangential_force))
                     (vscale (Particle.rad p2 + 0.5 * gapn) (vcross tangential_force norm))]>
           (<[end1 := Particle._update_contact_interaction p1
                        (vadd normal_force tangential_force)
                        (vscale (Particle.rad p1 + 0.5 * gapn)
                           (vcross tangential_force norm))]> particle).
Proof.
  intros Hcall.
  destruct (particle_particle_assemble_Ok _ _ _ _ _ _ _ _ _ _ _ _ Hcall)
    as (p1 & p2 & c & nf & tf & tmp & H1 & H2 & Hc & Hlaw).
  destruct (particle_particle_assemble_result self nc end1 end2 gapn norm cpos dt
              particle cplist p1 p2 c nf tf tmp H1 H2 Hc Hlaw)
    as (p2' & Hp2' & Hcall').
  rewrite Hcall in Hcall'. injection Hcall' as -> ->.
  exists p1, p2, p2', c, nf, tf, tmp. done.
Qed.

End StoredForces.

(** X7.  The stored forces and the normal.  When
    [_particle_particle_force_assemble] returns normally for a unit normal,
    the normal force it has stored in the contact record is a multiple of
    the normal, and the tangential force and the overlap it has stored are
    orthogonal to the normal. *)
Theorem stored_forces_respect_normal :
  forall (self : LinearSurfaceProperty.t) (nc end1 end2 : nat) (gapn : R)
         (norm cpos : vec3) (dt : R)
         (particle particle' : list Particle.t) (cplist cplist' : list ContactRecord.t),
    vdot norm norm = 1 ->
    LinearSurfaceProperty._particle_particle_force_assemble
      self nc end1 end2 gapn norm cpos dt particle cplist = Ok (particle', cplist') ->
    exists c' : ContactRecord.t,
      cplist' !! nc = Some c'
      /\ (exists k : R, ContactRecord.normal_force c' = vscale k norm)
      /\ vdot (ContactRecord.tangential_force c') norm = 0
      /\ vdot (ContactRecord.oldTangOverlap c') norm = 0.
Proof.
  intros self nc end1 end2 gapn norm cpos dt particle particle' cplist cplist' Hunit Hcall.
  destruct (particle_particle_assemble_inv _ _ _ _ _ _ _ _ _ _ _ _ Hcall)
    as (p1 & p2 & p2' & c & nf & tf & tmp & H1 & H2 & Hc & Hlaw & -> & _).
  destruct (force_law_respects_normal _ _ _ _ _ _ _ _ _ _ Hunit Hlaw) as (Hn & Ht & Ho).
  eexists. split; [apply list_lookup_insert_eq; eapply lookup_lt_Some; eauto|].
  cbn [ContactRecord._set_contact ContactRecord.normal_force
       ContactRecord.tangential_force ContactRecord.oldTangOverlap].
  split; [eexists; exact Hn|]. done.
Qed.

(** The sticking sample contact under the unit normal [upward]. *)
Lemma stored_forces_respect_normal_witness :
  exists (particle' : list Particle.t) (cplist' : list ContactRecord.t)
         (c' : ContactRecord.t),
    LinearSurfaceProperty._particle_particle_force_assemble sticky 0 0 1 (-1) upward origin 1
      [moving_particle; resting_particle] [fresh_contact] = Ok (particle', cplist')
    /\ cplist' !! 0%nat = Some c'
    /\ vdot (ContactRecord.tangential_force c') upward = 0
    /\ vdot (ContactRecord.oldTangOverlap c') upward = 0.
Proof.
  destruct (particle_particle_assemble_result sticky 0 0 1 (-1) upward origin 1
              [moving_particle; resting_particle] [fresh_contact]
              moving_particle resting_particle fresh_contact _ _ _
              eq_refl eq_refl eq_refl sample_particle_force_law)
    as (p2' & _ & Hcall).
  assert (Hunit : vdot upward upward = 1) by (cbv [vdot upward vx vy vz]; lra).
  destruct (stored_forces_respect_normal _ _ _ _ _ _ _ _ _ _ _ _ Hunit Hcall)
    as (c' & Hc' & _ & Ht & Ho).
  eexists. eexists. exists c'. split; [exact Hcall|]. done.
Defined.

(** X8.  The tangential force is bounded.  For a friction coefficient that
    is not negative, the tangential force that
    [_particle_particle_force_assemble] stores has a norm of at most the
    friction limit [mu * |normal|] plus the norm of the tangential damping
    force; without tangential damping ([sdratio = 0]) it is at most the
    friction limit. *)
Theorem stored_tangential_force_bounded :
  forall (self : LinearSurfaceProperty.t) (nc end1 end2 : nat) (gapn : R)
         (norm cpos : vec3) (dt : R)
         (particle : list Particle.t) (cplist : list ContactRecord.t)
         (p1 p2 : Particle.t) (c : ContactRecord.t),
    particle !! end1 = Some p1 -> particle !! end2 = Some p2 ->
    cplist !! nc = Some c ->
    0 <= LinearSurfaceProperty.mu self ->
    let m_eff := EffectiveValue (Particle.m p1) (Particle.m p2) in
    let v_rel := LinearSurfaceProperty.particle_particle_v_rel p1 p2 cpos in
    let vs := LinearSurfaceProperty.tangential_velocity v_rel norm in
    let fric :=
      LinearSurfaceProperty.friction_limit self
        (LinearSurfaceProperty.normal_scalar self m_eff gapn (vdot v_rel norm)) in
    exists (particle' : list Particle.t) (cplist' : list ContactRecord.t)
           (c' : ContactRecord.t),
      LinearSurfaceProperty._particle_particle_force_assemble
        self nc end1 end2 gapn norm cpos dt particle cplist = Ok (particle', cplist')
      /\ cplist' !! nc = Some c'
      /\ vnorm (ContactRecord.tangential_force c')
         <= fric + vnorm (LinearSurfaceProperty.tangential_damping self m_eff vs)
      /\ (LinearSurfaceProperty.sdratio self = 0 ->
          vnorm (ContactRecord.tangential_force c') <= fric).
Proof.
  intros self nc end1 end2 gapn norm cpos dt particle cplist p1 p2 c
    H1 H2 Hc Hmu m_eff v_rel vs fric.
  destruct (force_law_friction_cap self m_eff gapn norm v_rel dt
              (ContactRecord.oldTangOverlap c) Hmu) as (tf & tmp & Hlaw & _).
  destruct (particle_particle_assemble_result self nc end1 end2 gapn norm cpos dt
              particle cplist p1 p2 c _ tf tmp H1 H2 Hc Hlaw)
    as (p2' & _ & Hcall).
  pose proof (force_law_bounded _ _ _ _ _ _ _ _ _ _ Hmu Hlaw) as Hbound.
  fold vs fric in Hbound.
  eexists. eexists. eexists. split; [exact Hcall|].
  split; [apply list_lookup_insert_eq; eapply lookup_lt_Some; eauto|].
  cbn [ContactRecord._set_contact ContactRecord.tangential_force].
  split; [exact Hbound|].
  intros Hsd.
  replace (LinearSurfaceProperty.tangential_damping self m_eff vs) with ZEROVEC3f in Hbound.
  - rewrite vnorm_ZEROVEC3f in Hbound. lra.
  - unfold LinearSurfaceProperty.tangential_damping. rewrite Hsd.
    apply vec3_eq; simpl; ring.
Qed.

(** The slipping sample contact has no damping: the friction limit holds. *)
Lemma stored_tangential_force_bounded_witness :
  exists (particle' : list Particle.t) (cplist' : list ContactRecord.t)
         (c' : ContactRecord.t),
    LinearSurfaceProperty._particle_particle_force_assemble slippery 0 0 1 (-1) upward origin 1
      [moving_particle; resting_particle] [fresh_contact] = Ok (particle', cplist')
    /\ cplist' !! 0%nat = Some c'
    /\ vnorm (ContactRecord.tangential_force c') <= 0.5.
Proof.
  assert (Hmu : 0 <= LinearSurfaceProperty.mu slippery)
    by (cbv [slippery LinearSurfaceProperty.mu]; lra).
  destruct (stored_tangential_force_bounded slippery 0%nat 0%nat 1%nat (-1) upward origin 1
              [moving_particle; resting_particle] [fresh_contact]
              moving_particle resting_particle fresh_contact
              eq_refl eq_refl eq_refl Hmu)
    as (particle' & cplist' & c' & Hcall & Hc' & _ & Hle).
  exists particle', cplist', c'. split; [exact Hcall|]. split; [exact Hc'|].
  specialize (Hle eq_refl).
  rewrite sample_pp_v_rel, sample_vn, (sample_normal slippery _ eq_refl eq_refl),
    sample_friction_limit in Hle.
  exact Hle.
Defined.

Section RestingContact.

Import LinearSurfaceProperty.

(** An overlap that lies in the tangent plane is carried over as it is. *)
Lemma carried_overlap_in_plane (tangOverlapOld norm : vec3) :
  vdot tangOverlapOld norm = 0 -> carried_overlap tangOverlapOld norm = tangOverlapOld.
Proof.
  intros H. unfold carried_overlap.
  replace (tangOverlapRot tangOverlapOld norm) with tangOverlapOld
    by (unfold tangOverlapRot; rewrite H; apply vec3_eq; simpl; ring).
  unfold Normalize. destruct (Req_dec_T (vnorm tangOverlapOld) 0) as [E|E].
  - rewrite E, vscale_0. symmetry. by apply vnorm_eq_0.
  - rewrite vscale_vscale.
    replace (vnorm tangOverlapOld * (1 / vnorm tangOverlapOld)) with 1 by (by field).
    apply vec3_eq; simpl; ring.
Qed.

End RestingContact.

(** X9.  A contact at rest keeps its overlap.  When the stored overlap is
    orthogonal to the normal, the relative velocity has no tangential part
    and the elastic force [-ks * overlap] of the stored overlap is within the
    friction limit (the friction coefficient not being negative),
    [_particle_particle_force_assemble] stores the same overlap again, and as
    tangential force that elastic force. *)
Theorem resting_contact_keeps_overlap :
  forall (self : LinearSurfaceProperty.t) (nc end1 end2 : nat) (gapn : R)
         (norm cpos : vec3) (dt : R)
         (particle : list Particle.t) (cplist : list ContactRecord.t)
         (p1 p2 : Particle.t) (c : ContactRecord.t),
    particle !! end1 = Some p1 -> particle !! end2 = Some p2 ->
    cplist !! nc = Some c ->
    0 <= LinearSurfaceProperty.mu self ->
    let m_eff := EffectiveValue (Particle.m p1) (Particle.m p2) in
    let v_rel := LinearSurfaceProperty.particle_particle_v_rel p1 p2 cpos in
    let tangOverlapOld := ContactRecord.oldTangOverlap c in
    vdot tangOverlapOld norm = 0 ->
    LinearSurfaceProperty.tangential_velocity v_rel norm = ZEROVEC3f ->
    vnorm (LinearSurfaceProperty.trial_force self tangOverlapOld)
    <= LinearSurfaceProperty.friction_limit self
         (LinearSurfaceProperty.normal_scalar self m_eff gapn (vdot v_rel norm)) ->
    exists (particle' : list Particle.t) (cplist' : list ContactRecord.t)
           (c' : ContactRecord.t),
      LinearSurfaceProperty._particle_particle_force_assemble
        self nc end1 end2 gapn norm cpos dt particle cplist = Ok (particle', cplist')
      /\ cplist' !! nc = Some c'
      /\ ContactRecord.oldTangOverlap c' = tangOverlapOld
      /\ ContactRecord.tangential_force c'
         = vscale (- LinearSurfaceProperty.ks self) tangOverlapOld.
Proof.
  intros self nc end1 end2 gapn norm cpos dt particle cplist p1 p2 c
    H1 H2 Hc Hmu m_eff v_rel tangOverlapOld Hplane Hrest Hwithin.
  assert (Hover : LinearSurfaceProperty.trial_overlap
                    (LinearSurfaceProperty.tangential_velocity v_rel norm) dt
                    tangOverlapOld norm = tangOverlapOld).
  { unfold LinearSurfaceProperty.trial_overlap.
    rewrite Hrest, (carried_overlap_in_plane _ _ Hplane).
    apply vec3_eq; simpl; ring. }
  destruct (force_law_friction_cap self m_eff gapn norm v_rel dt tangOverlapOld Hmu)
    as (tf & tmp & Hlaw & Hstick & _).
  rewrite Hover in Hstick. destruct (Hstick Hwithin) as [-> ->].
  destruct (particle_particle_assemble_result self nc end1 end2 gapn norm cpos dt
              particle cplist p1 p2 c _ _ _ H1 H2 Hc Hlaw)
    as (p2' & _ & Hcall).
  eexists. eexists. eexists. split; [exact Hcall|].
  split; [apply list_lookup_insert_eq; eapply lookup_lt_Some; eauto|].
  cbn [ContactRecord._set_contact ContactRecord.tangential_force
       ContactRecord.oldTangOverlap].
  split; [reflexivity|].
  rewrite Hrest. unfold LinearSurfaceProperty.tangential_damping,
    LinearSurfaceProperty.trial_force.
  apply vec3_eq; simpl; ring.
Qed.

(** Two particles at rest with an overlap of one unit along the first axis. *)
Lemma resting_contact_keeps_overlap_witness :
  exists (particle' : list Particle.t) (cplist' : list ContactRecord.t)
         (c' : ContactRecord.t),
    LinearSurfaceProperty._particle_particle_force_assemble sticky 0 0 1 (-1) upward origin 1
      [resting_particle; resting_particle] [loaded_contact] = Ok (particle', cplist')
    /\ cplist' !! 0%nat = Some c'
    /\ ContactRecord.oldTangOverlap c' = Vec3 1 0 0.
Proof.
  assert (Hmu : 0 <= LinearSurfaceProperty.mu sticky)
    by (cbv [sticky LinearSurfaceProperty.mu]; lra).
  assert (Hv : LinearSurfaceProperty.particle_particle_v_rel
                 resting_particle resting_particle origin = ZEROVEC3f).
  { apply vec3_eq;
      cbv [LinearSurfaceProperty.particle_particle_v_rel resting_particle origin
           Particle.x Particle.v Particle.w vx vy vz vadd vsub vcross ZEROVEC3f]; ring. }
  assert (Hvs : LinearSurfaceProperty.tangential_velocity ZEROVEC3f upward = ZEROVEC3f).
  { apply vec3_eq;
      cbv [LinearSurfaceProperty.tangential_velocity upward
           vx vy vz vsub vscale vdot ZEROVEC3f]; ring. }
  assert (Hvn : vdot ZEROVEC3f upward = 0)
    by (cbv [vdot upward vx vy vz ZEROVEC3f]; ring).
  destruct (resting_contact_keeps_overlap sticky 0%nat 0%nat 1%nat (-1) upward origin 1
              [resting_particle; resting_particle] [loaded_contact]
              resting_particle resting_particle loaded_contact
              eq_refl eq_refl eq_refl Hmu)
    as (particle' & cplist' & c' & Hcall & Hc' & Hover & _).
  - cbv [loaded_contact ContactRecord.oldTangOverlap vdot upward vx vy vz]. ring.
  - rewrite Hv. exact Hvs.
  - rewrite Hv, Hvn.
    change (ContactRecord.oldTangOverlap loaded_contact) with (Vec3 1 0 0).
    rewrite (sample_trial_force sticky eq_refl), sample_trial_norm.
    rewrite (sample_normal sticky _ eq_refl eq_refl), sample_friction_limit.
    cbv [sticky LinearSurfaceProperty.mu]. lra.
  - exists particle', cplist', c'. split; [exact Hcall|]. split; [exact Hc'|]. exact Hover.
Defined.

(** * The order of two contacts *)

Section OrderOfContacts.

Import LinearSurfaceProperty.

Lemma insert_alter_Some {A : Type} (l : list A) (i : nat) (a : A) (f : A -> A) :
  l !! i = Some a -> <[i := f a]> l = alter f i l.
Proof.
  intros H. rewrite list_insert_alter. apply list_alter_ext; [|reflexivity].
  intros x Hx. congruence.
Qed.

(** Two bodies with the same position, velocities, mass and radius. *)
Let same_body (p q : Particle.t) : Prop :=
  Particle.x p = Particle.x q /\ Particle.v p = Particle.v q
  /\ Particle.w p = Particle.w q /\ Particle.m p = Particle.m q
  /\ Particle.rad p = Particle.rad q.

(** The two deposits of one contact on the particle store. *)
Let deposit (end1 end2 : nat) (force moment1 moment2 : vec3) (particle : list Particle.t)
  : list Particle.t :=
  alter (fun p => Particle._update_contact_interaction p (vneg force) moment2) end2
    (alter (fun p => Particle._update_contact_interaction p force moment1) end1 particle).

Lemma deposit_lookup (end1 end2 : nat) (force moment1 moment2 : vec3)
    (particle : list Particle.t) (j : nat) :
  deposit end1 end2 force moment1 moment2 particle !! j
  = (fun p =>
       let p := if decide (end1 = j)
                then Particle._update_contact_interaction p force moment1 else p in
       if decide (end2 = j)
       then Particle._update_contact_interaction p (vneg force) moment2 else p)
    <$> particle !! j.
Proof.
  unfold deposit. rewrite !list_lookup_alter.
  destruct (decide (end2 = j)) as [->|]; destruct (decide (end1 = j)) as [->|];
    by destruct (particle !! j).
Qed.

Lemma deposit_same_body_1 end1 end2 force moment1 moment2 particle j q :
  deposit end1 end2 force moment1 moment2 particle !! j = Some q ->
  exists p, particle !! j = Some p /\ same_body q p.
Proof.
  rewrite deposit_lookup. destruct (particle !! j) as [p|]; [|discriminate].
  intros [= <-]. exists p. split; [reflexivity|].
  destruct (decide (end1 = j)), (decide (end2 = j)); by repeat split.
Qed.

Lemma deposit_same_body_2 end1 end2 force moment1 moment2 particle j p :
  particle !! j = Some p ->
  exists q, deposit end1 end2 force moment1 moment2 particle !! j = Some q
            /\ same_body q p.
Proof.
  intros H. rewrite deposit_lookup, H. eexists. split; [reflexivity|].
  destruct (decide (end1 = j)), (decide (end2 = j)); by repeat split.
Qed.

Lemma deposit_commute a1 a2 b1 b2 fa ma1 ma2 fb mb1 mb2 particle :
  deposit b1 b2 fb mb1 mb2 (deposit a1 a2 fa ma1 ma2 particle)
  = deposit a1 a2 fa ma1 ma2 (deposit b1 b2 fb mb1 mb2 particle).
Proof.
  apply list_eq. intros j. rewrite !deposit_lookup.
  destruct (particle !! j) as [p|]; [|reflexivity]. cbn [fmap option_fmap option_map].
  f_equal.
  destruct (decide (a1 = j)), (decide (a2 = j)), (decide (b1 = j)), (decide (b2 = j));
    cbv zeta; unfold Particle._update_contact_interaction;
    cbn [Particle.x Particle.v Particle.w Particle.m Particle.rad
         Particle.contact_force Particle.contact_torque];
    f_equal; apply vec3_eq; simpl; ring.
Qed.

(** The force law reads a particle through its position, velocities and mass. *)
Lemma force_law_same_body (self : t) (gapn : R) (norm cpos : vec3) (dt : R)
    (tangOverlapOld : vec3) (q1 q2 p1 p2 : Particle.t) :
  same_body q1 p1 -> same_body q2 p2 ->
  force_law self (EffectiveValue (Particle.m q1) (Particle.m q2)) gapn norm
    (particle_particle_v_rel q1 q2 cpos) dt tangOverlapOld
  = force_law self (EffectiveValue (Particle.m p1) (Particle.m p2)) gapn norm
      (particle_particle_v_rel p1 p2 cpos) dt tangOverlapOld.
Proof.
  intros (Hx1 & Hv1 & Hw1 & Hm1 & _) (Hx2 & Hv2 & Hw2 & Hm2 & _).
  unfold particle_particle_v_rel. by rewrite Hx1, Hv1, Hw1, Hm1, Hx2, Hv2, Hw2, Hm2.
Qed.

(** The assembler in the words of [deposit]. *)
Lemma particle_particle_assemble_deposit
    (self : t) (nc end1 end2 : nat) (gapn : R) (norm cpos : vec3) (dt : R)
    (particle : list Particle.t) (cplist : list ContactRecord.t)
    (p1 p2 : Particle.t) (c : ContactRecord.t)
    (normal_force tangential_force tangOverTemp : vec3) :
  particle !! end1 = Some p1 -> particle !! end2 = Some p2 -> cplist !! nc = Some c ->
  force_law self (EffectiveValue (Particle.m p1) (Particle.m p2)) gapn norm
    (particle_particle_v_rel p1 p2 cpos) dt (ContactRecord.oldTangOverlap c)
  = Ok (normal_force, tangential_force, tangOverTemp) ->
  _particle_particle_force_assemble self nc end1 end2 gapn norm cpos dt particle cplist
  = Ok (deposit end1 end2 (vadd normal_force tangential_force)
          (vscale (Particle.rad p1 + 0.5 * gapn) (vcross tangential_force norm))
          (vscale (Particle.rad p2 + 0.5 * gapn) (vcross tangential_force norm)) particle,
        <[nc := ContactRecord._set_contact c normal_force tangential_force tangOverTemp]>
          cplist).
Proof.
  intros H1 H2 Hc Hlaw.
  destruct (particle_particle_assemble_result self nc end1 end2 gapn norm cpos dt
              particle cplist p1 p2 c _ _ _ H1 H2 Hc Hlaw) as (p2' & Hp2' & ->).
  do 2 f_equal. unfold deposit.
  rewrite <- (insert_alter_Some particle end1 p1 _ H1).
  exact (insert_alter_Some _ end2 p2' _ Hp2').
Qed.

(** Two contacts with different records, assembled one after the other. *)
Lemma assemble_two
    (selfA selfB : t) (ncA ncB a1 a2 b1 b2 : nat) (gapnA gapnB : R)
    (normA normB cposA cposB : vec3) (dt : R)
    (particle particle' : list Particle.t) (cplist cplist' : list ContactRecord.t) :
  ncA <> ncB ->
  (r <- _particle_particle_force_assemble selfA ncA a1 a2 gapnA normA cposA dt
          particle cplist ;;
   _particle_particle_force_assemble selfB ncB b1 b2 gapnB normB cposB dt r.1 r.2)
  = Ok (particle', cplist') ->
  exists pa1 pa2 ca nfa tfa tmpa pb1 pb2 cb nfb tfb tmpb,
    particle !! a1 = Some pa1 /\ particle !! a2 = Some pa2 /\ cplist !! ncA = Some ca
    /\ force_law selfA (EffectiveValue (Particle.m pa1) (Particle.m pa2)) gapnA normA
         (particle_particle_v_rel pa1 pa2 cposA) dt (ContactRecord.oldTangOverlap ca)
       = Ok (nfa, tfa, tmpa)
    /\ particle !! b1 = Some pb1 /\ particle !! b2 = Some pb2 /\ cplist !! ncB = Some cb
    /\ force_law selfB (EffectiveValue (Particle.m pb1) (Particle.m pb2)) gapnB normB
         (particle_particle_v_rel pb1 pb2 cposB) dt (ContactRecord.oldTangOverlap cb)
       = Ok (nfb, tfb, tmpb)
    /\ particle'
       = deposit b1 b2 (vadd nfb tfb)
           (vscale (Particle.rad pb1 + 0.5 * gapnB) (vcross tfb normB))
           (vscale (Particle.rad pb2 + 0.5 * gapnB) (vcross tfb normB))
           (deposit a1 a2 (vadd nfa tfa)
              (vscale (Particle.rad pa1 + 0.5 * gapnA) (vcross tfa normA))
              (vscale (Particle.rad pa2 + 0.5 * gapnA) (vcross tfa normA)) particle)
    /\ cplist'
       = <[ncB := ContactRecord._set_contact cb nfb tfb tmpb]>
           (<[ncA := ContactRecord._set_contact ca nfa tfa tmpa]> cplist).
Proof.
  intros Hne Hseq.
  apply bind_Ok in Hseq as ([PA CA] & HcallA & HcallB). cbn [fst snd] in HcallB.
  destruct (particle_particle_assemble_Ok _ _ _ _ _ _ _ _ _ _ _ _ HcallA)
    as (pa1 & pa2 & ca & nfa & tfa & tmpa & Ha1 & Ha2 & Hca & HlawA).
  rewrite (particle_particle_assemble_deposit _ _ _ _ _ _ _ _ _ _ _ _ _ _ _ _
             Ha1 Ha2 Hca HlawA) in HcallA.
  injection HcallA as <- <-.
  destruct (particle_particle_assemble_Ok _ _ _ _ _ _ _ _ _ _ _ _ HcallB)
    as (qb1 & qb2 & cb & nfb & tfb & tmpb & Hb1 & Hb2 & Hcb & HlawB).
  rewrite (particle_particle_assemble_deposit _ _ _ _ _ _ _ _ _ _ _ _ _ _ _ _
             Hb1 Hb2 Hcb HlawB) in HcallB.
  injection HcallB as <- <-.
  apply deposit_same_body_1 in Hb1 as (pb1 & Hb1 & Hs1).
  apply deposit_same_body_1 in Hb2 as (pb2 & Hb2 & Hs2).
  rewrite list_lookup_insert_ne in Hcb by exact Hne.
  rewrite (force_law_same_body _ _ _ _ _ _ _ _ _ _ Hs1 Hs2) in HlawB.
  destruct Hs1 as (_ & _ & _ & _ & ->). destruct Hs2 as (_ & _ & _ & _ & ->).
  exists pa1, pa2, ca, nfa, tfa, tmpa, pb1, pb2, cb, nfb, tfb, tmpb. done.
Qed.

Lemma assemble_two_Ok
    (selfA selfB : t) (ncA ncB a1 a2 b1 b2 : nat) (gapnA gapnB : R)
    (normA normB cposA cposB : vec3) (dt : R)
    (particle : list Particle.t) (cplist : list ContactRecord.t)
    (pa1 pa2 pb1 pb2 : Particle.t) (ca cb : ContactRecord.t)
    (nfa tfa tmpa nfb tfb tmpb : vec3) :
  ncA <> ncB ->
  particle !! a1 = Some pa1 -> particle !! a2 = Some pa2 -> cplist !! ncA = Some ca ->
  force_law selfA (EffectiveValue (Particle.m pa1) (Particle.m pa2)) gapnA normA
    (particle_particle_v_rel pa1 pa2 cposA) dt (ContactRecord.oldTangOverlap ca)
  = Ok (nfa, tfa, tmpa) ->
  particle !! b1 = Some pb1 -> particle !! b2 = Some pb2 -> cplist !! ncB = Some cb ->
  force_law selfB (EffectiveValue (Particle.m pb1) (Particle.m pb2)) gapnB normB
    (particle_particle_v_rel pb1 pb2 cposB) dt (ContactRecord.oldTangOverlap cb)
  = Ok (nfb, tfb, tmpb) ->
  (r <- _particle_particle_force_assemble selfA ncA a1 a2 gapnA normA cposA dt
          particle cplist ;;
   _particle_particle_force_assemble selfB ncB b1 b2 gapnB normB cposB dt r.1 r.2)
  = Ok (deposit b1 b2 (vadd nfb tfb)
          (vscale (Particle.rad pb1 + 0.5 * gapnB) (vcross tfb normB))
          (vscale (Particle.rad pb2 + 0.5 * gapnB) (vcross tfb normB))
          (deposit a1 a2 (vadd nfa tfa)
             (vscale (Particle.rad pa1 + 0.5 * gapnA) (vcross tfa normA))
             (vscale (Particle.rad pa2 + 0.5 * gapnA) (vcross tfa normA)) particle),
        <[ncB := ContactRecord._set_contact cb nfb tfb tmpb]>
          (<[ncA := ContactRecord._set_contact ca nfa tfa tmpa]> cplist)).
Proof.
  intros Hne Ha1 Ha2 Hca HlawA Hb1 Hb2 Hcb HlawB.
  rewrite (particle_particle_assemble_deposit _ _ _ _ _ _ _ _ _ _ _ _ _ _ _ _
             Ha1 Ha2 Hca HlawA).
  cbn [bind fst snd].
  destruct (deposit_same_body_2 a1 a2 (vadd nfa tfa)
              (vscale (Particle.rad pa1 + 0.5 * gapnA) (vcross tfa normA))
              (vscale (Particle.rad pa2 + 0.5 * gapnA) (vcross tfa normA))
              particle b1 pb1 Hb1) as (qb1 & Hq1 & Hs1).
  destruct (deposit_same_body_2 a1 a2 (vadd nfa tfa)
              (vscale (Particle.rad pa1 + 0.5 * gapnA) (vcross tfa normA))
              (vscale (Particle.rad pa2 + 0.5 * gapnA) (vcross tfa normA))
              particle b2 pb2 Hb2) as (qb2 & Hq2 & Hs2).
  assert (Hcb' : <[ncA := ContactRecord._set_contact ca nfa tfa tmpa]> cplist !! ncB
                 = Some cb) by (by rewrite list_lookup_insert_ne).
  rewrite <- (force_law_same_body _ _ _ _ _ _ _ _ _ _ Hs1 Hs2) in HlawB.
  rewrite (particle_particle_assemble_deposit _ _ _ _ _ _ _ _ _ _ _ _ _ _ _ _
             Hq1 Hq2 Hcb' HlawB).
  destruct Hs1 as (_ & _ & _ & _ & ->). destruct Hs2 as (_ & _ & _ & _ & ->).
  reflexivity.
Qed.

(** X10.  The order of two contacts.  Two calls of
    [_particle_particle_force_assemble] on different contact records, whatever
    the endpoints they share, give the same particle store and the same
    contact list in either order: when the one order returns normally, so
    does the other, with the same result. *)
Theorem assembly_order_independent :
  forall (selfA selfB : LinearSurfaceProperty.t) (ncA ncB a1 a2 b1 b2 : nat)
         (gapnA gapnB : R) (normA normB cposA cposB : vec3) (dt : R)
         (particle particle' : list Particle.t) (cplist cplist' : list ContactRecord.t),
    ncA <> ncB ->
    (r <- _particle_particle_force_assemble selfA ncA a1 a2 gapnA normA cposA dt
            particle cplist ;;
     _particle_particle_force_assemble selfB ncB b1 b2 gapnB normB cposB dt r.1 r.2)
    = Ok (particle', cplist') ->
    (r <- _particle_particle_force_assemble selfB ncB b1 b2 gapnB normB cposB dt
            particle cplist ;;
     _particle_particle_force_assemble selfA ncA a1 a2 gapnA normA cposA dt r.1 r.2)
    = Ok (particle', cplist').
Proof.
  intros selfA selfB ncA ncB a1 a2 b1 b2 gapnA gapnB normA normB cposA cposB dt
    particle particle' cplist cplist' Hne Hseq.
  destruct (assemble_two _ _ _ _ _ _ _ _ _ _ _ _ _ _ _ _ _ _ _ Hne Hseq)
    as (pa1 & pa2 & ca & nfa & tfa & tmpa & pb1 & pb2 & cb & nfb & tfb & tmpb
        & Ha1 & Ha2 & Hca & HlawA & Hb1 & Hb2 & Hcb & HlawB & -> & ->).
  rewrite (assemble_two_Ok selfB selfA ncB ncA b1 b2 a1 a2 _ _ _ _ _ _ _ _ _ _ _ _ _ _ _
             _ _ _ _ _ _ (not_eq_sym Hne) Hb1 Hb2 Hcb HlawB Ha1 Ha2 Hca HlawA).
  f_equal. f_equal.
  - apply deposit_commute.
  - apply list_insert_insert_ne. exact Hne.
Qed.

End OrderOfContacts.

(** The moving particle in contact with two resting ones, in both orders. *)
Lemma assembly_order_independent_witness :
  exists (particle' : list Particle.t) (cplist' : list ContactRecord.t),
    (r <- LinearSurfaceProperty._particle_particle_force_assemble sticky 0 0 1 (-1)
            upward origin 1
            [moving_particle; resting_particle; resting_particle]
            [fresh_contact; fresh_contact] ;;
     LinearSurfaceProperty._particle_particle_force_assemble sticky 1 0 2 (-1)
       upward origin 1 r.1 r.2)
    = Ok (particle', cplist')
    /\ (r <- LinearSurfaceProperty._particle_particle_force_assemble sticky 1 0 2 (-1)
               upward origin 1
               [moving_particle; resting_particle; resting_particle]
               [fresh_contact; fresh_contact] ;;
        LinearSurfaceProperty._particle_particle_force_assemble sticky 0 0 1 (-1)
          upward origin 1 r.1 r.2)
       = Ok (particle', cplist').
Proof.
  pose proof (assemble_two_Ok sticky sticky 0 1 0 1 0 2 (-1) (-1) upward upward
                origin origin 1
                [moving_particle; resting_particle; resting_particle]
                [fresh_contact; fresh_contact]
                moving_particle resting_particle moving_particle resting_particle
                fresh_contact fresh_contact _ _ _ _ _ _
                ltac:(discriminate) eq_refl eq_refl eq_refl sample_particle_force_law
                eq_refl eq_refl eq_refl sample_particle_force_law) as Hseq.
  eexists. eexists. split; [exact Hseq|].
  apply assembly_order_independent; [discriminate | exact Hseq].
Defined.

(** * What a contact leaves alone, and its moments *)

(** X11.  What the particle-particle assembler leaves alone.  When
    [_particle_particle_force_assemble] returns normally, the two stores keep
    their lengths, every particle other than the two endpoints and every
    contact record other than [nc] is as before, every particle keeps its
    position, velocities, mass and radius, and the record [nc] keeps its
    partner. *)
Theorem particle_particle_assemble_frame :
  forall (self : LinearSurfaceProperty.t) (nc end1 end2 : nat) (gapn : R)
         (norm cpos : vec3) (dt : R)
         (particle particle' : list Particle.t) (cplist cplist' : list ContactRecord.t),
    LinearSurfaceProperty._particle_particle_force_assemble
      self nc end1 end2 gapn norm cpos dt particle cplist = Ok (particle', cplist') ->
    length particle' = length particle
    /\ length cplist' = length cplist
    /\ (forall j, j <> end1 -> j <> end2 -> particle' !! j = particle !! j)
    /\ (forall k, k <> nc -> cplist' !! k = cplist !! k)
    /\ (forall j p, particle !! j = Some p ->
          exists q, particle' !! j = Some q
            /\ Particle.x q = Particle.x p /\ Particle.v q = Particle.v p
            /\ Particle.w q = Particle.w p /\ Particle.m q = Particle.m p
            /\ Particle.rad q = Particle.rad p)
    /\ (forall c, cplist !! nc = Some c ->
          exists c', cplist' !! nc = Some c'
            /\ ContactRecord.DstID c' = ContactRecord.DstID c).
Proof.
  intros self nc end1 end2 gapn norm cpos dt particle particle' cplist cplist' Hcall.
  destruct (particle_particle_assemble_inv _ _ _ _ _ _ _ _ _ _ _ _ Hcall)
    as (p1 & p2 & p2' & c & nf & tf & tmp & H1 & H2 & Hc & Hlaw & -> & Hp2' & ->).
  pose proof (lookup_lt_Some _ _ _ H1) as Hlt1.
  pose proof (lookup_lt_Some _ _ _ H2) as Hlt2.
  pose proof (lookup_lt_Some _ _ _ Hc) as Hltc.
  split; [by rewrite !length_insert|]. split; [by rewrite length_insert|].
  split; [intros j Hj1 Hj2; by rewrite !list_lookup_insert_ne|].
  split; [intros k Hk; by rewrite list_lookup_insert_ne|].
  split.
  - intros j p Hp.
    destruct (decide (end2 = j)) as [<-|Hne2].
    + rewrite list_lookup_insert_eq by (by rewrite length_insert).
      eexists. split; [reflexivity|].
      cbn [Particle._update_contact_interaction Particle.x Particle.v Particle.w
           Particle.m Particle.rad].
      destruct (decide (end1 = end2)) as [E|Hne1].
      * rewrite E in Hp2'. rewrite list_lookup_insert_eq in Hp2' by done.
        injection Hp2' as <-. assert (p1 = p) as -> by congruence. done.
      * rewrite list_lookup_insert_ne in Hp2' by done.
        assert (p2' = p) as -> by congruence. done.
    + rewrite list_lookup_insert_ne by done.
      destruct (decide (end1 = j)) as [<-|Hne1].
      * rewrite list_lookup_insert_eq by done.
        assert (p1 = p) as -> by congruence. eexists. split; [reflexivity|]. done.
      * rewrite list_lookup_insert_ne by done. exists p. done.
  - intros c0 Hc0. assert (c0 = c) as -> by congruence.
    rewrite list_lookup_insert_eq by done. eexists. split; [reflexivity|]. done.
Qed.

(** The third particle of three is no endpoint of the sample contact. *)
Lemma particle_particle_assemble_frame_witness :
  exists (particle' : list Particle.t) (cplist' : list ContactRecord.t),
    LinearSurfaceProperty._particle_particle_force_assemble sticky 0 0 1 (-1) upward origin 1
      [moving_particle; resting_particle; resting_particle] [fresh_contact]
    = Ok (particle', cplist')
    /\ particle' !! 2%nat = Some resting_particle
    /\ length particle' = 3%nat.
Proof.
  destruct (particle_particle_assemble_result sticky 0 0 1 (-1) upward origin 1
              [moving_particle; resting_particle; resting_particle] [fresh_contact]
              moving_particle resting_particle fresh_contact _ _ _
              eq_refl eq_refl eq_refl sample_particle_force_law)
    as (p2' & _ & Hcall).
  destruct (particle_particle_assemble_frame _ _ _ _ _ _ _ _ _ _ _ _ Hcall)
    as (Hlen & _ & Hother & _).
  eexists. eexists. split; [exact Hcall|]. split.
  - rewrite Hother by discriminate. reflexivity.
  - exact Hlen.
Defined.

Section Moments.

Import LinearSurfaceProperty.

Lemma force_law_normal_force (self : t) (m_eff gapn : R) (norm v_rel : vec3) (dt : R)
    (tangOverlapOld normal_force tangential_force tangOverTemp : vec3) :
  force_law self m_eff gapn norm v_rel dt tangOverlapOld
  = Ok (normal_force, tangential_force, tangOverTemp) ->
  normal_force = vscale (normal_scalar self m_eff gapn (vdot v_rel norm)) norm.
Proof.
  unfold force_law. intros H. by apply bind_Ok in H as (r & _ & [= <- _ _]).
Qed.

Lemma vcross_along (k : R) (a norm : vec3) :
  vcross (vadd (vscale k norm) a) norm = vcross a norm.
Proof. apply vec3_eq; simpl; ring. Qed.

End Moments.

(** X12.  The moments of a particle-particle contact.  When
    [_particle_particle_force_assemble] returns normally on two different
    endpoints, the moment accumulated on each endpoint is the cross product
    of the force accumulated on endpoint A with the normal, times the lever
    [rad + 0.5 * gapn] of that endpoint: both endpoints receive moments of the
    same direction. *)
Theorem particle_particle_moments :
  forall (self : LinearSurfaceProperty.t) (nc end1 end2 : nat) (gapn : R)
         (norm cpos : vec3) (dt : R)
         (particle particle' : list Particle.t) (cplist cplist' : list ContactRecord.t)
         (p1 p2 : Particle.t),
    end1 <> end2 ->
    particle !! end1 = Some p1 -> particle !! end2 = Some p2 ->
    LinearSurfaceProperty._particle_particle_force_assemble
      self nc end1 end2 gapn norm cpos dt particle cplist = Ok (particle', cplist') ->
    let moment := vcross (force_received particle particle' end1) norm in
    torque_received particle particle' end1 = vscale (Particle.rad p1 + 0.5 * gapn) moment
    /\ torque_received particle particle' end2
       = vscale (Particle.rad p2 + 0.5 * gapn) moment.
Proof.
  intros self nc end1 end2 gapn norm cpos dt particle particle' cplist cplist' p1 p2
    Hne H1 H2 Hcall moment.
  destruct (particle_particle_assemble_inv _ _ _ _ _ _ _ _ _ _ _ _ Hcall)
    as (q1 & q2 & q2' & c & nf & tf & tmp & H1' & H2' & Hc & Hlaw & _ & Hq2' & ->).
  assert (q1 = p1) as -> by congruence. assert (q2 = p2) as -> by congruence.
  rewrite list_lookup_insert_ne in Hq2' by done.
  assert (q2' = p2) as -> by congruence.
  pose proof (lookup_lt_Some _ _ _ H1) as Hlt1.
  pose proof (lookup_lt_Some _ _ _ H2) as Hlt2.
  pose proof (force_law_normal_force _ _ _ _ _ _ _ _ _ _ Hlaw) as ->.
  match goal with
  | |- context [<[end2 := ?b]> (<[end1 := ?a]> particle)] =>
      assert (Hafter1 : <[end2 := b]> (<[end1 := a]> particle) !! end1 = Some a)
        by (rewrite list_lookup_insert_ne by done; by apply list_lookup_insert_eq);
      assert (Hafter2 : <[end2 := b]> (<[end1 := a]> particle) !! end2 = Some b)
        by (apply list_lookup_insert_eq; by rewrite length_insert)
  end.
  subst moment. unfold torque_received, force_received.
  rewrite H1, H2, !Hafter1, !Hafter2.
  cbn [Particle._update_contact_interaction Particle.contact_force Particle.contact_torque].
  split; apply vec3_eq; simpl; ring.
Qed.

(** The two particles of the sticking sample contact. *)
Lemma particle_particle_moments_witness :
  exists (particle' : list Particle.t) (cplist' : list ContactRecord.t),
    LinearSurfaceProperty._particle_particle_force_assemble sticky 0 0 1 (-1) upward origin 1
      [moving_particle; resting_particle] [fresh_contact] = Ok (particle', cplist')
    /\ torque_received [moving_particle; resting_particle] particle' 0
       = vscale (2 + 0.5 * -1)
           (vcross (force_received [moving_particle; resting_particle] particle' 0) upward).
Proof.
  destruct (particle_particle_assemble_result sticky 0 0 1 (-1) upward origin 1
              [moving_particle; resting_particle] [fresh_contact]
              moving_particle resting_particle fresh_contact _ _ _
              eq_refl eq_refl eq_refl sample_particle_force_law)
    as (p2' & _ & Hcall).
  eexists. eexists. split; [exact Hcall|].
  assert (Hne : 0%nat <> 1%nat) by discriminate.
  exact (proj1 (particle_particle_moments sticky 0 0 1 (-1) upward origin 1
                  [moving_particle; resting_particle] _ [fresh_contact] _
                  moving_particle resting_particle Hne eq_refl eq_refl Hcall)).
Defined.

(** * The coupled contact and the wall contacts *)

(** X13.  The coupled contact.  For a friction coefficient that is not
    negative, [_coupled_particle_force_assemble] returns normally on a
    contact whose records exist.  When it returns normally, the moment it has
    accumulated on endpoint B is the cross product of the force accumulated
    on endpoint A with the vector from the centre of B to the contact point,
    every body other than the two endpoints is as before, and so is every
    contact record other than [nc]. *)
Theorem coupled_contact_moment :
  (forall (self : LinearSurfaceProperty.t) (nc end1 end2 : nat) (gapn : R)
          (norm cpos : vec3) (dt : R)
          (particle1 : list CoupledParticle.t) (particle2 : list Particle.t)
          (cplist : list HistoryRecord.t)
          (p1 : CoupledParticle.t) (p2 : Particle.t) (c : HistoryRecord.t),
      particle1 !! end1 = Some p1 -> particle2 !! end2 = Some p2 ->
      cplist !! nc = Some c ->
      0 <= LinearSurfaceProperty.mu self ->
      exists r,
        LinearSurfaceProperty._coupled_particle_force_assemble
          self nc end1 end2 gapn norm cpos dt particle1 particle2 cplist = Ok r)
  /\ (forall (self : LinearSurfaceProperty.t) (nc end1 end2 : nat) (gapn : R)
             (norm cpos : vec3) (dt : R)
             (particle1 particle1' : list CoupledParticle.t)
             (particle2 particle2' : list Particle.t)
             (cplist cplist' : list HistoryRecord.t) (p2 : Particle.t),
         particle2 !! end2 = Some p2 ->
         LinearSurfaceProperty._coupled_particle_force_assemble
           self nc end1 end2 gapn norm cpos dt particle1 particle2 cplist
         = Ok (particle1', particle2', cplist') ->
         torque_received particle2 particle2' end2
         = vcross (coupled_force_received particle1 particle1' end1)
             (vsub cpos (Particle.x p2))
         /\ (forall j, j <> end1 -> particle1' !! j = particle1 !! j)
         /\ (forall j, j <> end2 -> particle2' !! j = particle2 !! j)
         /\ (forall k, k <> nc -> cplist' !! k = cplist !! k)).
Proof.
  split.
  - intros self nc end1 end2 gapn norm cpos dt particle1 particle2 cplist p1 p2 c
      H1 H2 Hc Hmu.
    destruct (force_law_friction_cap self
                (EffectiveValue (CoupledParticle.m p1) (Particle.m p2)) gapn norm
                (LinearSurfaceProperty.coupled_particle_v_rel p1 p2 cpos) dt
                (HistoryRecord.oldTangOverlap c) Hmu) as (tf & tmp & Hlaw & _).
    eexists.
    exact (coupled_particle_assemble_result self nc end1 end2 gapn norm cpos dt
             particle1 particle2 cplist p1 p2 c _ tf tmp H1 H2 Hc Hlaw).
  - intros self nc end1 end2 gapn norm cpos dt particle1 particle1' particle2 particle2'
      cplist cplist' p2 H2 Hcall.
    destruct (coupled_particle_assemble_Ok _ _ _ _ _ _ _ _ _ _ _ _ _ _ Hcall)
      as (p1 & q2 & c & nf & tf & tmp & H1 & H2' & Hc & Hlaw).
    assert (q2 = p2) as -> by congruence.
    pose proof (coupled_particle_assemble_result self nc end1 end2 gapn norm cpos dt
                  particle1 particle2 cplist p1 p2 c nf tf tmp H1 H2 Hc Hlaw) as Hcall'.
    rewrite Hcall in Hcall'. injection Hcall' as -> -> ->.
    split.
    + unfold torque_received, coupled_force_received. rewrite H1, H2.
      rewrite !list_lookup_insert_eq by (eapply lookup_lt_Some; eauto).
      apply vec3_eq; simpl; ring.
    + split; [intros j Hj; by apply list_lookup_insert_ne|].
      split; intros j Hj; by apply list_lookup_insert_ne.
Qed.

(** The moving body in contact with the resting particle. *)
Lemma coupled_contact_moment_witness :
  exists r,
    LinearSurfaceProperty._coupled_particle_force_assemble sticky 0 0 0 (-1) upward origin 1
      [moving_body] [resting_particle] [fresh_history] = Ok r.
Proof.
  assert (Hmu : 0 <= LinearSurfaceProperty.mu sticky)
    by (cbv [sticky LinearSurfaceProperty.mu]; lra).
  exact (proj1 coupled_contact_moment sticky 0%nat 0%nat 0%nat (-1) upward origin 1
           [moving_body] [resting_particle] [fresh_history]
           moving_body resting_particle fresh_history eq_refl eq_refl eq_refl Hmu).
Defined.

Section WallAssemblers.

Import LinearSurfaceProperty.

Lemma mpm_wall_assemble_result
    (self : t) (nc end1 end2 : nat) (distance gapn : R) (norm : vec3) (dt : R)
    (particle : list MPMParticle.t) (wall : list Wall.t) (cplist : list HistoryRecord.t)
    (p1 : MPMParticle.t) (wl : Wall.t) (c : HistoryRecord.t)
    (normal_force tangential_force tangOverTemp : vec3) :
  particle !! end1 = Some p1 -> wall !! end2 = Some wl -> cplist !! nc = Some c ->
  force_law self (MPMParticle.m p1) gapn norm (mpm_wall_v_rel p1 wl) dt
    (HistoryRecord.oldTangOverlap c)
  = Ok (normal_force, tangential_force, tangOverTemp) ->
  _mpm_wall_force_assemble self nc end1 end2 distance gapn norm dt particle wall cplist
  = Ok (<[end1 := MPMParticle._update_contact_interaction p1
                    (vscale (Wall.processCircleShape wl (MPMParticle.x p1) distance (- gapn))
                       (vadd normal_force tangential_force))]> particle,
        <[nc := HistoryRecord._set_contact c tangOverTemp]> cplist).
Proof.
  intros H1 H2 Hc Hlaw. unfold _mpm_wall_force_assemble.
  rewrite (read_Some _ _ _ H1), (read_Some _ _ _ H2). cbn [bind].
  rewrite (read_Some _ _ _ Hc). cbn [bind].
  rewrite Hlaw. cbn [bind fst snd].
  rewrite (write_Some _ _ _ _ Hc). cbn [bind].
  rewrite (write_Some _ _ _ _ H1). reflexivity.
Qed.

Lemma mpm_wall_v_rel_no_spin (q : MPMParticle.t) (p : Particle.t) (wl : Wall.t)
    (cpos : vec3) :
  MPMParticle.v q = Particle.v p -> Particle.w p = ZEROVEC3f ->
  mpm_wall_v_rel q wl = particle_wall_v_rel p wl cpos.
Proof.
  intros Hv Hw. unfold mpm_wall_v_rel, particle_wall_v_rel. rewrite Hv, Hw.
  apply vec3_eq; simpl; ring.
Qed.

End WallAssemblers.

(** X14.  The two wall assemblers agree.  On a particle without spin and a
    material point of the same position, velocity and mass, with the same
    stored overlap, [_mpm_wall_force_assemble] returns normally whenever
    [_particle_wall_force_assemble] does, and stores the same overlap; it
    accumulates the same force when the coverage [processCircleShape] returns
    is not negative, and the opposite force when it is negative, since only
    the particle-wall assembler takes the absolute value of the coverage. *)
Theorem wall_assemblers_agree :
  forall (self : LinearSurfaceProperty.t) (nc end1 end2 : nat) (distance gapn : R)
         (norm cpos : vec3) (dt : R)
         (particle particle' : list Particle.t) (points : list MPMParticle.t)
         (wall : list Wall.t)
         (cplist cplist' : list ContactRecord.t) (history : list HistoryRecord.t)
         (p : Particle.t) (q : MPMParticle.t) (wl : Wall.t)
         (c : ContactRecord.t) (h : HistoryRecord.t),
    particle !! end1 = Some p -> points !! end1 = Some q -> wall !! end2 = Some wl ->
    cplist !! nc = Some c -> history !! nc = Some h ->
    MPMParticle.x q = Particle.x p -> MPMParticle.v q = Particle.v p ->
    MPMParticle.m q = Particle.m p -> Particle.w p = ZEROVEC3f ->
    HistoryRecord.oldTangOverlap h = ContactRecord.oldTangOverlap c ->
    LinearSurfaceProperty._particle_wall_force_assemble
      self nc end1 end2 distance gapn norm cpos dt particle wall cplist
    = Ok (particle', cplist') ->
    let coverage := Wall.processCircleShape wl (Particle.x p) distance (- gapn) in
    exists (points' : list MPMParticle.t) (history' : list HistoryRecord.t)
           (p' : Particle.t) (q' : MPMParticle.t)
           (c' : ContactRecord.t) (h' : HistoryRecord.t),
      LinearSurfaceProperty._mpm_wall_force_assemble
        self nc end1 end2 distance gapn norm dt points wall history
      = Ok (points', history')
      /\ particle' !! end1 = Some p' /\ points' !! end1 = Some q'
      /\ cplist' !! nc = Some c' /\ history' !! nc = Some h'
      /\ HistoryRecord.oldTangOverlap h' = ContactRecord.oldTangOverlap c'
      /\ (0 <= coverage ->
          vsub (MPMParticle.contact_force q') (MPMParticle.contact_force q)
          = vsub (Particle.contact_force p') (Particle.contact_force p))
      /\ (coverage < 0 ->
          vsub (MPMParticle.contact_force q') (MPMParticle.contact_force q)
          = vneg (vsub (Particle.contact_force p') (Particle.contact_force p))).
Proof.
  intros self nc end1 end2 distance gapn norm cpos dt particle particle' points wall
    cplist cplist' history p q wl c h Hp Hq Hwl Hc Hh Hx Hv Hm Hw Hold Hcall coverage.
  destruct (particle_wall_assemble_Ok _ _ _ _ _ _ _ _ _ _ _ _ _ _ Hcall)
    as (p0 & wl0 & c0 & nf & tf & tmp & Hp0 & Hwl0 & Hc0 & Hlaw).
  assert (p0 = p) as -> by congruence. assert (wl0 = wl) as -> by congruence.
  assert (c0 = c) as -> by congruence.
  pose proof (particle_wall_assemble_result self nc end1 end2 distance gapn norm cpos dt
                particle wall cplist p wl c nf tf tmp Hp Hwl Hc Hlaw) as Hcall'.
  rewrite Hcall in Hcall'. injection Hcall' as -> ->.
  assert (Hlaw' : LinearSurfaceProperty.force_law self (MPMParticle.m q) gapn norm
                    (LinearSurfaceProperty.mpm_wall_v_rel q wl) dt
                    (HistoryRecord.oldTangOverlap h) = Ok (nf, tf, tmp)).
  { rewrite Hm, Hold, (mpm_wall_v_rel_no_spin q p wl cpos Hv Hw). exact Hlaw. }
  pose proof (mpm_wall_assemble_result self nc end1 end2 distance gapn norm dt
                points wall history q wl h nf tf tmp Hq Hwl Hh Hlaw') as Hmpm.
  eexists. eexists. eexists. eexists. eexists. eexists.
  split; [exact Hmpm|].
  split; [apply list_lookup_insert_eq; eapply lookup_lt_Some; eauto|].
  split; [apply list_lookup_insert_eq; eapply lookup_lt_Some; eauto|].
  split; [apply list_lookup_insert_eq; eapply lookup_lt_Some; eauto|].
  split; [apply list_lookup_insert_eq; eapply lookup_lt_Some; eauto|].
  split; [reflexivity|].
  cbn [MPMParticle._update_contact_interaction MPMParticle.contact_force
       Particle._update_contact_interaction Particle.contact_force].
  rewrite Hx. fold coverage. split; intros Hsign.
  - rewrite (Rabs_right coverage) by lra. apply vec3_eq; simpl; ring.
  - rewrite (Rabs_left coverage) by lra. apply vec3_eq; simpl; ring.
Qed.

(** The half covered wall, met by the moving particle and by the moving point. *)
Lemma wall_assemblers_agree_witness :
  exists (points' : list MPMParticle.t) (history' : list HistoryRecord.t),
    LinearSurfaceProperty._mpm_wall_force_assemble sticky 0 0 0 1 (-1) upward 1
      [moving_point] [half_covered_wall] [fresh_history] = Ok (points', history').
Proof.
  destruct (particle_wall_received sticky 0 0 0 1 (-1) upward origin 1
              [moving_particle] [half_covered_wall] [fresh_contact]
              moving_particle half_covered_wall fresh_contact _ _ _
              eq_refl eq_refl eq_refl sample_wall_force_law)
    as (particle' & cplist' & Hcall & _).
  destruct (wall_assemblers_agree sticky 0 0 0 1 (-1) upward origin 1
              [moving_particle] particle' [moving_point] [half_covered_wall]
              [fresh_contact] cplist' [fresh_history]
              moving_particle moving_point half_covered_wall fresh_contact fresh_history
              eq_refl eq_refl eq_refl eq_refl eq_refl
              eq_refl eq_refl eq_refl eq_refl eq_refl Hcall)
    as (points' & history' & _ & _ & _ & _ & Hmpm & _).
  exists points', history'. exact Hmpm.
Defined.

(** X15.  The equivalent stiffness is the stiffness of the wall contact.  On
    a particle and a wall that exist, [_get_equivalent_stiffness] returns a
    stiffness that is not negative when [kn] is not negative.  When
    [_particle_wall_force_assemble] is called without normal damping on the
    distance and the gap [_get_equivalent_stiffness] computes, the normal
    force it stores in the contact record is that stiffness times the overlap
    [- gapn], along the normal of the wall. *)
Theorem equivalent_stiffness_of_wall_contact :
  forall (_get_center norm : Wall.t -> vec3)
         (self : LinearSurfaceProperty.t) (nc end1 end2 : nat) (cpos : vec3) (dt : R)
         (particle particle' : list Particle.t) (wall : list Wall.t)
         (cplist cplist' : list ContactRecord.t) (p : Particle.t) (wl : Wall.t),
    particle !! end1 = Some p -> wall !! end2 = Some wl ->
    0 <= LinearSurfaceProperty.kn self ->
    let distance := vdot (vsub (Particle.x p) (_get_center wl)) (norm wl) in
    let gapn := distance - Particle.rad p in
    exists k : R,
      LinearSurfaceProperty._get_equivalent_stiffness _get_center norm
        self end1 end2 particle wall = Ok k
      /\ 0 <= k
      /\ (LinearSurfaceProperty.ndratio self = 0 ->
          LinearSurfaceProperty._particle_wall_force_assemble
            self nc end1 end2 distance gapn (norm wl) cpos dt particle wall cplist
          = Ok (particle', cplist') ->
          exists c' : ContactRecord.t,
            cplist' !! nc = Some c'
            /\ ContactRecord.normal_force c' = vscale (k * (- gapn)) (norm wl)).
Proof.
  intros _get_center norm self nc end1 end2 cpos dt particle particle' wall
    cplist cplist' p wl Hp Hwl Hkn distance gapn.
  eexists. split; [|split].
  - unfold LinearSurfaceProperty._get_equivalent_stiffness.
    rewrite (read_Some _ _ _ Hp), (read_Some _ _ _ Hwl). cbn [bind]. reflexivity.
  - fold distance. fold gapn. apply Rmult_le_pos; [apply Rabs_pos | exact Hkn].
  - intros Hnd Hcall. fold distance. fold gapn.
    destruct (particle_wall_assemble_Ok _ _ _ _ _ _ _ _ _ _ _ _ _ _ Hcall)
      as (p0 & wl0 & c & nf & tf & tmp & Hp0 & Hwl0 & Hc & Hlaw).
    assert (p0 = p) as -> by congruence. assert (wl0 = wl) as -> by congruence.
    pose proof (particle_wall_assemble_result self nc end1 end2 distance gapn (norm wl)
                  cpos dt particle wall cplist p wl c nf tf tmp Hp Hwl Hc Hlaw) as Hcall'.
    rewrite Hcall in Hcall'. injection Hcall' as -> ->.
    eexists. split; [apply list_lookup_insert_eq; eapply lookup_lt_Some; eauto|].
    cbn [ContactRecord._set_contact ContactRecord.normal_force].
    rewrite (force_law_normal_force _ _ _ _ _ _ _ _ _ _ Hlaw).
    unfold LinearSurfaceProperty.normal_scalar. rewrite Hnd.
    apply vec3_eq; simpl; ring.
Qed.

(** The moving particle on the half covered wall through the origin: the
    equivalent stiffness is half of [kn]. *)
Lemma equivalent_stiffness_of_wall_contact_witness :
  exists k : R,
    LinearSurfaceProperty._get_equivalent_stiffness (fun _ => origin) (fun _ => upward)
      sticky 0 0 [moving_particle] [half_covered_wall] = Ok k
    /\ 0 <= k.
Proof.
  destruct (equivalent_stiffness_of_wall_contact (fun _ => origin) (fun _ => upward)
              sticky 0 0 0 origin 1 [moving_particle] [moving_particle]
              [half_covered_wall] [fresh_contact] [fresh_contact]
              moving_particle half_covered_wall eq_refl eq_refl
              ltac:(unfold sticky; simpl; lra))
    as (k & Hk & Hpos & _).
  exists k. split; [exact Hk | exact Hpos].
Defined.

(** * What the rebuild of the wall contacts writes *)

(** X16.  The rebuild of the wall contacts.  When the restored pairs fit,
    [rebuild_pwcontact_list] returns normally and copies the saved counts into
    the history count table of the wall contacts, not into the table of the
    particle contacts, which stays as it was.  Neither the count table nor the
    history store changes its size; the counts from [object_object.shape[0]]
    on and the history records from the last cumulative count on are as
    before the call. *)
Theorem rebuild_pw_writes_wall_history :
  forall (contact_info_t : Type)
         (rebuild_contact_list : contact_info_t -> list nat * nat * list nat * list vec3)
         (self : LinearModel.t) (pcontact : NeighborBase.t) (contact_info : contact_info_t),
    let object_object := (rebuild_contact_list contact_info).1.1.1 in
    let DstID := (rebuild_contact_list contact_info).1.2 in
    let call := LinearModel.rebuild_pwcontact_list contact_info_t rebuild_contact_list
                  self pcontact contact_info in
    (length DstID <= length (LinearModel.cplist self))%nat ->
    call.1.1 = Ok tt
    /\ NeighborBase.hist_particle_particle call.2
       = NeighborBase.hist_particle_particle pcontact
    /\ length (NeighborBase.hist_particle_wall call.2)
       = length (NeighborBase.hist_particle_wall pcontact)
    /\ length (LinearModel.hist_cplist call.1.2) = length (LinearModel.hist_cplist self)
    /\ (forall (i count : nat),
          object_object !! i = Some count ->
          (i < length (NeighborBase.hist_particle_wall pcontact))%nat ->
          NeighborBase.hist_particle_wall call.2 !! i = Some count)
    /\ (forall i : nat,
          (length object_object <= i)%nat ->
          NeighborBase.hist_particle_wall call.2 !! i
          = NeighborBase.hist_particle_wall pcontact !! i)
    /\ (forall cp : nat,
          (List.last object_object 0 <= cp)%nat ->
          LinearModel.hist_cplist call.1.2 !! cp = LinearModel.hist_cplist self !! cp).
Proof.
  intros T rebuild self pcontact info object_object DstID call Hfit.
  subst call. unfold LinearModel.rebuild_pwcontact_list.
  subst object_object DstID.
  destruct (rebuild info) as [[[object_object particle_number] DstID] oldTangOverlap].
  cbn [fst snd] in *.
  destruct (gt_dec (length DstID) (length (LinearModel.cplist self))) as [Hgt|_]; [lia|].
  unfold kernel_rebulid_history_contact_list. cbn [fst snd LinearModel.surfaceProps
    LinearModel.cplist LinearModel.hist_cplist NeighborBase.hist_particle_particle
    NeighborBase.hist_particle_wall].
  split; [reflexivity|]. split; [reflexivity|].
  split; [apply (foldl_insert_seq_length (fun i => default 0%nat (object_object !! i)))|].
  split; [apply (foldl_insert_seq_length
                   (fun cp => HistoryRecord.Build (default 0%nat (DstID !! cp))
                                (default ZEROVEC3f (oldTangOverlap !! cp))))|].
  split; [|split].
  - intros i count Hi Hlen.
    rewrite (foldl_insert_seq_inside (fun i => default 0%nat (object_object !! i)))
      by (apply lookup_lt_Some in Hi; lia).
    by rewrite Hi.
  - intros i Hi.
    apply (foldl_insert_seq_outside (fun i => default 0%nat (object_object !! i))). lia.
  - intros cp Hcp.
    apply (foldl_insert_seq_outside
             (fun cp => HistoryRecord.Build (default 0%nat (DstID !! cp))
                          (default ZEROVEC3f (oldTangOverlap !! cp)))). lia.
Qed.

(** One saved pair is restored into a history of two records: the second
    record and the table of the particle contacts stay. *)
Lemma rebuild_pw_writes_wall_history_witness :
  let call :=
    LinearModel.rebuild_pwcontact_list unit
      (fun _ => ([0; 1]%nat, 1%nat, [7]%nat, [Vec3 1 0 0]))
      (LinearModel.Build [] [fresh_contact; fresh_contact] [fresh_history; fresh_history])
      (NeighborBase.Build [4; 4; 4]%nat [0; 0; 0]%nat) tt in
  call.1.1 = Ok tt
  /\ NeighborBase.hist_particle_particle call.2 = [4; 4; 4]%nat
  /\ NeighborBase.hist_particle_wall call.2 !! 1%nat = Some 1%nat
  /\ NeighborBase.hist_particle_wall call.2 !! 2%nat = Some 0%nat
  /\ LinearModel.hist_cplist call.1.2 !! 1%nat = Some fresh_history.
Proof.
  cbv zeta.
  destruct (rebuild_pw_writes_wall_history unit
              (fun _ => ([0; 1]%nat, 1%nat, [7]%nat, [Vec3 1 0 0]))
              (LinearModel.Build [] [fresh_contact; fresh_contact]
                 [fresh_history; fresh_history])
              (NeighborBase.Build [4; 4; 4]%nat [0; 0; 0]%nat) tt
              ltac:(simpl; lia))
    as (Hok & Hpp & _ & _ & Hcounts & Hrest & Hhist).
  split; [exact Hok|]. split; [exact Hpp|]. split; [|split].
  - apply Hcounts; [reflexivity | simpl; lia].
  - rewrite Hrest by (simpl; lia). reflexivity.
  - rewrite Hhist by (simpl; lia). reflexivity.
Defined.
